(** * katex-react: a shallow embedding of the layout core

    The development follows the TypeScript sources:
    - [SourceLocation.range]                       (SourceLocation.ts)
    - [href]'s MathML builder                      (functions/href.ts)
    - [Img.toMarkup]                               (domTree.ts)
    - [parseTree], [assertParsed]                  (parseTree.ts, functions/delimsizing.ts)
    - [buildExpression], [traverseNonSpaceNodes],
      [buildGroup], [buildHTMLUnbreakable],
      [buildHTML]                                  (buildHTML.ts)
    - the builders of [\color], [\href], [\left..\right], [\middle]
    - [toMarkup] of the nodes of the visual tree   (domTree.ts, tree.ts)
    - the handlers of the delimiter functions      (functions/delimsizing.ts)
    - the handlers of [\href] and [\url]           (functions/href.ts)
    - the MathML builders of [mathord], [textord]  (functions/symbolsOrd.ts).

    JavaScript numbers are idealised as rationals; a string such as
    [x + "em"] is kept structured as [CssEm x]. *)

From Stdlib Require Import String Ascii List Bool Arith ZArith QArith Lia.
Import ListNotations.
Close Scope Q_scope.
Close Scope Z_scope.
Local Open Scope string_scope.
Local Open Scope list_scope.

(* ------------------------------------------------------------------ *)
(** * Parse nodes (parseNode.ts) *)

Inductive Mode := MathMode | TextMode.

Inductive StyleStr := display | text | script | scriptscript.

(** The node types whose builders are part of this development carry their
    fields; every other type of [AnyParseNode] is a [PLeaf] tagged with its
    [type] string and is built by the function registry. *)
Inductive ParseNode :=
| PColor (mode : Mode) (color : string) (body : list ParseNode)
| PHref (mode : Mode) (href : string) (body : list ParseNode)
| PLeftright (mode : Mode) (body : option (list ParseNode)) (left right : string)
| PMiddle (mode : Mode) (delim : string)
| PSizing (mode : Mode) (size : nat) (body : list ParseNode)
| PStyling (mode : Mode) (style : StyleStr) (body : list ParseNode)
| PTag (mode : Mode) (body tag : list ParseNode)
| PLeaf (type : string) (mode : Mode) (text : string).

Definition nodeType (n : ParseNode) : string :=
  match n with
  | PColor _ _ _ => "color"
  | PHref _ _ _ => "href"
  | PLeftright _ _ _ _ => "leftright"
  | PMiddle _ _ => "middle"
  | PSizing _ _ _ => "sizing"
  | PStyling _ _ _ => "styling"
  | PTag _ _ _ => "tag"
  | PLeaf t _ _ => t
  end.

Definition nodeMode (n : ParseNode) : Mode :=
  match n with
  | PColor m _ _ | PHref m _ _ | PLeftright m _ _ _ | PMiddle m _
  | PSizing m _ _ | PStyling m _ _ | PTag m _ _ | PLeaf _ m _ => m
  end.

(** [checkNodeType(node, type)]: the node itself iff its type matches. *)
Definition checkNodeType (node : option ParseNode) (type : string)
  : option ParseNode :=
  match node with
  | Some n => if String.eqb (nodeType n) type then Some n else None
  | None => None
  end.

(* ------------------------------------------------------------------ *)
(** * Errors *)

(** The JavaScript exception classes the core can raise. *)
Inductive JsError :=
| ParseError (message : string)
| TypeError (message : string)
| Error (message : string).

Definition isParseError (e : JsError) : bool :=
  match e with ParseError _ => true | _ => false end.

(** A computation that may throw. *)
Definition Result (A : Type) : Type := JsError + A.

Definition ok {A} (a : A) : Result A := inr a.
Definition throw {A} (e : JsError) : Result A := inl e.

Definition bind {A B} (c : Result A) (k : A -> Result B) : Result B :=
  match c with inl e => inl e | inr a => k a end.

Notation "x <- c ;; k" := (bind c (fun x => k))
  (at level 61, c at next level, right associativity).

(* ------------------------------------------------------------------ *)
(** * SourceLocation.ts *)

Module SourceLocation.

(** A lexer is compared by object identity; [lexer] is that identity. *)
Record t := mk { lexer : nat; start : nat; end_ : nat }.

(** A location provider [{loc?: SourceLocation}]. *)
Record Provider := provider { loc : option t }.

(** [static range(first?, second?)]. An absent argument is [None]. *)
Definition range (first second : option Provider) : option t :=
  match second with
  | None =>
      match first with
      | Some f => loc f
      | None => None
      end
  | Some s =>
      match first with
      | None => None
      | Some f =>
          match loc f, loc s with
          | Some l1, Some l2 =>
              if Nat.eqb (lexer l1) (lexer l2)
              then Some (mk (lexer l1) (start l1) (end_ l2))
              else None
          | _, _ => None
          end
      end
  end.

(** C10. [range first second] is [first.loc] when [second] is absent; it is
    the span from [first.loc.start] to [second.loc.end] on the shared lexer
    when both carry locations of the same lexer; in every other case it is
    undefined, so locations of different lexers are never combined. *)
Theorem range_spec :
  (forall f, range (Some f) None = loc f) /\
  (forall f s l1 l2,
      loc f = Some l1 -> loc s = Some l2 -> lexer l1 = lexer l2 ->
      range (Some f) (Some s) = Some (mk (lexer l1) (start l1) (end_ l2))) /\
  (forall first s r,
      range first (Some s) = Some r ->
      exists f l1 l2,
        first = Some f /\ loc f = Some l1 /\ loc s = Some l2 /\
        lexer l1 = lexer l2 /\
        r = mk (lexer l1) (start l1) (end_ l2)).
Proof.
  split; [reflexivity | split].
  - intros f s l1 l2 Hf Hs Hl. unfold range. rewrite Hf, Hs.
    rewrite (proj2 (Nat.eqb_eq _ _) Hl). reflexivity.
  - intros first s r. unfold range.
    destruct first as [f|]; [|discriminate].
    destruct (loc f) as [l1|] eqn:Hf; [|discriminate].
    destruct (loc s) as [l2|] eqn:Hs; [|discriminate].
    destruct (Nat.eqb (lexer l1) (lexer l2)) eqn:Hl; [|discriminate].
    intros H. injection H as <-.
    exists f, l1, l2. apply Nat.eqb_eq in Hl. auto.
Qed.

Lemma range_spec_witness :
  range (Some (provider (Some (mk 7 0 3)))) (Some (provider (Some (mk 7 5 9))))
  = Some (mk 7 0 9).
Proof.
  apply (proj1 (proj2 range_spec)
           (provider (Some (mk 7 0 3))) (provider (Some (mk 7 5 9)))
           (mk 7 0 3) (mk 7 5 9)); reflexivity.
Defined.


Lemma range_same (a : Provider) : range (Some a) (Some a) = loc a.
Proof.
  unfold range. destruct (loc a) as [[lx st en]|]; [|reflexivity].
  simpl. rewrite Nat.eqb_refl. reflexivity.
Qed.

(** X8. Merging is associative, also when a location is missing or the
    lexers differ: for three providers in order of appearance, merging the
    merge of the first two with the third is merging the first with the merge
    of the last two; and merging a provider with itself gives its location. *)
Theorem range_assoc (a b c : Provider) :
  range (Some (provider (range (Some a) (Some b)))) (Some c)
  = range (Some a) (Some (provider (range (Some b) (Some c)))) /\
  range (Some a) (Some a) = loc a.
Proof.
  split; [|apply range_same].
  unfold range. simpl.
  destruct (loc a) as [la|], (loc b) as [lb|], (loc c) as [lc|];
    simpl; try reflexivity;
    try (destruct (Nat.eqb (lexer la) (lexer lb)) eqn:Eab); simpl;
    try reflexivity;
    destruct (Nat.eqb (lexer lb) (lexer lc)) eqn:Ebc; simpl;
    try reflexivity.
  - apply Nat.eqb_eq in Eab. apply Nat.eqb_eq in Ebc.
    rewrite Eab, Ebc, Nat.eqb_refl. reflexivity.
  - apply Nat.eqb_eq in Eab. rewrite Eab, Ebc. reflexivity.
  - rewrite Eab. reflexivity.
Qed.

End SourceLocation.

(* ------------------------------------------------------------------ *)
(** * The MathML builder of [\href] (functions/href.ts)

    MathML nodes are objects with identity: [setAttribute] mutates the
    node it is called on. The heap maps a reference (an index) to an
    object. *)

Module HrefMathML.

Definition ref := nat.

Inductive MathDomNode :=
| MathNode (type : string) (attributes : list (string * string))
           (children : list ref)
| TextNode (text : string)
| SpaceNode (width : Q).

Definition heap := list MathDomNode.

(** [new MathNode(type, children)]: a fresh object at the end of the heap. *)
Definition newMathNode (type : string) (children : list ref) (h : heap)
  : ref * heap :=
  (length h, h ++ [MathNode type [] children]).

(** [obj[key] = value] on a string-keyed object. *)
Fixpoint assign (key value : string) (o : list (string * string))
  : list (string * string) :=
  match o with
  | [] => [(key, value)]
  | (k, v) :: rest =>
      if String.eqb k key then (k, value) :: rest
      else (k, v) :: assign key value rest
  end.

Fixpoint update (r : ref) (f : MathDomNode -> MathDomNode) (h : heap) : heap :=
  match h, r with
  | [], _ => []
  | o :: rest, O => f o :: rest
  | o :: rest, S r' => o :: update r' f rest
  end.

(** [node.setAttribute(name, value)] on the [MathNode] at [r]. *)
Definition setAttribute (r : ref) (name value : string) (h : heap) : heap :=
  update r (fun o =>
              match o with
              | MathNode t attrs ch => MathNode t (assign name value attrs) ch
              | other => other
              end) h.

Definition isMathNode (h : heap) (r : ref) : bool :=
  match nth_error h r with
  | Some (MathNode _ _ _) => true
  | _ => false
  end.

Definition getAttribute (h : heap) (r : ref) (name : string) : option string :=
  match nth_error h r with
  | Some (MathNode _ attrs _) =>
      match find (fun kv => String.eqb (fst kv) name) attrs with
      | Some kv => Some (snd kv)
      | None => None
      end
  | _ => None
  end.

(** [mathmlBuilder] of [\href]. [math] is the node returned by
    [mml.buildExpressionRow(group.body, options)] and [h] the heap after
    that call.
<<
    let mnode = math instanceof MathNode ? math : new MathNode("mrow", [math]);
    mnode.setAttribute("href", group.href);
    return math;
>> *)
Definition mathmlBuilder (href : string) (math : ref) (h : heap) : ref * heap :=
  let '(mnode, h1) :=
    if isMathNode h math then (math, h) else newMathNode "mrow" [math] h in
  let h2 := setAttribute mnode "href" href h1 in
  (math, h2).

Lemma getAttribute_assign (key value : string) (o : list (string * string)) :
  find (fun kv => String.eqb (fst kv) key) (assign key value o)
  = Some (match find (fun kv => String.eqb (fst kv) key) o with
          | Some kv => (fst kv, value)
          | None => (key, value)
          end).
Proof.
  induction o as [|[k v] rest IH]; simpl.
  - rewrite String.eqb_refl. reflexivity.
  - destruct (String.eqb k key) eqn:E; simpl; rewrite E; [reflexivity|exact IH].
Qed.

Lemma nth_error_update (r : ref) f (h : heap) :
  nth_error (update r f h) r = option_map f (nth_error h r).
Proof.
  revert r; induction h as [|o rest IH]; intros [|r]; simpl; auto.
Qed.

(** When the row is a [MathNode], [mnode] aliases [math] and the returned
    node carries the attribute. *)
Lemma mathmlBuilder_MathNode (href : string) (math : ref) (h : heap) :
  isMathNode h math = true ->
  let '(r, h') := mathmlBuilder href math h in
  r = math /\ getAttribute h' r "href" = Some href.
Proof.
  intros Hm. unfold mathmlBuilder. rewrite Hm. split; [reflexivity|].
  unfold getAttribute, setAttribute. rewrite nth_error_update.
  unfold isMathNode in Hm.
  destruct (nth_error h math) as [[t a c| |]|]; try discriminate; simpl.
  rewrite getAttribute_assign.
  destruct (find _ a); reflexivity.
Qed.

(** C9 (the code at the failing input). The body of [\href{https://x}{\kern1em}]
    builds to a single [SpaceNode]; the attribute is written to a fresh
    [mrow] that is dropped, and the returned node has no [href]. *)
Theorem mathmlBuilder_drops_href :
  let '(r, h') := mathmlBuilder "https://x" 0 [SpaceNode 1%Q] in
  r = 0 /\
  nth_error h' r = Some (SpaceNode 1%Q) /\
  getAttribute h' r "href" = None /\
  getAttribute h' 1 "href" = Some "https://x".
Proof. repeat split. Qed.

Lemma update_length (r : ref) f (h : heap) : length (update r f h) = length h.
Proof.
  revert r; induction h as [|o rest IH]; intros [|r]; simpl; auto.
Qed.

(** X15. The MathML builder of [\href] always returns the row that
    [buildExpressionRow] made. For a row that is in the heap, the returned
    node carries the [href] exactly when the row is a [MathNode], and then
    no object is created; otherwise the only change is one new [mrow]
    around the row, which holds the attribute and is not returned. *)
Theorem mathmlBuilder_href_iff (href : string) (math : ref) (h : heap) :
  math < length h ->
  let '(r, h') := mathmlBuilder href math h in
  r = math /\
  if isMathNode h math
  then getAttribute h' r "href" = Some href /\ length h' = length h
  else h' = h ++ [MathNode "mrow" [("href", href)] [math]] /\
       getAttribute h' r "href" = None.
Proof.
  intros Hlt. unfold mathmlBuilder.
  destruct (isMathNode h math) eqn:Hm.
  - split; [reflexivity|]. split.
    + pose proof (mathmlBuilder_MathNode href math h Hm) as H.
      unfold mathmlBuilder in H. rewrite Hm in H. apply H.
    + apply update_length.
  - unfold newMathNode, setAttribute. split; [reflexivity|].
    assert (U : forall (l : heap) o f,
               update (length l) f (l ++ [o]) = l ++ [f o]).
    { induction l as [|x rest IH]; intros o f; simpl; [reflexivity|].
      rewrite IH. reflexivity. }
    rewrite U. simpl. split; [reflexivity|].
    unfold getAttribute. rewrite nth_error_app1 by exact Hlt.
    unfold isMathNode in Hm.
    destruct (nth_error h math) as [[t a c| |]|]; try reflexivity.
    discriminate.
Qed.

Lemma mathmlBuilder_href_iff_witness :
  0 < length [TextNode "x"] /\
  let '(r, h') := mathmlBuilder "u" 0 [TextNode "x"] in
  r = 0 /\
  if isMathNode [TextNode "x"] 0
  then getAttribute h' r "href" = Some "u" /\ length h' = 1
  else h' = [TextNode "x"] ++ [MathNode "mrow" [("href", "u")] [0]] /\
       getAttribute h' r "href" = None.
Proof.
  split; [simpl; lia|].
  apply (mathmlBuilder_href_iff "u" 0 [TextNode "x"]). simpl. lia.
Defined.


End HrefMathML.

(* ------------------------------------------------------------------ *)
(** * Markup of an image node (domTree.ts, class [Img]) *)

Module ImgMarkup.

Local Open Scope string_scope.

Section ToMarkup.

(** [utils.escape] and [utils.hyphenate] (utils.ts is not part of the
    sources at hand). *)
Variable escape : string -> string.
Variable hyphenate : string -> string.

Record Img := mkImg {
  src : string;
  alt : string;
  style : list (string * string)   (* own properties, in insertion order *)
}.

(** The [for (const style in this.style)] loop. *)
Fixpoint styleString (st : list (string * string)) : string :=
  match st with
  | [] => ""
  | (k, v) :: rest => hyphenate k ++ ":" ++ v ++ ";" ++ styleString rest
  end.

(** [Img.toMarkup]. *)
Definition toMarkup (i : Img) : string :=
  let markup := "<img  src='" ++ src i ++ " 'alt='" ++ alt i ++ "' " in
  let styles := styleString (style i) in
  let markup :=
    if String.eqb styles "" then markup
    else markup ++ " style=" ++ String DoubleQuote (escape styles)
                ++ String DoubleQuote "" in
  markup ++ "'/>".

End ToMarkup.

(** Number of occurrences of a character. *)
Fixpoint count (c : ascii) (s : string) : nat :=
  match s with
  | EmptyString => 0
  | String a rest => (if Ascii.eqb a c then 1 else 0) + count c rest
  end.

(** C8 (the code at the failing input). For the image [src="a.png"],
    [alt="pic"] without styles, the markup is [<img  src='a.png 'alt='pic' '/>]:
    the [src] value gains a trailing space and is not separated from [alt],
    and a stray quote precedes [/>], leaving an odd number of quotes. *)
Theorem toMarkup_malformed (escape hyphenate : string -> string) :
  let m := toMarkup escape hyphenate (mkImg "a.png" "pic" []) in
  m = "<img  src='a.png 'alt='pic' '/>" /\ Nat.odd (count "'"%char m) = true.
Proof. split; reflexivity. Qed.

End ImgMarkup.

(* ------------------------------------------------------------------ *)
(** * parseTree.ts and the [leftright] assertion of delimsizing.ts *)

Module ParseTree.

(** A JavaScript value handed to [parseTree] by a caller. *)
Inductive JsValue :=
| JsString (s : string)
| JsNumber (q : Q)
| JsBoolean (b : bool)
| JsNull
| JsUndefined.

Record Settings := mkSettings { displayMode : bool }.

Definition tagOnlyInDisplay : string := "\tag works only in display equations".
Definition onlyStrings : string := "KaTeX can only parse string typed expression".
Definition notFullyParsed : string :=
  "Bug: The leftright ParseNode wasn't fully parsed.".

Section WithParser.

(** Parser.ts is not part of the sources at hand: a parser instance is a
    state, [parse] runs it and may throw, the macro table of its gullet is
    reached through [deleteDfTag], [hasDfTag] and [feed]. *)
Variable Parser : Type.
Variable newParser : string -> Settings -> Parser.
Variable parse : Parser -> Result (list ParseNode * Parser).
Variable deleteDfTag : Parser -> Parser.
Variable hasDfTag : Parser -> bool.
Variable feed : string -> Parser -> Parser.

(** [parseTree(toParse, settings)]. *)
Definition parseTree (toParse : JsValue) (settings : Settings)
  : Result (list ParseNode) :=
  match toParse with
  | JsString s =>
      let parser := deleteDfTag (newParser s settings) in
      r <- parse parser ;;
      let '(tree, parser) := r in
      if hasDfTag parser then
        if negb (displayMode settings) then
          throw (ParseError tagOnlyInDisplay)
        else
          let parser := feed "\df@tag" parser in
          r' <- parse parser ;;
          ok [PTag TextMode tree (fst r')]
      else ok tree
  | _ => throw (TypeError onlyStrings)
  end.

End WithParser.

(** [assertParsed(group)] on the [body] field of a [leftright] node
    ([None] is a missing body; an empty array is truthy). *)
Definition assertParsed (body : option (list ParseNode)) : Result unit :=
  match body with
  | None => throw (Error notFullyParsed)
  | Some _ => ok tt
  end.

(** C6 (amended). An error raised by [parseTree] is the [TypeError] of the
    string check exactly when the input is not a string, and otherwise the
    [ParseError] of the [\tag] check or an error raised by the parser;
    [assertParsed] raises a plain [Error], and only for a missing body. *)
Theorem parseTree_errors
  (Parser : Type) (newParser : string -> Settings -> Parser)
  (parse : Parser -> Result (list ParseNode * Parser))
  (deleteDfTag : Parser -> Parser) (hasDfTag : Parser -> bool)
  (feed : string -> Parser -> Parser) :
  (forall v settings e,
      parseTree Parser newParser parse deleteDfTag hasDfTag feed v settings
      = inl e ->
      match v with
      | JsString _ =>
          e = ParseError tagOnlyInDisplay \/ exists p, parse p = inl e
      | _ => e = TypeError onlyStrings
      end) /\
  (forall body e,
      assertParsed body = inl e -> body = None /\ e = Error notFullyParsed).
Proof.
  split.
  - intros v settings e H.
    destruct v; simpl in H; try (injection H as <-; reflexivity).
    unfold bind in H.
    destruct (parse (deleteDfTag (newParser s settings))) as [e1|[tree p]] eqn:E1.
    + injection H as <-. right. eauto.
    + destruct (hasDfTag p); [|discriminate].
      destruct (negb (displayMode settings)).
      * injection H as <-. left. reflexivity.
      * destruct (parse (feed "\df@tag" p)) as [e2|r] eqn:E2; [|discriminate].
        injection H as <-. right. eauto.
  - intros [b|] e H; simpl in H; [discriminate|].
    injection H as <-. auto.
Qed.

(** A parser that accepts everything, to run [parseTree] on concrete input. *)
Definition trivialParse (p : unit) : Result (list ParseNode * unit) :=
  ok ([], p).

Lemma parseTree_errors_witness :
  parseTree unit (fun _ _ => tt) trivialParse (fun p => p) (fun _ => false)
    (fun _ p => p) (JsNumber 42%Q) (mkSettings true)
  = inl (TypeError onlyStrings) /\
  TypeError onlyStrings = TypeError onlyStrings.
Proof.
  split; [reflexivity|].
  exact (proj1 (parseTree_errors unit (fun _ _ => tt) trivialParse
                  (fun p => p) (fun _ => false) (fun _ p => p))
           (JsNumber 42%Q) (mkSettings true) (TypeError onlyStrings) eq_refl).
Defined.

(** C6 as stated fails: a number handed to [parseTree] raises a [TypeError],
    and an unparsed [leftright] raises a plain [Error]; neither is a
    [ParseError]. *)
Lemma not_only_ParseError :
  (exists e,
      parseTree unit (fun _ _ => tt) trivialParse (fun p => p) (fun _ => false)
        (fun _ p => p) (JsNumber 42%Q) (mkSettings true) = inl e /\
      isParseError e = false) /\
  (exists e, assertParsed None = inl e /\ isParseError e = false).
Proof.
  split; eexists; split; reflexivity.
Qed.


(** X11. A successful [parseTree] has a string as input and returns the
    tree of the parser, or, when the input used [\tag], a single [tag] node
    in text mode around it; the latter only in display mode. *)
Theorem parseTree_result
  (Parser : Type) (newParser : string -> Settings -> Parser)
  (parse : Parser -> Result (list ParseNode * Parser))
  (deleteDfTag : Parser -> Parser) (hasDfTag : Parser -> bool)
  (feed : string -> Parser -> Parser)
  (v : JsValue) (settings : Settings) (tree : list ParseNode) :
  parseTree Parser newParser parse deleteDfTag hasDfTag feed v settings
  = inr tree ->
  exists src body parser,
    v = JsString src /\
    parse (deleteDfTag (newParser src settings)) = inr (body, parser) /\
    ((hasDfTag parser = false /\ tree = body) \/
     (hasDfTag parser = true /\ displayMode settings = true /\
      exists tag parser',
        parse (feed "\df@tag" parser) = inr (tag, parser') /\
        tree = [PTag TextMode body tag])).
Proof.
  destruct v; simpl; try discriminate. unfold bind.
  destruct (parse (deleteDfTag (newParser s settings))) as [e|[body p]] eqn:E1;
    [discriminate|].
  intros H. exists s, body, p. split; [reflexivity|]. split; [exact E1|].
  destruct (hasDfTag p).
  - right. destruct (displayMode settings); simpl in H; [|discriminate].
    destruct (parse (feed "\df@tag" p)) as [e|[tag p']] eqn:E2; [discriminate|].
    simpl in H. injection H as <-. repeat split. eauto.
  - left. injection H as <-. auto.
Qed.

Lemma parseTree_result_witness :
  parseTree unit (fun _ _ => tt) trivialParse (fun p => p) (fun _ => false)
    (fun _ p => p) (JsString "x") (mkSettings false) = inr [] /\
  exists src body parser,
    JsString "x" = JsString src /\
    trivialParse tt = inr (body, parser) /\
    ((false = false /\ @nil ParseNode = body) \/
     (false = true /\ false = true /\
      exists tag parser',
        trivialParse parser = inr (tag, parser') /\
        [] = [PTag TextMode body tag])).
Proof.
  split; [reflexivity|].
  exact (parseTree_result unit (fun _ _ => tt) trivialParse (fun p => p)
           (fun _ => false) (fun _ p => p) (JsString "x") (mkSettings false)
           [] eq_refl).
Defined.

End ParseTree.

(* ------------------------------------------------------------------ *)
(** * The HTML builder (buildHTML.ts, domTree.ts, tree.ts) *)

Module BuildHTML.

Inductive Style := DISPLAY | TEXT | SCRIPT | SCRIPTSCRIPT.

(** [styleMap]. *)
Definition styleMap (s : StyleStr) : Style :=
  match s with
  | display => DISPLAY
  | text => TEXT
  | script => SCRIPT
  | scriptscript => SCRIPTSCRIPT
  end.

(** A value of an inline style: a number of ems ([x + "em"]) or a string. *)
Inductive CssValue :=
| CssEm (x : Q)
| CssText (s : string).

(** [Math.max] on two numbers. *)
Definition jsMax (a b : Q) : Q := if Qle_bool a b then b else a.

(** [obj[key] = value]. *)
Fixpoint assign {V} (key : string) (value : V) (o : list (string * V))
  : list (string * V) :=
  match o with
  | [] => [(key, value)]
  | (k, v) :: rest =>
      if String.eqb k key then (k, value) :: rest
      else (k, v) :: assign key value rest
  end.

(** [obj[key]]. *)
Fixpoint lookup {V} (key : string) (o : list (string * V)) : option V :=
  match o with
  | [] => None
  | (k, v) :: rest => if String.eqb k key then Some v else lookup key rest
  end.

(** [utils.contains(list, elem)], i.e. [list.indexOf(elem) !== -1]; an
    [undefined] element is [None]. *)
Definition contains (l : list string) (elem : option string) : bool :=
  match elem with
  | Some e => existsb (String.eqb e) l
  | None => false
  end.

Definition binLeftCanceller : list string :=
  ["leftmost"; "mbin"; "mopen"; "mrel"; "mop"; "mpunct"].
Definition binRightCanceller : list string :=
  ["rightmost"; "mrel"; "mclose"; "mpunct"].

Definition DomEnum : list string :=
  ["mord"; "mop"; "mbin"; "mrel"; "mopen"; "mclose"; "mpunct"; "minner"].

(** [type DomType = keyof typeof DomEnum]. *)
Inductive DomType :=
| mord | mop | mbin | mrel | mopen | mclose | mpunct | minner.

Definition domTypeName (t : DomType) : string :=
  match t with
  | mord => "mord" | mop => "mop" | mbin => "mbin" | mrel => "mrel"
  | mopen => "mopen" | mclose => "mclose" | mpunct => "mpunct"
  | minner => "minner"
  end.

Section Build.

(** Options.ts is not part of the sources at hand; an [Options] value is
    immutable and is used through these methods. *)
Variable Options : Type.
Variable isTight : Options -> bool.            (* options.style.isTight() *)
Variable getColor : Options -> option string.
Variable withColor : string -> Options -> Options.
Variable havingSize : nat -> Options -> Options.
Variable havingStyle : Style -> Options -> Options.
Variable sizeMultiplier : Options -> Q.
Variable size : Options -> nat.
Variable sizingClasses : Options -> Options -> list string.
Variable baseSizingClasses : Options -> list string.

(** ** Visual nodes *)

Inductive Kind :=
| KSpan
| KAnchor
| KSymbol (text : string)
| KImg (src alt : string)
| KFragment.

(** The fields shared by every [HtmlDomNode]; [isMiddle] is the property
    that the builder of [\middle] attaches to its span. *)
Record NodeData := mkData {
  classes : list string;
  attributes : list (string * string);
  height : Q;
  depth : Q;
  maxFontSize : Q;
  style : list (string * CssValue);
  isMiddle : option (string * Options)
}.

Inductive HtmlDomNode :=
| Node (kind : Kind) (data : NodeData) (children : list HtmlDomNode).

Definition kindOf (n : HtmlDomNode) : Kind := let 'Node k _ _ := n in k.
Definition dataOf (n : HtmlDomNode) : NodeData := let 'Node _ d _ := n in d.
Definition childrenOf (n : HtmlDomNode) : list HtmlDomNode :=
  let 'Node _ _ ch := n in ch.

Definition withData (f : NodeData -> NodeData) (n : HtmlDomNode) : HtmlDomNode :=
  let 'Node k d ch := n in Node k (f d) ch.

(** [node.classes[0]]. *)
Definition class0 (n : HtmlDomNode) : option string := hd_error (classes (dataOf n)).

(** [node.classes[0] = c]. *)
Definition setClass0 (c : string) (n : HtmlDomNode) : HtmlDomNode :=
  withData (fun d => mkData (c :: tl (classes d)) (attributes d) (height d)
                       (depth d) (maxFontSize d) (style d) (isMiddle d)) n.

(** [node.classes = cs]. *)
Definition setClasses (cs : list string) (n : HtmlDomNode) : HtmlDomNode :=
  withData (fun d => mkData cs (attributes d) (height d)
                       (depth d) (maxFontSize d) (style d) (isMiddle d)) n.

(** [node.setAttribute(name, value)]. *)
Definition setAttribute (name value : string) (n : HtmlDomNode) : HtmlDomNode :=
  withData (fun d => mkData (classes d) (assign name value (attributes d))
                       (height d) (depth d) (maxFontSize d) (style d)
                       (isMiddle d)) n.

(** [node.style[name] = value]. *)
Definition setStyle (name : string) (value : CssValue) (n : HtmlDomNode)
  : HtmlDomNode :=
  withData (fun d => mkData (classes d) (attributes d) (height d) (depth d)
                       (maxFontSize d) (assign name value (style d))
                       (isMiddle d)) n.

(** [node.isMiddle = m]. *)
Definition setIsMiddle (m : string * Options) (n : HtmlDomNode) : HtmlDomNode :=
  withData (fun d => mkData (classes d) (attributes d) (height d) (depth d)
                       (maxFontSize d) (style d) (Some m)) n.

(** [node.hasClass(className)]. *)
Definition hasClass (n : HtmlDomNode) (className : string) : bool :=
  contains (classes (dataOf n)) (Some className).

(** [initNode(classes, options, style)]. *)
Definition initNode (cls : list string) (options : option Options)
  (st : list (string * CssValue)) : NodeData :=
  match options with
  | None => mkData cls [] 0%Q 0%Q 0%Q st None
  | Some o =>
      let cls := if isTight o then cls ++ ["mtight"] else cls in
      let st := match getColor o with
                | Some c => assign "color" (CssText c) st
                | None => st
                end in
      mkData cls [] 0%Q 0%Q 0%Q st None
  end.

(** [new Span(classes, children, options, style)]. *)
Definition newSpan (cls : list string) (children : list HtmlDomNode)
  (options : option Options) (st : list (string * CssValue)) : HtmlDomNode :=
  Node KSpan (initNode cls options st) children.

(** [new Anchor(href, classes, children, options)]. *)
Definition newAnchor (href : string) (cls : list string)
  (children : list HtmlDomNode) (options : Options) : HtmlDomNode :=
  setAttribute "href" href (Node KAnchor (initNode cls (Some options) []) children).

(** [new DocumentFragment(children)]. *)
Definition newDocumentFragment (children : list HtmlDomNode) : HtmlDomNode :=
  Node KFragment (mkData [] [] 0%Q 0%Q 0%Q [] None) children.

(** ** buildCommon, delimiter and the spacing tables

    buildCommon.ts, delimiter.ts and spacingData.ts are not part of the
    sources at hand. A node made by [makeSpan], [makeAnchor] or
    [makeFragment] is the constructed node with its [height], [depth] and
    [maxFontSize] computed from its children, [sizeElementFromChildren]. *)
Variable sizeElementFromChildren : list HtmlDomNode -> Q * Q * Q.

Definition sized (n : HtmlDomNode) : HtmlDomNode :=
  let '(h, d, m) := sizeElementFromChildren (childrenOf n) in
  withData (fun x => mkData (classes x) (attributes x) h d m (style x)
                       (isMiddle x)) n.

Definition makeSpan (cls : list string) (children : list HtmlDomNode)
  (options : option Options) : HtmlDomNode :=
  sized (newSpan cls children options []).

Definition makeAnchor (href : string) (cls : list string)
  (children : list HtmlDomNode) (options : Options) : HtmlDomNode :=
  sized (newAnchor href cls children options).

Definition makeFragment (children : list HtmlDomNode) : HtmlDomNode :=
  sized (newDocumentFragment children).

Variable Measurement : Type.
Variable makeGlue : Measurement -> Options -> HtmlDomNode.
Variable spacings : string -> string -> option Measurement.
Variable tightSpacings : string -> string -> option Measurement.
Variable leftRightDelim :
  string -> Q -> Q -> Options -> Mode -> list string -> HtmlDomNode.
Variable sizedDelim :
  string -> nat -> Options -> Mode -> list string -> HtmlDomNode.

(** The builders registered for the node types that are not built here;
    [None] when the registry has no builder for the type. *)
Variable groupBuilders :
  string -> option (ParseNode -> Options -> Result HtmlDomNode).


(** ** Traversal of the non-space nodes *)

(** [checkPartialGroup(node)]: a [DocumentFragment] or an [Anchor]. *)
Definition checkPartialGroup (n : HtmlDomNode) : bool :=
  match kindOf n with
  | KFragment | KAnchor => true
  | _ => false
  end.

(** [node.classes[0] === "mspace"]. *)
Definition isSpace (n : HtmlDomNode) : bool :=
  match class0 n with
  | Some c => String.eqb c "mspace"
  | None => false
  end.

(** The nodes on which [traverseNonSpaceNodes] calls its callback, in the
    order of the calls: partial groups are descended into, explicit spaces
    are skipped. *)
Fixpoint visitedOf (n : HtmlDomNode) : list HtmlDomNode :=
  match n with
  | Node k d ch =>
      if checkPartialGroup n then flat_map visitedOf ch
      else if isSpace n then []
      else [n]
  end.

Definition visited (nodes : list HtmlDomNode) : list HtmlDomNode :=
  flat_map visitedOf nodes.

(** What a callback does: it may mutate [node] and [prev] and may return a
    node to insert after [prev]. *)
Definition Callback : Type :=
  HtmlDomNode -> HtmlDomNode
  -> HtmlDomNode * HtmlDomNode * option HtmlDomNode.   (* node', prev', result *)

(** The sequence of calls [callback(node, prev.node); prev.node = node] over
    the visited nodes. Each step finalises the previous node: the result
    lists every previous node with the node inserted after it, and returns
    the last node visited. *)
Fixpoint runCallback (callback : Callback) (prev : HtmlDomNode)
  (nodes : list HtmlDomNode)
  : list (HtmlDomNode * option HtmlDomNode) * HtmlDomNode :=
  match nodes with
  | [] => ([], prev)
  | node :: rest =>
      let '(node', prev', result) := callback node prev in
      let '(outs, last) := runCallback callback node' rest in
      ((prev', result) :: outs, last)
  end.

Definition optList {A} (o : option A) : list A :=
  match o with Some a => [a] | None => [] end.

(** Map over an array, threading a state; each element yields the elements
    that replace it. *)
Definition threadMap {A B S} (f : A -> S -> list B * S)
  : list A -> S -> list B * S :=
  fix go (l : list A) (s : S) : list B * S :=
    match l with
    | [] => ([], s)
    | a :: rest =>
        let '(bs, s1) := f a s in
        let '(rest', s2) := go rest s1 in
        (bs ++ rest', s2)
    end.

(** Writing the outcome of the calls back into the tree: a visited node is
    replaced by its final state, and the node inserted after it by
    [prev.insertAfter], that is [nodes.splice(index + 1, 0, n)] on the array
    that holds it, follows it there. *)
Fixpoint writeBackNode (n : HtmlDomNode)
  (outs : list (HtmlDomNode * option HtmlDomNode))
  : list HtmlDomNode * list (HtmlDomNode * option HtmlDomNode) :=
  match n with
  | Node k d ch =>
      if checkPartialGroup n then
        let '(ch', outs') := threadMap writeBackNode ch outs in
        ([Node k d ch'], outs')
      else if isSpace n then ([n], outs)
      else
        match outs with
        | (n', after) :: outs' => (n' :: optList after, outs')
        | [] => ([n], [])
        end
  end.

Definition writeBack (nodes : list HtmlDomNode)
  (outs : list (HtmlDomNode * option HtmlDomNode)) : list HtmlDomNode :=
  fst (threadMap writeBackNode nodes outs).

(** The first call has a [prev] without [insertAfter]: its result goes to
    the front of the array being traversed, [nodes.unshift(result)]. That
    array is the one that holds the first visited node. *)
Inductive Front :=
| NoVisit                      (* no node is visited in here *)
| Here                         (* the node itself is the first visited *)
| Inside (n : HtmlDomNode).    (* the result was placed inside this group *)

Definition unshiftScan (f : HtmlDomNode -> Front)
  : list HtmlDomNode -> option (bool * list HtmlDomNode) :=
  fix go (l : list HtmlDomNode) : option (bool * list HtmlDomNode) :=
    match l with
    | [] => None
    | e :: rest =>
        match f e with
        | NoVisit =>
            match go rest with
            | Some (b, rest') => Some (b, e :: rest')
            | None => None
            end
        | Here => Some (true, e :: rest)
        | Inside e' => Some (false, e' :: rest)
        end
    end.

Definition unshiftWith (f : HtmlDomNode -> Front) (result : HtmlDomNode)
  (nodes : list HtmlDomNode) : option (list HtmlDomNode) :=
  match unshiftScan f nodes with
  | Some (true, l) => Some (result :: l)
  | Some (false, l) => Some l
  | None => None
  end.

Fixpoint frontOf (result : HtmlDomNode) (n : HtmlDomNode) : Front :=
  match n with
  | Node k d ch =>
      if checkPartialGroup n then
        match unshiftWith (frontOf result) result ch with
        | Some ch' => Inside (Node k d ch')
        | None => NoVisit
        end
      else if isSpace n then NoVisit
      else Here
  end.

Definition unshiftFront (result : option HtmlDomNode)
  (nodes : list HtmlDomNode) : list HtmlDomNode :=
  match result with
  | Some r =>
      match unshiftWith (frontOf r) r nodes with
      | Some l => l
      | None => nodes
      end
  | None => nodes
  end.

(** [traverseNonSpaceNodes(nodes, callback, {node: prev}, next)], as called
    on the whole list of a real group. The recursion into partial groups and
    the shared [prev] record are carried by [visited], [runCallback] and
    [writeBack]; [next] is appended for the traversal and popped at the end.
    Besides the array, the final states of [prev] and [next] are returned. *)
Definition traverseNonSpaceNodes (nodes : list HtmlDomNode)
  (callback : Callback) (prev next : HtmlDomNode)
  : list HtmlDomNode * HtmlDomNode * HtmlDomNode :=
  let nodes1 := nodes ++ [next] in
  let '(outs, last) := runCallback callback prev (visited nodes1) in
  match outs with
  | [] => (nodes, prev, next)
  | (prev', result) :: outs' =>
      let nodes2 := writeBack nodes1 (outs' ++ [(last, None)]) in
      let nodes3 := unshiftFront result nodes2 in
      (removelast nodes3, prev', last)
  end.

(** [getTypeOfDomTree(node)]: [DomEnum[node.classes[0]] || null]. (Class
    names are CSS class names; none is a property of [Object.prototype].) *)
Definition getTypeOfDomTree (node : option HtmlDomNode) : option string :=
  match node with
  | None => None
  | Some n =>
      match class0 n with
      | Some c => if contains DomEnum (Some c) then Some c else None
      | None => None
      end
  end.

(** [x === c] for a possibly undefined [x]. *)
Definition isStr (x : option string) (c : string) : bool :=
  match x with Some s => String.eqb s c | None => false end.

(** The callback of the bin-cancellation pass. *)
Definition cancelBin : Callback := fun node prev =>
  let prevType := class0 prev in
  let type := class0 node in
  if isStr prevType "mbin" && contains binRightCanceller type then
    (node, setClass0 "mord" prev, None)
  else if isStr type "mbin" && contains binLeftCanceller prevType then
    (setClass0 "mord" node, prev, None)
  else (node, prev, None).

(** The callback of the spacing pass. *)
Definition spacingFor (node prev : HtmlDomNode) : option Measurement :=
  match getTypeOfDomTree (Some prev), getTypeOfDomTree (Some node) with
  | Some prevType, Some type =>
      if hasClass node "mtight" then tightSpacings prevType type
      else spacings prevType type
  | _, _ => None
  end.

Definition insertGlue (glueOptions : Options) : Callback := fun node prev =>
  match spacingFor node prev with
  | Some space => (node, prev, Some (makeGlue space glueOptions))
  | None => (node, prev, None)
  end.



(** ** The loop of [traverseNonSpaceNodes], step by step

    The same traversal as the source writes it, for comparison: arrays are
    mutated in place and reached by their position in the tree. A path
    [[i0; ..; ik]] names the node at index [ik] of the array that the path
    [[i0; ..; ik-1]] names, the empty path naming the top array. Each
    invocation has its own counter [i]; the counters of the invocations in
    progress, outermost first, give the path of the array each of them
    iterates over. *)

Fixpoint arrayAt (p : list nat) (nodes : list HtmlDomNode)
  : option (list HtmlDomNode) :=
  match p with
  | [] => Some nodes
  | i :: p' =>
      match nth_error nodes i with
      | Some n => arrayAt p' (childrenOf n)
      | None => None
      end
  end.

Fixpoint replaceNth {A} (i : nat) (f : A -> A) (l : list A) : list A :=
  match l, i with
  | [], _ => []
  | x :: rest, O => f x :: rest
  | x :: rest, S i' => x :: replaceNth i' f rest
  end.

Fixpoint updateArrayAt (p : list nat)
  (f : list HtmlDomNode -> list HtmlDomNode) (nodes : list HtmlDomNode)
  : list HtmlDomNode :=
  match p with
  | [] => f nodes
  | i :: p' =>
      replaceNth i (fun n => let 'Node k d ch := n in
                             Node k d (updateArrayAt p' f ch)) nodes
  end.

(** [nodes.splice(index, 0, n)]. *)
Definition spliceAt (index : nat) (n : HtmlDomNode) (nodes : list HtmlDomNode)
  : list HtmlDomNode :=
  firstn index nodes ++ n :: skipn index nodes.

(** The [prev] record: [node] is the dummy ([None]) or a node of the tree;
    [insertAfter] is the closure over its invocation (by number), its array
    and its index. *)
Record PrevRecord := mkPrev {
  prevNode : option (list nat * nat);
  insertAfter : option (nat * list nat * nat)
}.

Record Machine := mkMachine {
  root : list HtmlDomNode;          (* the top array *)
  dummy : HtmlDomNode;              (* the object first given as [prev.node] *)
  prev : PrevRecord;
  frames : list (nat * nat);        (* invocation number and [i], outermost first *)
  started : nat                     (* invocations started so far *)
}.

(** [i++] in the invocation numbered [id], if it is in progress. *)
Definition bump (id : nat) (frames : list (nat * nat)) : list (nat * nat) :=
  map (fun fr => if Nat.eqb (fst fr) id then (fst fr, S (snd fr)) else fr) frames.

Definition readPrev (m : Machine) : HtmlDomNode :=
  match prevNode (prev m) with
  | Some (q, i) =>
      match arrayAt q (root m) with
      | Some nodes => nth i nodes (dummy m)
      | None => dummy m
      end
  | None => dummy m
  end.

Definition writePrev (n : HtmlDomNode) (m : Machine) : Machine :=
  match prevNode (prev m) with
  | Some (q, i) =>
      mkMachine (updateArrayAt q (replaceNth i (fun _ => n)) (root m))
        (dummy m) (prev m) (frames m) (started m)
  | None => mkMachine (root m) n (prev m) (frames m) (started m)
  end.

(** The body of the loop for a node that is neither a partial group nor a
    space, in the invocation numbered [id] at index [i] of the array [q]. *)
Definition visit (callback : Callback) (id : nat) (q : list nat) (i : nat)
  (node : HtmlDomNode) (m : Machine) : Machine :=
  let '(node', prev', result) := callback node (readPrev m) in
  let m := writePrev prev' m in
  let m := mkMachine (updateArrayAt q (replaceNth i (fun _ => node')) (root m))
             (dummy m) (prev m) (frames m) (started m) in
  let m :=
    match result with
    | Some r =>
        match insertAfter (prev m) with
        | Some (owner, qa, index) =>
            mkMachine (updateArrayAt qa (spliceAt (S index) r) (root m))
              (dummy m) (prev m) (bump owner (frames m)) (started m)
        | None =>
            mkMachine (updateArrayAt q (fun nodes => r :: nodes) (root m))
              (dummy m) (prev m) (bump id (frames m)) (started m)
        end
    | None => m
    end in
  (* the indices as they are now, after the insertion *)
  let depth := length q in
  let q' := map snd (firstn depth (frames m)) in
  let i' := snd (nth depth (frames m) (0, 0)) in
  mkMachine (root m) (dummy m)
    (mkPrev (Some (q', i')) (Some (id, q', i'))) (frames m) (started m).

(** The loop of the invocation at depth [depth] of the call stack; [fuel]
    bounds the number of iterations and calls. *)
Fixpoint traverseLoop (fuel : nat) (callback : Callback) (depth : nat)
  (m : Machine) : Machine :=
  match fuel with
  | O => m
  | S fuel =>
      let q := map snd (firstn depth (frames m)) in
      let '(id, i) := nth depth (frames m) (0, 0) in
      match arrayAt q (root m) with
      | None => m
      | Some nodes =>
          match nth_error nodes i with
          | None => m                                   (* i >= nodes.length *)
          | Some node =>
              let m :=
                if checkPartialGroup node then
                  let m := mkMachine (root m) (dummy m) (prev m)
                             (firstn (S depth) (frames m) ++ [(started m, 0)])
                             (S (started m)) in
                  let m := traverseLoop fuel callback (S depth) m in
                  mkMachine (root m) (dummy m) (prev m)
                    (firstn (S depth) (frames m)) (started m)
                else if isSpace node then m
                else visit callback id q i node m in
              let m := mkMachine (root m) (dummy m) (prev m)
                         (bump id (frames m)) (started m) in
              traverseLoop fuel callback depth m
          end
      end
  end.

(** [traverseNonSpaceNodes(nodes, callback, {node: prev}, next)] run on the
    machine: push [next], loop, pop. *)
Definition traverseNonSpaceNodesLoop (fuel : nat) (nodes : list HtmlDomNode)
  (callback : Callback) (prev next : HtmlDomNode)
  : list HtmlDomNode * HtmlDomNode * HtmlDomNode :=
  let m := mkMachine (nodes ++ [next]) prev (mkPrev None None) [(0, 0)] 1 in
  let m := traverseLoop fuel callback 0 m in
  (removelast (root m), dummy m, last (root m) next).

(** ** buildExpression and the group builders *)

(** The part of [buildExpression] that follows the building of [groups] in
    a real group: [glueOptions], the two dummy spans and the two passes. *)
Definition glueOptionsOf (expression : list ParseNode) (options : Options)
  : Options :=
  match expression with
  | [e] =>
      let node :=
        match checkNodeType (Some e) "sizing" with
        | Some n => Some n
        | None => checkNodeType (Some e) "styling"
        end in
      match node with
      | Some (PSizing _ sz _) => havingSize sz options
      | Some (PStyling _ st _) => havingStyle (styleMap st) options
      | _ => options
      end
  | _ => options
  end.

(** [surrounding[i] || d]. *)
Definition orElse (o : option DomType) (d : string) : string :=
  match o with Some t => domTypeName t | None => d end.

Definition binCancellation (groups : list HtmlDomNode)
  (dummyPrev dummyNext : HtmlDomNode) :=
  traverseNonSpaceNodes groups cancelBin dummyPrev dummyNext.

Definition spacingPass (glueOptions : Options) (groups : list HtmlDomNode)
  (dummyPrev dummyNext : HtmlDomNode) :=
  traverseNonSpaceNodes groups (insertGlue glueOptions) dummyPrev dummyNext.

Definition realGroup (expression : list ParseNode) (options : Options)
  (surrounding : option DomType * option DomType)
  (groups : list HtmlDomNode) : list HtmlDomNode :=
  let glueOptions := glueOptionsOf expression options in
  let dummyPrev := makeSpan [orElse (fst surrounding) "leftmost"] [] (Some options) in
  let dummyNext := makeSpan [orElse (snd surrounding) "rightmost"] [] (Some options) in
  let '(groups1, dummyPrev1, dummyNext1) :=
    binCancellation groups dummyPrev dummyNext in
  let '(groups2, _, _) :=
    spacingPass glueOptions groups1 dummyPrev1 dummyNext1 in
  groups2.

(** [groups.push(...output.children)] for a fragment, [groups.push(output)]
    otherwise. *)
Definition pushOutput (output : HtmlDomNode) : list HtmlDomNode :=
  match kindOf output with
  | KFragment => childrenOf output
  | _ => [output]
  end.

(** The first loop of [buildExpression], over a function that builds one
    group. *)
Definition buildGroups (build : ParseNode -> Options -> Result HtmlDomNode)
  (options : Options) : list ParseNode -> Result (list HtmlDomNode) :=
  fix go (expression : list ParseNode) : Result (list HtmlDomNode) :=
    match expression with
    | [] => ok []
    | e :: rest =>
        output <- build e options ;;
        groups <- go rest ;;
        ok (pushOutput output ++ groups)
    end.

(** [makeNullDelimiter(options, classes)]. *)
Definition makeNullDelimiter (options : Options) (cls : list string)
  : HtmlDomNode :=
  makeSpan (cls ++ ["nulldelimiter"] ++ baseSizingClasses options) [] None.

(** The sizing loop and the [\middle] loop of the [leftright] builder. *)
Definition isMiddleOf (n : HtmlDomNode) : option (string * Options) :=
  isMiddle (dataOf n).

Definition hadMiddle (inner : list HtmlDomNode) : bool :=
  existsb (fun n => match isMiddleOf n with Some _ => true | None => false end)
    inner.

Definition innerExtent (field : NodeData -> Q) (inner : list HtmlDomNode) : Q :=
  fold_left (fun acc n =>
               match isMiddleOf n with
               | Some _ => acc
               | None => jsMax (field (dataOf n)) acc
               end) inner 0%Q.

Definition resizeMiddle (innerHeight innerDepth : Q) (mode : Mode)
  (n : HtmlDomNode) : HtmlDomNode :=
  match isMiddleOf n with
  | Some (delim, options) =>
      leftRightDelim delim innerHeight innerDepth options mode []
  | None => n
  end.

Definition leftrightAssemble (mode : Mode) (left right : string)
  (options : Options) (inner : list HtmlDomNode) : HtmlDomNode :=
  let innerHeight := (innerExtent height inner * sizeMultiplier options)%Q in
  let innerDepth := (innerExtent depth inner * sizeMultiplier options)%Q in
  let leftDelim :=
    if String.eqb left "." then makeNullDelimiter options ["mopen"]
    else leftRightDelim left innerHeight innerDepth options mode ["mopen"] in
  let inner' :=
    if hadMiddle inner
    then map (resizeMiddle innerHeight innerDepth mode) inner
    else inner in
  let rightDelim :=
    if String.eqb right "." then makeNullDelimiter options ["mclose"]
    else leftRightDelim right innerHeight innerDepth options mode ["mclose"] in
  makeSpan ["minner"] (leftDelim :: inner' ++ [rightDelim]) (Some options).

(** The [htmlBuilder] of [\middle]. *)
Definition middleBuilder (mode : Mode) (delim : string) (options : Options)
  : HtmlDomNode :=
  if String.eqb delim "." then makeNullDelimiter options []
  else setIsMiddle (delim, options) (sizedDelim delim 1 options mode []).

Definition unknownType (type : string) : JsError :=
  ParseError ("Got group of unknown type: '" ++ type ++ "'").

(** [groupBuilders[group.type](group, options)]: the builders of [color],
    [href], [leftright] and [middle] are those of functions/color.ts,
    functions/href.ts and functions/delimsizing.ts; they call
    [buildExpression], which calls [buildGroup(expression[i], options)]. *)
Fixpoint htmlBuilder (group : ParseNode) (options : Options)
  : Result HtmlDomNode :=
  match group with
  | PColor _ color body =>
      elements <- buildGroups htmlBuilder (withColor color options) body ;;
      ok (makeFragment elements)
  | PHref _ href body =>
      elements <- buildGroups htmlBuilder options body ;;
      ok (makeAnchor href [] elements options)
  | PLeftright mode body ldelim rdelim =>
      _ <- ParseTree.assertParsed body ;;
      match body with
      | Some body =>
          groups <- buildGroups htmlBuilder options body ;;
          let inner :=
            realGroup body options (Some mopen, Some mclose) groups in
          ok (leftrightAssemble mode ldelim rdelim options inner)
      | None => throw (Error ParseTree.notFullyParsed)
      end
  | PMiddle mode delim => ok (middleBuilder mode delim options)
  | _ =>
      match groupBuilders (nodeType group) with
      | Some builder => builder group options
      | None => throw (unknownType (nodeType group))
      end
  end.

(** [buildGroup(group, options, baseOptions)]. *)
Definition buildGroup (group : option ParseNode) (options : Options)
  (baseOptions : option Options) : Result HtmlDomNode :=
  match group with
  | None => ok (makeSpan [] [] None)
  | Some g =>
      groupNode <- htmlBuilder g options ;;
      match baseOptions with
      | Some base =>
          if negb (Nat.eqb (size options) (size base)) then
            let wrapped :=
              makeSpan (sizingClasses options base) [groupNode] (Some options) in
            let multiplier := (sizeMultiplier options / sizeMultiplier base)%Q in
            ok (withData
                  (fun d => mkData (classes d) (attributes d)
                              (height d * multiplier)%Q (depth d * multiplier)%Q
                              (maxFontSize d) (style d) (isMiddle d)) wrapped)
          else ok groupNode
      | None => ok groupNode
      end
  end.

(** [buildExpression(expression, options, isRealGroup, surrounding)]. *)
Definition buildExpression (expression : list ParseNode) (options : Options)
  (isRealGroup : bool) (surrounding : option DomType * option DomType)
  : Result (list HtmlDomNode) :=
  groups <- buildGroups (fun g o => buildGroup (Some g) o None) options
              expression ;;
  if negb isRealGroup then ok groups
  else ok (realGroup expression options surrounding groups).


(** ** Root assembly *)

(** [buildHTMLUnbreakable(children, options)]. *)
Definition buildHTMLUnbreakable (children : list HtmlDomNode)
  (options : Options) : HtmlDomNode :=
  let body := makeSpan ["base"] children (Some options) in
  let strut := makeSpan ["strut"] [] None in
  let strut :=
    setStyle "height"
      (CssEm (height (dataOf body) + depth (dataOf body))%Q) strut in
  let strut := setStyle "verticalAlign" (CssEm (- depth (dataOf body))%Q) strut in
  let 'Node k d ch := body in
  Node k d (strut :: ch).

Definition breaksAfter (n : HtmlDomNode) : bool :=
  hasClass n "mbin" || hasClass n "mrel" || hasClass n "allowbreak".

(** [if (!nobreak) { children.push(buildHTMLUnbreakable(parts, options));
    parts = []; }] at the end of the [while] loop over post-operator glue;
    [glue] is [Some nobreak] inside that loop and [None] outside. *)
Definition endGlue (options : Options) (glue : option bool)
  (parts children : list HtmlDomNode)
  : list HtmlDomNode * list HtmlDomNode :=
  match glue with
  | Some false => ([], children ++ [buildHTMLUnbreakable parts options])
  | _ => (parts, children)
  end.

(** The chunking loop of [buildHTML] over [expression]. *)
Fixpoint chunks (options : Options) (expression : list HtmlDomNode)
  (glue : option bool) (parts children : list HtmlDomNode)
  : list HtmlDomNode :=
  match expression with
  | [] =>
      let '(parts, children) := endGlue options glue parts children in
      match parts with
      | [] => children
      | _ => children ++ [buildHTMLUnbreakable parts options]
      end
  | e :: rest =>
      let inWhile :=
        match glue with
        | Some _ => hasClass e "mspace" && negb (hasClass e "newline")
        | None => false
        end in
      if inWhile then
        let nobreak :=
          match glue with Some b => b | None => false end
          || hasClass e "nobreak" in
        chunks options rest (Some nobreak) (parts ++ [e]) children
      else
        let '(parts, children) := endGlue options glue parts children in
        let parts := parts ++ [e] in
        if breaksAfter e then chunks options rest (Some false) parts children
        else if hasClass e "newline" then
          let parts := removelast parts in
          let children :=
            match parts with
            | [] => children
            | _ => children ++ [buildHTMLUnbreakable parts options]
            end in
          chunks options rest None [] (children ++ [e])
        else chunks options rest None parts children
  end.

(** The strut of the tag is [tagChild.children[0]]; its style is rewritten. *)
Definition restrut (height depth : Q) (tagChild : HtmlDomNode) : HtmlDomNode :=
  match tagChild with
  | Node k d (strut :: ch) =>
      Node k d (setStyle "verticalAlign" (CssEm (- depth)%Q)
                  (setStyle "height" (CssEm (height + depth)%Q) strut) :: ch)
  | _ => tagChild
  end.

(** [buildHTML(tree, options)]. The tag child is one object, held by
    [htmlNode.children] and by [tagChild]: the rewriting of its strut shows
    in the returned node. *)
Definition buildHTML (tree : list ParseNode) (options : Options)
  : Result HtmlDomNode :=
  let '(tag, tree) :=
    match tree with
    | [PTag _ body tag] => (Some tag, body)
    | _ => (None, tree)
    end in
  expression <- buildExpression tree options true (None, None) ;;
  let children := chunks options expression None [] [] in
  match tag with
  | Some tag =>
      tagExpression <- buildExpression tag options true (None, None) ;;
      let tagChild :=
        setClasses ["tag"] (buildHTMLUnbreakable tagExpression options) in
      let htmlNode :=
        setAttribute "aria-hidden" "true"
          (makeSpan ["katex-html"] (children ++ [tagChild]) None) in
      let tagChild' :=
        restrut (height (dataOf htmlNode)) (depth (dataOf htmlNode)) tagChild in
      let 'Node k d _ := htmlNode in
      ok (Node k d (children ++ [tagChild']))
  | None =>
      ok (setAttribute "aria-hidden" "true"
            (makeSpan ["katex-html"] children None))
  end.


(** ** Properties of root assembly *)

Lemma lookup_assign_eq {V} (k : string) (v : V) (o : list (string * V)) :
  lookup k (assign k v o) = Some v.
Proof.
  induction o as [|[k' v'] rest IH]; simpl.
  - rewrite String.eqb_refl. reflexivity.
  - destruct (String.eqb k' k) eqn:E; simpl; rewrite E; [reflexivity|exact IH].
Qed.

Lemma lookup_assign_neq {V} (k k' : string) (v : V) (o : list (string * V)) :
  String.eqb k' k = false -> lookup k (assign k' v o) = lookup k o.
Proof.
  intros Hk. induction o as [|[k2 v2] rest IH]; simpl.
  - rewrite Hk. reflexivity.
  - destruct (String.eqb k2 k') eqn:E; simpl.
    + apply String.eqb_eq in E. subst k2. rewrite Hk. reflexivity.
    + destruct (String.eqb k2 k); [reflexivity|exact IH].
Qed.

Definition styleOf (n : HtmlDomNode) : list (string * CssValue) :=
  style (dataOf n).

(** A strut for a box of the given height and depth. *)
Definition isStrut (h d : Q) (strut : HtmlDomNode) : Prop :=
  lookup "height" (styleOf strut) = Some (CssEm (h + d)%Q) /\
  lookup "verticalAlign" (styleOf strut) = Some (CssEm (- d)%Q).

(** A base span as [buildHTMLUnbreakable] makes it. *)
Definition isBase (options : Options) (c : HtmlDomNode) : Prop :=
  exists parts, c = buildHTMLUnbreakable parts options.

Lemma sized_fields (n : HtmlDomNode) :
  kindOf (sized n) = kindOf n /\
  childrenOf (sized n) = childrenOf n /\
  classes (dataOf (sized n)) = classes (dataOf n) /\
  style (dataOf (sized n)) = style (dataOf n) /\
  isMiddle (dataOf (sized n)) = isMiddle (dataOf n) /\
  (height (dataOf (sized n)), depth (dataOf (sized n)),
   maxFontSize (dataOf (sized n))) = sizeElementFromChildren (childrenOf n).
Proof.
  destruct n as [k d ch]. unfold sized. simpl.
  destruct (sizeElementFromChildren ch) as [[h dp] m]. simpl.
  repeat split.
Qed.

Lemma unbreakable_shape (children : list HtmlDomNode) (options : Options) :
  let body := buildHTMLUnbreakable children options in
  exists strut,
    childrenOf body = strut :: children /\
    classes (dataOf strut) = ["strut"] /\
    isStrut (height (dataOf body)) (depth (dataOf body)) strut /\
    kindOf body = KSpan /\
    hd_error (classes (dataOf body)) = Some "base" /\
    (height (dataOf body), depth (dataOf body), maxFontSize (dataOf body))
    = sizeElementFromChildren children.
Proof.
  unfold buildHTMLUnbreakable, makeSpan, newSpan, sized. simpl.
  destruct (sizeElementFromChildren children) as [[h dp] m].
  destruct (sizeElementFromChildren []) as [[h0 dp0] m0]. simpl.
  eexists. split; [reflexivity|]. repeat split.
  destruct (isTight options); reflexivity.
Qed.

Lemma chunks_Forall (P : HtmlDomNode -> Prop) (options : Options) :
  (forall parts, P (buildHTMLUnbreakable parts options)) ->
  forall expression glue parts children,
    Forall P children ->
    Forall (fun e => hasClass e "newline" = true -> P e) expression ->
    Forall P (chunks options expression glue parts children).
Proof.
  intros HP. induction expression as [|e rest IH]; intros glue parts children Hc He.
  - simpl. destruct glue as [[|]|]; simpl;
      destruct parts; auto; apply Forall_app; auto.
  - inversion He as [|? ? He1 He2]; subst. simpl.
    destruct (match glue with
              | Some _ => hasClass e "mspace" && negb (hasClass e "newline")
              | None => false end).
    + apply IH; auto.
    + assert (Hend : Forall P (snd (endGlue options glue parts children))).
      { destruct glue as [[|]|]; simpl; auto. apply Forall_app; auto. }
      destruct (endGlue options glue parts children) as [parts' children'].
      simpl in Hend.
      destruct (breaksAfter e); [apply IH; auto|].
      destruct (hasClass e "newline") eqn:Hn; [|apply IH; auto].
      apply IH; auto. apply Forall_app. split; [|auto].
      destruct (removelast (parts' ++ [e])); auto.
      apply Forall_app; auto.
Qed.

(** C3. A base span made by [buildHTMLUnbreakable] has a strut as its first
    child, of height [(body.height + body.depth) em] and vertical-align
    [-body.depth em], where [body.height] and [body.depth] are computed from
    the children; and every child of the root built by [buildHTML] is such
    a base span, a newline node or the tag. *)
Theorem base_span_strut :
  (forall children options,
      let body := buildHTMLUnbreakable children options in
      exists strut,
        childrenOf body = strut :: children /\
        classes (dataOf strut) = ["strut"] /\
        isStrut (height (dataOf body)) (depth (dataOf body)) strut /\
        hd_error (classes (dataOf body)) = Some "base" /\
        (height (dataOf body), depth (dataOf body), maxFontSize (dataOf body))
        = sizeElementFromChildren children) /\
  (forall tree options root,
      buildHTML tree options = inr root ->
      Forall (fun c => isBase options c \/ hasClass c "newline" = true \/
                       classes (dataOf c) = ["tag"])
        (childrenOf root)).
Proof.
  split.
  - intros children options body.
    destruct (unbreakable_shape children options) as (s & H1 & H2 & H3 & _ & H5 & H6).
    exists s. auto.
  - intros tree options root. unfold buildHTML.
    set (sel := match tree with [PTag _ body tag] => (Some tag, body) | _ => (None, tree) end).
    destruct sel as [tag tree'].
    destruct (buildExpression tree' options true (None, None)) as [e|expression];
      [discriminate|]. simpl.
    assert (Hch : Forall (fun c => isBase options c \/ hasClass c "newline" = true \/
                                   classes (dataOf c) = ["tag"])
                    (chunks options expression None [] [])).
    { apply chunks_Forall; auto.
      - intros parts. left. exists parts. reflexivity.
      - apply Forall_forall. auto. }
    destruct tag as [tag|].
    + destruct (buildExpression tag options true (None, None)) as [e|tagExpression];
        [discriminate|]. simpl.
      unfold makeSpan, newSpan, sized. simpl.
      destruct (sizeElementFromChildren _) as [[h dp] m]. simpl.
      intros H. injection H as <-. simpl.
      apply Forall_app. split; [exact Hch|].
      constructor; [|constructor]. right. right.
      unfold restrut, setClasses, buildHTMLUnbreakable, makeSpan, newSpan, sized.
      simpl. destruct (sizeElementFromChildren tagExpression) as [[h1 d1] m1].
      reflexivity.
    + intros H. injection H as <-.
      unfold setAttribute, makeSpan, newSpan, sized. simpl.
      destruct (sizeElementFromChildren _) as [[h dp] m]. exact Hch.
Qed.


(** C5. For a tree wrapped by [\tag], the root that [buildHTML] returns has
    class [katex-html]; its last child, and no other, is a span with classes
    [["tag"]]; and the first child of that span, its strut, has height
    [(htmlNode.height + htmlNode.depth) em] and vertical-align
    [-htmlNode.depth em]. *)
Theorem tag_placement (mode : Mode) (body tag : list ParseNode)
  (options : Options) (root : HtmlDomNode) :
  buildHTML [PTag mode body tag] options = inr root ->
  exists children tagChild strut rest,
    childrenOf root = children ++ [tagChild] /\
    Forall (fun c => classes (dataOf c) <> ["tag"]) children /\
    kindOf tagChild = KSpan /\
    classes (dataOf tagChild) = ["tag"] /\
    childrenOf tagChild = strut :: rest /\
    classes (dataOf strut) = ["strut"] /\
    isStrut (height (dataOf root)) (depth (dataOf root)) strut /\
    hd_error (classes (dataOf root)) = Some "katex-html" /\
    lookup "aria-hidden" (attributes (dataOf root)) = Some "true".
Proof.
  unfold buildHTML.
  destruct (buildExpression body options true (None, None)) as [e|expression];
    [discriminate|]. simpl.
  destruct (buildExpression tag options true (None, None)) as [e|tagExpression];
    [discriminate|]. simpl.
  set (children := chunks options expression None [] []).
  assert (Hch : Forall (fun c => classes (dataOf c) <> ["tag"]) children).
  { apply chunks_Forall; auto.
    - intros parts.
      destruct (unbreakable_shape parts options) as (s & _ & _ & _ & _ & Hb & _).
      intros Heq. rewrite Heq in Hb. discriminate.
    - apply Forall_forall. intros x _ Hn Heq. unfold hasClass in Hn.
      rewrite Heq in Hn. discriminate. }
  unfold makeSpan, newSpan, sized. simpl.
  destruct (sizeElementFromChildren (children ++ _)) as [[h dp] m] eqn:Hs. simpl.
  intros H. injection H as <-. simpl.
  unfold restrut, setClasses, buildHTMLUnbreakable, makeSpan, newSpan, sized.
  simpl.
  destruct (sizeElementFromChildren tagExpression) as [[h1 d1] m1].
  destruct (sizeElementFromChildren []) as [[h0 d0] m0]. simpl.
  do 4 eexists. split; [reflexivity|]. split; [exact Hch|].
  repeat split.
Qed.


(** ** Properties of the group builders *)

Lemma buildGroup_htmlBuilder (g : ParseNode) (options : Options) :
  buildGroup (Some g) options None = htmlBuilder g options.
Proof.
  unfold buildGroup, bind. destruct (htmlBuilder g options); reflexivity.
Qed.

Lemma buildGroups_ext (f g : ParseNode -> Options -> Result HtmlDomNode)
  (options : Options) (l : list ParseNode) :
  (forall x o, f x o = g x o) ->
  buildGroups f options l = buildGroups g options l.
Proof.
  intros Hfg. induction l as [|e rest IH]; simpl; [reflexivity|].
  rewrite Hfg, IH. reflexivity.
Qed.

Lemma buildExpression_groups (expression : list ParseNode) (options : Options)
  (isRealGroup : bool) (surrounding : option DomType * option DomType) :
  buildExpression expression options isRealGroup surrounding
  = (groups <- buildGroups htmlBuilder options expression ;;
     ok (if isRealGroup then realGroup expression options surrounding groups
         else groups)).
Proof.
  unfold buildExpression.
  rewrite (buildGroups_ext _ htmlBuilder) by apply buildGroup_htmlBuilder.
  destruct isRealGroup; reflexivity.
Qed.




Lemma pushOutput_makeFragment (elements : list HtmlDomNode) :
  pushOutput (makeFragment elements) = elements.
Proof.
  unfold pushOutput, makeFragment.
  destruct (sized_fields (newDocumentFragment elements)) as (Hk & Hc & _).
  rewrite Hk, Hc. reflexivity.
Qed.


(** ** Properties of the traversal *)

Lemma HtmlDomNode_nested_ind (P : HtmlDomNode -> Prop) :
  (forall k d ch, Forall P ch -> P (Node k d ch)) -> forall n, P n.
Proof.
  intros H. fix IH 1. intros [k d ch]. apply H.
  induction ch as [|c rest IHrest]; constructor; [apply IH|exact IHrest].
Qed.

Lemma visitedOf_eq (k : Kind) (d : NodeData) (ch : list HtmlDomNode) :
  visitedOf (Node k d ch)
  = if checkPartialGroup (Node k d ch) then visited ch
    else if isSpace (Node k d ch) then [] else [Node k d ch].
Proof. reflexivity. Qed.

Lemma writeBackNode_eq (k : Kind) (d : NodeData) (ch : list HtmlDomNode)
  (outs : list (HtmlDomNode * option HtmlDomNode)) :
  writeBackNode (Node k d ch) outs
  = if checkPartialGroup (Node k d ch) then
      let '(ch', outs') := threadMap writeBackNode ch outs in
      ([Node k d ch'], outs')
    else if isSpace (Node k d ch) then ([Node k d ch], outs)
    else match outs with
         | (n', after) :: outs' => (n' :: optList after, outs')
         | [] => ([Node k d ch], [])
         end.
Proof. reflexivity. Qed.

Lemma threadMap_cons {A B S} (f : A -> S -> list B * S) (a : A) (l : list A)
  (s : S) :
  threadMap f (a :: l) s
  = let '(bs, s1) := f a s in
    let '(rest', s2) := threadMap f l s1 in
    (bs ++ rest', s2).
Proof. reflexivity. Qed.

Lemma threadMap_app {A B S} (f : A -> S -> list B * S) (l1 l2 : list A) (s : S) :
  threadMap f (l1 ++ l2) s
  = let '(x, s1) := threadMap f l1 s in
    let '(y, s2) := threadMap f l2 s1 in
    (x ++ y, s2).
Proof.
  revert s. induction l1 as [|a rest IH]; intros s.
  - simpl. destruct (threadMap f l2 s). reflexivity.
  - rewrite <- app_comm_cons, !threadMap_cons.
    destruct (f a s) as [bs s1]. rewrite IH.
    destruct (threadMap f rest s1) as [x s2].
    destruct (threadMap f l2 s2) as [y s3]. rewrite app_assoc. reflexivity.
Qed.

Lemma visited_one (n : HtmlDomNode) : visited [n] = visitedOf n.
Proof. unfold visited. simpl. apply app_nil_r. Qed.

Lemma visited_cons (n : HtmlDomNode) (l : list HtmlDomNode) :
  visited (n :: l) = visitedOf n ++ visited l.
Proof. reflexivity. Qed.

Lemma visited_app (l1 l2 : list HtmlDomNode) :
  visited (l1 ++ l2) = visited l1 ++ visited l2.
Proof. apply flat_map_app. Qed.

(** An entry that can be written back without changing which nodes are
    visited: the node is visited, the node inserted after it is not. *)
Definition keepsVisits (p : HtmlDomNode * option HtmlDomNode) : Prop :=
  visitedOf (fst p) = [fst p] /\ visited (optList (snd p)) = [].

Definition writeBackOK (n : HtmlDomNode) : Prop :=
  forall s t,
    length s = length (visitedOf n) -> Forall keepsVisits s ->
    writeBackNode n (s ++ t) = (fst (writeBackNode n s), t) /\
    visited (fst (writeBackNode n s)) = map fst s.

Lemma threadMap_writeBack (ch : list HtmlDomNode) :
  Forall writeBackOK ch ->
  forall s t,
    length s = length (visited ch) -> Forall keepsVisits s ->
    threadMap writeBackNode ch (s ++ t) = (writeBack ch s, t) /\
    visited (writeBack ch s) = map fst s.
Proof.
  unfold writeBack.
  induction 1 as [|c rest Hc _ IH]; intros s t Hlen Hs.
  - destruct s; [|discriminate]. split; reflexivity.
  - rewrite visited_cons, length_app in Hlen.
    rewrite <- (firstn_skipn (length (visitedOf c)) s) in Hs |- *.
    apply Forall_app in Hs. destruct Hs as [Hs1 Hs2].
    set (s1 := firstn (length (visitedOf c)) s) in *.
    set (s2 := skipn (length (visitedOf c)) s) in *.
    assert (L1 : length s1 = length (visitedOf c)).
    { unfold s1. rewrite length_firstn. lia. }
    assert (L2 : length s2 = length (visited rest)).
    { unfold s2. rewrite length_skipn. lia. }
    rewrite <- app_assoc, !threadMap_cons.
    destruct (Hc s1 (s2 ++ t) L1 Hs1) as (E1 & V1).
    destruct (Hc s1 s2 L1 Hs1) as (E1' & _).
    rewrite E1, E1'.
    destruct (IH s2 t L2 Hs2) as (E2 & V2).
    destruct (IH s2 [] L2 Hs2) as (E2' & _). rewrite app_nil_r in E2'.
    rewrite E2, E2'. simpl. split; [reflexivity|].
    rewrite visited_app, V1, V2, map_app. reflexivity.
Qed.

Lemma writeBackNode_visited (n : HtmlDomNode) : writeBackOK n.
Proof.
  induction n as [k d ch IH] using HtmlDomNode_nested_ind.
  intros s t Hlen Hs. rewrite !writeBackNode_eq. rewrite visitedOf_eq in Hlen.
  destruct (checkPartialGroup (Node k d ch)) eqn:Hp.
  - destruct (threadMap_writeBack ch IH s t Hlen Hs) as (E & V).
    destruct (threadMap_writeBack ch IH s [] Hlen Hs) as (E' & _).
    rewrite app_nil_r in E'. rewrite E, E'.
    cbv beta iota delta [fst]. split; [reflexivity|].
    rewrite visited_one, visitedOf_eq.
    change (checkPartialGroup (Node k d (writeBack ch s)))
      with (checkPartialGroup (Node k d ch)).
    rewrite Hp. exact V.
  - destruct (isSpace (Node k d ch)) eqn:Hsp.
    + destruct s; [|discriminate]. cbv beta iota delta [fst app].
      split; [reflexivity|].
      rewrite visited_one, visitedOf_eq, Hp, Hsp. reflexivity.
    + destruct s as [|[x g] [|? ?]]; try discriminate.
      inversion Hs as [|? ? [Hx Hg] _]; subst.
      cbv beta iota delta [fst snd] in Hx, Hg.
      split; [reflexivity|].
      cbv beta iota delta [fst]. rewrite visited_cons, Hx, Hg. reflexivity.
Qed.

Lemma all_writeBackOK (nodes : list HtmlDomNode) : Forall writeBackOK nodes.
Proof. apply Forall_forall. intros n _. apply writeBackNode_visited. Qed.

Lemma writeBack_visited (nodes : list HtmlDomNode)
  (s : list (HtmlDomNode * option HtmlDomNode)) :
  length s = length (visited nodes) -> Forall keepsVisits s ->
  visited (writeBack nodes s) = map fst s.
Proof.
  intros Hlen Hs.
  apply (threadMap_writeBack nodes (all_writeBackOK nodes) s [] Hlen Hs).
Qed.

(** A node on which the callback is called. *)
Definition leafLike (n : HtmlDomNode) : Prop :=
  checkPartialGroup n = false /\ isSpace n = false.

Lemma leafLike_visitedOf (n : HtmlDomNode) : leafLike n -> visitedOf n = [n].
Proof.
  destruct n as [k d ch]. intros [Hp Hs]. rewrite visitedOf_eq, Hp, Hs.
  reflexivity.
Qed.

Lemma visited_leafLike (nodes : list HtmlDomNode) :
  Forall leafLike (visited nodes).
Proof.
  assert (G : forall n, Forall leafLike (visitedOf n)).
  { induction n as [k d ch IH] using HtmlDomNode_nested_ind.
    rewrite visitedOf_eq.
    destruct (checkPartialGroup (Node k d ch)) eqn:Hp.
    - clear Hp. unfold visited. induction IH as [|c rest Hc _ IHrest]; simpl.
      + constructor.
      + apply Forall_app. split; assumption.
    - destruct (isSpace (Node k d ch)) eqn:Hs; constructor;
        [split; assumption|constructor]. }
  induction nodes as [|n rest IH]; [constructor|].
  rewrite visited_cons. apply Forall_app. split; [apply G|exact IH].
Qed.

(** A callback that leaves visited nodes visited and inserts only nodes
    that are not visited. *)
Definition keepsShape (callback : Callback) : Prop :=
  forall node prev,
    let '(node', prev', result) := callback node prev in
    (leafLike node -> leafLike node') /\
    (leafLike prev -> leafLike prev') /\
    visited (optList result) = [].

Lemma runCallback_keeps (callback : Callback) :
  keepsShape callback ->
  forall nodes prev,
    Forall leafLike nodes -> leafLike prev ->
    let '(outs, last) := runCallback callback prev nodes in
    Forall keepsVisits outs /\ leafLike last /\ length outs = length nodes.
Proof.
  intros Hcb. induction nodes as [|n rest IH]; intros prev Hn Hprev; simpl.
  - auto.
  - inversion Hn as [|? ? Hn1 Hn2]; subst.
    specialize (Hcb n prev).
    destruct (callback n prev) as [[n' prev'] r].
    destruct Hcb as (H1 & H2 & H3).
    specialize (IH n' Hn2 (H1 Hn1)).
    destruct (runCallback callback n' rest) as [outs last].
    destruct IH as (I1 & I2 & I3). split; [|split; [exact I2|simpl; lia]].
    constructor; [|exact I1]. split; [|exact H3].
    apply leafLike_visitedOf. simpl. auto.
Qed.

Lemma runCallback_keeps_tl (callback : Callback) :
  keepsShape callback ->
  forall nodes prev next,
    Forall leafLike nodes -> leafLike next ->
    let '(outs, last) := runCallback callback prev (nodes ++ [next]) in
    exists prev' result outs',
      outs = (prev', result) :: outs' /\
      visited (optList result) = [] /\
      Forall keepsVisits outs' /\ leafLike last /\
      length outs' = length nodes.
Proof.
  intros Hcb nodes prev next Hn Hnext.
  assert (Hall : Forall leafLike (nodes ++ [next])).
  { apply Forall_app. split; [exact Hn|constructor; [exact Hnext|constructor]]. }
  destruct (nodes ++ [next]) as [|n rest] eqn:E.
  { destruct nodes; discriminate. }
  simpl. inversion Hall as [|? ? Hn1 Hn2]; subst.
  pose proof (Hcb n prev) as Hc.
  destruct (callback n prev) as [[n' prev'] r]. destruct Hc as (H1 & _ & H3).
  pose proof (runCallback_keeps callback Hcb rest n' Hn2 (H1 Hn1)) as Hr.
  destruct (runCallback callback n' rest) as [outs last].
  destruct Hr as (I1 & I2 & I3).
  exists prev', r, outs.
  split; [reflexivity|]. split; [exact H3|].
  split; [exact I1|]. split; [exact I2|].
  assert (L : length (nodes ++ [next]) = length (n :: rest)) by (rewrite E; reflexivity).
  rewrite length_app in L. simpl in L. lia.
Qed.

Lemma frontOf_eq (result : HtmlDomNode) (k : Kind) (d : NodeData)
  (ch : list HtmlDomNode) :
  frontOf result (Node k d ch)
  = if checkPartialGroup (Node k d ch) then
      match unshiftWith (frontOf result) result ch with
      | Some ch' => Inside (Node k d ch')
      | None => NoVisit
      end
    else if isSpace (Node k d ch) then NoVisit else Here.
Proof. reflexivity. Qed.

Lemma frontOf_leafLike (result n : HtmlDomNode) :
  leafLike n -> frontOf result n = Here.
Proof.
  destruct n as [k d ch]. intros [Hp Hs]. rewrite frontOf_eq, Hp, Hs.
  reflexivity.
Qed.

Lemma unshiftScan_snoc (f : HtmlDomNode -> Front) (x : list HtmlDomNode)
  (last : HtmlDomNode) :
  f last = Here ->
  unshiftScan f (x ++ [last])
  = match unshiftScan f x with
    | Some (b, z) => Some (b, z ++ [last])
    | None => Some (true, x ++ [last])
    end.
Proof.
  intros Hl. induction x as [|e rest IH]; simpl.
  - rewrite Hl. reflexivity.
  - destruct (f e); [|reflexivity|reflexivity].
    rewrite IH. destruct (unshiftScan f rest) as [[b z]|]; reflexivity.
Qed.

(** The array after [nodes.unshift(result)] in the invocation that makes
    the first call, when that call returns [result]. *)
Definition placeFront (result : option HtmlDomNode) (x : list HtmlDomNode)
  : list HtmlDomNode :=
  match result with
  | Some g =>
      match unshiftWith (frontOf g) g x with
      | Some z => z
      | None => g :: x
      end
  | None => x
  end.

Lemma traverse_eq (nodes : list HtmlDomNode) (callback : Callback)
  (prev next : HtmlDomNode) :
  keepsShape callback -> leafLike next ->
  exists prev' result outs last,
    runCallback callback prev (visited nodes ++ [next])
    = ((prev', result) :: outs, last) /\
    visited (optList result) = [] /\
    Forall keepsVisits outs /\ leafLike last /\
    length outs = length (visited nodes) /\
    traverseNonSpaceNodes nodes callback prev next
    = (placeFront result (writeBack nodes outs), prev', last).
Proof.
  intros Hcb Hnext. unfold traverseNonSpaceNodes.
  rewrite visited_app, visited_one, (leafLike_visitedOf next Hnext).
  pose proof (runCallback_keeps_tl callback Hcb (visited nodes) prev next
                (visited_leafLike nodes) Hnext) as Hr.
  destruct (runCallback callback prev (visited nodes ++ [next])) as [outs0 last].
  destruct Hr as (prev' & result & outs & -> & Hres & Hk & Hl & Hlen).
  exists prev', result, outs, last.
  split; [reflexivity|]. split; [exact Hres|].
  split; [exact Hk|]. split; [exact Hl|].
  split; [exact Hlen|].
  assert (W : writeBack (nodes ++ [next]) (outs ++ [(last, None)])
              = writeBack nodes outs ++ [last]).
  { unfold writeBack at 1. rewrite threadMap_app.
    destruct (threadMap_writeBack nodes (all_writeBackOK nodes) outs
                [(last, None)] Hlen Hk) as (E & _).
    rewrite E. rewrite threadMap_cons. destruct next as [k d ch].
    rewrite writeBackNode_eq. destruct Hnext as [Hp Hs]. rewrite Hp, Hs.
    reflexivity. }
  rewrite W. f_equal. f_equal.
  destruct result as [g|]; simpl.
  - unfold unshiftWith.
    rewrite (unshiftScan_snoc _ _ _ (frontOf_leafLike g last Hl)).
    destruct (unshiftScan (frontOf g) (writeBack nodes outs)) as [[[|] z]|].
    + rewrite app_comm_cons. apply removelast_last.
    + apply removelast_last.
    + rewrite app_comm_cons. apply removelast_last.
  - apply removelast_last.
Qed.


(** ** The bin-cancellation pass *)

(** A pair of neighbours in which no [mbin] remains to be cancelled. *)
Definition okPair (p n : HtmlDomNode) : Prop :=
  ~ (isStr (class0 n) "mbin" = true /\ contains binLeftCanceller (class0 p) = true) /\
  ~ (isStr (class0 p) "mbin" = true /\ contains binRightCanceller (class0 n) = true).

(** What the pass may do to a node: nothing, or rewrite [mbin] to [mord]. *)
Definition rewritten (orig new : HtmlDomNode) : Prop :=
  new = orig \/ (isStr (class0 orig) "mbin" = true /\ new = setClass0 "mord" orig).

Lemma class0_setClass0 (c : string) (n : HtmlDomNode) :
  class0 (setClass0 c n) = Some c.
Proof. destruct n as [k d ch]. reflexivity. Qed.

Lemma isStr_eq (x : option string) (c : string) :
  isStr x c = true -> x = Some c.
Proof.
  destruct x as [s|]; simpl; [|discriminate].
  intros H. apply String.eqb_eq in H. congruence.
Qed.

Lemma leafLike_setClass0_mord (n : HtmlDomNode) :
  leafLike n -> leafLike (setClass0 "mord" n).
Proof. destruct n as [k d ch]. intros [Hp _]. split; [exact Hp|reflexivity]. Qed.

Lemma cancelBin_keepsShape : keepsShape cancelBin.
Proof.
  intros node prev. unfold cancelBin.
  destruct (isStr (class0 prev) "mbin" && contains binRightCanceller (class0 node)).
  - split; [|split]; try reflexivity; intros;
      auto using leafLike_setClass0_mord.
  - destruct (isStr (class0 node) "mbin" && contains binLeftCanceller (class0 prev));
      (split; [|split]); try reflexivity; intros;
      auto using leafLike_setClass0_mord.
Qed.

Ltac pair_cases Hc :=
  let H1 := fresh "H1" in
  let H2 := fresh "H2" in
  unfold okPair; rewrite ?class0_setClass0;
  split; intros [H1 H2];
  first [ discriminate
        | congruence
        | rewrite H1, H2 in Hc; discriminate
        | apply isStr_eq in H1; rewrite H1 in *; discriminate ].

Lemma cancelBin_step (node prev : HtmlDomNode) :
  let '(node', prev', result) := cancelBin node prev in
  result = None /\ rewritten node node' /\ rewritten prev prev' /\
  (prev' = prev \/ contains binRightCanceller (class0 node) = true) /\
  (forall g, rewritten node' g -> okPair prev' g).
Proof.
  unfold cancelBin.
  destruct (isStr (class0 prev) "mbin" && contains binRightCanceller (class0 node))
    eqn:Ha.
  - (* prev is a bin, node a right canceller *)
    apply andb_true_iff in Ha. destruct Ha as [Hpb Hnr].
    split; [reflexivity|]. split; [left; reflexivity|].
    split; [right; auto|]. split; [right; exact Hnr|].
    intros g [->|[Hb ->]]; pair_cases Hnr.
  - destruct (isStr (class0 node) "mbin" && contains binLeftCanceller (class0 prev))
      eqn:Hc.
    + (* node is a bin, prev a left canceller *)
      apply andb_true_iff in Hc. destruct Hc as [Hnb Hpl].
      split; [reflexivity|]. split; [right; auto|].
      split; [left; reflexivity|]. split; [left; reflexivity|].
      intros g [->|[Hb ->]]; pair_cases Hpl.
    + split; [reflexivity|]. split; [left; reflexivity|].
      split; [left; reflexivity|]. split; [left; reflexivity|].
      intros g [->|[Hb ->]].
      * unfold okPair. split; intros [H1 H2].
        -- rewrite H1, H2 in Hc. discriminate.
        -- rewrite H1, H2 in Ha. discriminate.
      * pair_cases Hc.
Qed.

Lemma rewritten_trans (a b c : HtmlDomNode) :
  rewritten a b -> rewritten b c -> rewritten a c.
Proof.
  intros [->|[Ha ->]] [->|[Hb ->]].
  - left; reflexivity.
  - right; auto.
  - right; auto.
  - rewrite class0_setClass0 in Hb. discriminate.
Qed.

(** The sequence of final states after the calls of the cancellation
    callback: the first previous node, the visited nodes, and the last. *)
Lemma runCallback_cancelBin (nodes : list HtmlDomNode) :
  forall prev,
    let '(outs, last) := runCallback cancelBin prev nodes in
    let F := map fst outs ++ [last] in
    Forall2 rewritten (prev :: nodes) F /\
    (forall l1 p n l2, F = l1 ++ p :: n :: l2 -> okPair p n) /\
    (hd prev F = prev \/
     exists n1 rest,
       nodes = n1 :: rest /\ contains binRightCanceller (class0 n1) = true) /\
    Forall (fun o => snd o = None) outs.
Proof.
  induction nodes as [|n1 rest IH]; intros prev; simpl.
  - split; [constructor; [left; reflexivity|constructor]|].
    split; [|split; [left; reflexivity|constructor]].
    intros [|? [|? ?]] p n l2 H; discriminate.
  - pose proof (cancelBin_step n1 prev) as Hstep.
    destruct (cancelBin n1 prev) as [[n1' prev'] r].
    destruct Hstep as (-> & Hn & Hp & Hhd & Hok).
    specialize (IH n1').
    destruct (runCallback cancelBin n1' rest) as [outs last].
    simpl in *. destruct IH as (IH1 & IH2 & _ & IH4).
    inversion IH1 as [|? g0 ? G Hg HG Heq1 Heq2]; subst.
    rewrite <- Heq2 in *.
    split; [|split; [|split]].
    + constructor; [exact Hp|]. constructor; [|exact HG].
      eapply rewritten_trans; eauto.
    + intros [|x l1] p n l2 H; simpl in H.
      * injection H as <- <- <-. apply Hok. exact Hg.
      * injection H as _ H. eapply IH2. exact H.
    + destruct Hhd as [->|Hr]; [left; reflexivity|right; eauto].
    + constructor; [reflexivity|exact IH4].
Qed.

(** Both callbacks leave the nodes in place; the spacing callback does not
    touch them. *)
Lemma runCallback_insertGlue (glueOptions : Options) (nodes : list HtmlDomNode) :
  forall prev,
    let '(outs, last) := runCallback (insertGlue glueOptions) prev nodes in
    map fst outs ++ [last] = prev :: nodes.
Proof.
  induction nodes as [|n rest IH]; intros prev; simpl; [reflexivity|].
  assert (E : exists r, insertGlue glueOptions n prev = (n, prev, r)).
  { unfold insertGlue. destruct (spacingFor n prev); eauto. }
  destruct E as [r ->]. specialize (IH n).
  destruct (runCallback (insertGlue glueOptions) n rest) as [outs last].
  simpl. rewrite IH. reflexivity.
Qed.

Lemma unshiftWith_visited (g : HtmlDomNode) (f : HtmlDomNode -> Front)
  (x z : list HtmlDomNode) :
  visitedOf g = [] ->
  Forall (fun e => forall e', f e = Inside e' -> visitedOf e' = visitedOf e) x ->
  unshiftWith f g x = Some z -> visited z = visited x.
Proof.
  intros Hg Hx. unfold unshiftWith.
  assert (S : forall b y, unshiftScan f x = Some (b, y) -> visited y = visited x).
  { induction Hx as [|e rest He _ IH]; intros b y; simpl; [discriminate|].
    destruct (f e) as [| |e'] eqn:Hf.
    - destruct (unshiftScan f rest) as [[b' rest']|]; [|discriminate].
      intros H. injection H as <- <-. rewrite !visited_cons.
      f_equal. eapply IH. reflexivity.
    - intros H. injection H as <- <-. reflexivity.
    - intros H. injection H as <- <-. rewrite !visited_cons.
      f_equal. apply He. reflexivity. }
  destruct (unshiftScan f x) as [[[|] y]|]; [| |discriminate];
    intros H; injection H as <-.
  - rewrite visited_cons, Hg. simpl. eapply S. reflexivity.
  - eapply S. reflexivity.
Qed.

Lemma frontOf_visited (g : HtmlDomNode) :
  visitedOf g = [] ->
  forall n n', frontOf g n = Inside n' -> visitedOf n' = visitedOf n.
Proof.
  intros Hg. induction n as [k d ch IH] using HtmlDomNode_nested_ind.
  intros n'. rewrite frontOf_eq.
  destruct (checkPartialGroup (Node k d ch)) eqn:Hp.
  - destruct (unshiftWith (frontOf g) g ch) as [ch'|] eqn:Hu; [|discriminate].
    intros H. injection H as <-. rewrite !visitedOf_eq.
    change (checkPartialGroup (Node k d ch')) with (checkPartialGroup (Node k d ch)).
    rewrite Hp. eapply unshiftWith_visited; eauto.
  - destruct (isSpace (Node k d ch)); discriminate.
Qed.

Lemma placeFront_visited (result : option HtmlDomNode) (x : list HtmlDomNode) :
  visited (optList result) = [] ->
  visited (placeFront result x) = visited x.
Proof.
  destruct result as [g|]; [|reflexivity].
  intros Hg. change (visited [g] = []) in Hg. rewrite visited_one in Hg.
  unfold placeFront.
  destruct (unshiftWith (frontOf g) g x) as [z|] eqn:Hu.
  - eapply unshiftWith_visited; eauto.
    apply Forall_forall. intros e _. apply frontOf_visited. exact Hg.
  - rewrite visited_cons, Hg. reflexivity.
Qed.


Lemma class0_makeSpan (c : string) (ch : list HtmlDomNode)
  (options : option Options) :
  class0 (makeSpan [c] ch options) = Some c /\
  checkPartialGroup (makeSpan [c] ch options) = false.
Proof.
  unfold makeSpan.
  destruct (sized_fields (newSpan [c] ch options [])) as (Hk & _ & Hc & _).
  unfold class0, checkPartialGroup. rewrite Hk, Hc. simpl.
  destruct options as [o|]; simpl; [destruct (isTight o)|]; auto.
Qed.

(** A dummy span is itself a node the traversal visits. *)
Lemma leafLike_dummy (s : option DomType) (d : string) (options : Options) :
  String.eqb d "mspace" = false ->
  leafLike (makeSpan [orElse s d] [] (Some options)).
Proof.
  intros Hd.
  destruct (class0_makeSpan (orElse s d) [] (Some options)) as [Hc Hp].
  split; [exact Hp|]. unfold isSpace. rewrite Hc.
  destruct s as [[]|]; simpl; auto.
Qed.

(** ** Errors of the builders *)

Lemma ParseNode_nested_ind (P : ParseNode -> Prop) :
  (forall m c body, Forall P body -> P (PColor m c body)) ->
  (forall m h body, Forall P body -> P (PHref m h body)) ->
  (forall m body l r,
      (forall b, body = Some b -> Forall P b) -> P (PLeftright m body l r)) ->
  (forall m d, P (PMiddle m d)) ->
  (forall m sz body, P (PSizing m sz body)) ->
  (forall m st body, P (PStyling m st body)) ->
  (forall m body tag, P (PTag m body tag)) ->
  (forall t m x, P (PLeaf t m x)) ->
  forall n, P n.
Proof.
  intros Hc Hh Hl Hm Hs Hst Ht Hlf. fix IH 1.
  intros [m c body|m h body|m body l r|m d|m sz body|m st body|m body tag|t m x].
  - apply Hc. induction body as [|x rest IHl]; constructor;
      [apply IH|exact IHl].
  - apply Hh. induction body as [|x rest IHl]; constructor;
      [apply IH|exact IHl].
  - apply Hl. destruct body as [b0|]; intros b Hb; [|discriminate].
    injection Hb as <-. induction b0 as [|x rest IHl]; constructor;
      [apply IH|exact IHl].
  - apply Hm.
  - apply Hs.
  - apply Hst.
  - apply Ht.
  - apply Hlf.
Qed.

(** The errors a builder can end in: the [ParseError] of an unknown group
    type, the [Error] of an unparsed [leftright], or an error thrown by a
    builder of the registry. *)
Definition builderError (e : JsError) : Prop :=
  (exists t, e = unknownType t) \/
  e = Error ParseTree.notFullyParsed \/
  (exists t builder g o, groupBuilders t = Some builder /\ builder g o = inl e).

Lemma buildGroups_cons (build : ParseNode -> Options -> Result HtmlDomNode)
  (options : Options) (e : ParseNode) (rest : list ParseNode) :
  buildGroups build options (e :: rest)
  = (output <- build e options ;;
     groups <- buildGroups build options rest ;;
     ok (pushOutput output ++ groups)).
Proof. reflexivity. Qed.

Lemma buildGroups_errors (body : list ParseNode) :
  Forall (fun g => forall o e, htmlBuilder g o = inl e -> builderError e) body ->
  forall o e, buildGroups htmlBuilder o body = inl e -> builderError e.
Proof.
  induction 1 as [|g rest Hg _ IH]; intros o e; [discriminate|].
  rewrite buildGroups_cons. unfold bind.
  destruct (htmlBuilder g o) as [e1|out] eqn:E1.
  - intros H. injection H as <-. eapply Hg. exact E1.
  - destruct (buildGroups htmlBuilder o rest) as [e2|groups] eqn:E2;
      [|discriminate].
    intros H. injection H as <-. eapply IH. exact E2.
Qed.

Lemma htmlBuilder_errors (group : ParseNode) :
  forall options e, htmlBuilder group options = inl e -> builderError e.
Proof.
  induction group using ParseNode_nested_ind; intros options e.
  - change (htmlBuilder (PColor m c body) options)
      with (elements <- buildGroups htmlBuilder (withColor c options) body ;;
            ok (makeFragment elements)).
    unfold bind.
    destruct (buildGroups htmlBuilder (withColor c options) body) eqn:E;
      [|discriminate].
    intros Hq. injection Hq as <-. eapply buildGroups_errors; eauto.
  - change (htmlBuilder (PHref m h body) options)
      with (elements <- buildGroups htmlBuilder options body ;;
            ok (makeAnchor h [] elements options)).
    unfold bind.
    destruct (buildGroups htmlBuilder options body) eqn:E; [|discriminate].
    intros Hq. injection Hq as <-. eapply buildGroups_errors; eauto.
  - destruct body as [b|].
    + change (htmlBuilder (PLeftright m (Some b) l r) options)
        with (groups <- buildGroups htmlBuilder options b ;;
              ok (leftrightAssemble m l r options
                    (realGroup b options (Some mopen, Some mclose) groups))).
      unfold bind.
      destruct (buildGroups htmlBuilder options b) eqn:E; [|discriminate].
      intros Hq. injection Hq as <-.
      eapply buildGroups_errors; [apply (H b eq_refl)|exact E].
    + intros Hq. injection Hq as <-. right. left. reflexivity.
  - discriminate.
  - simpl. destruct (groupBuilders "sizing") as [b|] eqn:E; intros Hq.
    + right. right. eauto 6.
    + injection Hq as <-. left. eauto.
  - simpl. destruct (groupBuilders "styling") as [b|] eqn:E; intros Hq.
    + right. right. eauto 6.
    + injection Hq as <-. left. eauto.
  - simpl. destruct (groupBuilders "tag") as [b|] eqn:E; intros Hq.
    + right. right. eauto 6.
    + injection Hq as <-. left. eauto.
  - simpl. destruct (groupBuilders t) as [b|] eqn:E; intros Hq.
    + right. right. eauto 6.
    + injection Hq as <-. left. eauto.
Qed.

(** X1. Whatever the tree, an error of [buildHTML] (and so of
    [buildExpression] and [buildGroup] below it) is the [ParseError]
    "Got group of unknown type", the [Error] of an unparsed [leftright], or
    an error thrown by a registered builder; a [leftright] with a body
    never raises the [Error] itself. *)
Theorem buildHTML_errors (tree : list ParseNode) (options : Options)
  (e : JsError) :
  buildHTML tree options = inl e -> builderError e.
Proof.
  assert (B : forall l o r s err,
             buildExpression l o r s = inl err -> builderError err).
  { intros l o r s err. rewrite buildExpression_groups. unfold bind.
    destruct (buildGroups htmlBuilder o l) eqn:E; simpl; [|discriminate].
    intros Hq. injection Hq as <-.
    eapply buildGroups_errors; [|exact E].
    apply Forall_forall. intros g _. apply htmlBuilder_errors. }
  unfold buildHTML.
  destruct (match tree with
            | [PTag _ body tag] => (Some tag, body)
            | _ => (None, tree)
            end) as [tag tree'].
  destruct (buildExpression tree' options true (None, None)) eqn:E1; simpl.
  - intros Hq. injection Hq as <-. eapply B. exact E1.
  - destruct tag as [tag|]; [|discriminate].
    destruct (buildExpression tag options true (None, None)) eqn:E2; simpl.
    + intros Hq. injection Hq as <-. eapply B. exact E2.
    + unfold makeSpan, newSpan, sized. simpl.
      destruct (sizeElementFromChildren _) as [[h dp] m]. discriminate.
Qed.

Lemma buildGroups_app (build : ParseNode -> Options -> Result HtmlDomNode)
  (options : Options) (l1 l2 : list ParseNode) :
  buildGroups build options (l1 ++ l2)
  = (x <- buildGroups build options l1 ;;
     y <- buildGroups build options l2 ;;
     ok (x ++ y)).
Proof.
  induction l1 as [|e rest IH].
  - simpl. unfold bind. destruct (buildGroups build options l2); reflexivity.
  - rewrite <- app_comm_cons, !buildGroups_cons, IH. unfold bind, ok.
    destruct (build e options); [reflexivity|].
    destruct (buildGroups build options rest); [reflexivity|].
    destruct (buildGroups build options l2); [reflexivity|].
    rewrite app_assoc. reflexivity.
Qed.

(** X2. Partial groups compose: building the concatenation of two lists
    with [isRealGroup = false] gives the concatenation of the two results,
    and fails with the error of the first list when both fail. *)
Theorem buildExpression_partial_app (l1 l2 : list ParseNode)
  (options : Options) (s s1 s2 : option DomType * option DomType) :
  buildExpression (l1 ++ l2) options false s
  = (x <- buildExpression l1 options false s1 ;;
     y <- buildExpression l2 options false s2 ;;
     ok (x ++ y)).
Proof.
  rewrite !buildExpression_groups, buildGroups_app. unfold bind, ok.
  destruct (buildGroups htmlBuilder options l1); [reflexivity|].
  destruct (buildGroups htmlBuilder options l2); reflexivity.
Qed.


Section GlueIsSpace.

(** The glue made by [makeGlue] is an [mspace] span. *)
Hypothesis glue_is_space :
  forall space o,
    isSpace (makeGlue space o) = true /\
    checkPartialGroup (makeGlue space o) = false.

Lemma visitedOf_glue (space : Measurement) (o : Options) :
  visitedOf (makeGlue space o) = [].
Proof.
  destruct (glue_is_space space o) as [Hs Hp].
  destruct (makeGlue space o) as [k d ch].
  rewrite visitedOf_eq, Hp, Hs. reflexivity.
Qed.

Lemma insertGlue_keepsShape (glueOptions : Options) :
  keepsShape (insertGlue glueOptions).
Proof.
  intros node prev. unfold insertGlue.
  destruct (spacingFor node prev) as [space|]; (split; [|split]); auto.
  change (visited [makeGlue space glueOptions] = []).
  rewrite visited_one. apply visitedOf_glue.
Qed.

(** The visited nodes of a finished real group are the final states of the
    cancellation pass. *)
Lemma realGroup_visited (expression : list ParseNode) (options : Options)
  (surrounding : option DomType * option DomType)
  (groups : list HtmlDomNode) :
  let dummyPrev := makeSpan [orElse (fst surrounding) "leftmost"] [] (Some options) in
  let dummyNext := makeSpan [orElse (snd surrounding) "rightmost"] [] (Some options) in
  exists prev' result outs last,
    runCallback cancelBin dummyPrev (visited groups ++ [dummyNext])
    = ((prev', result) :: outs, last) /\
    visited (realGroup expression options surrounding groups) = map fst outs.
Proof.
  intros dummyPrev dummyNext. unfold realGroup, binCancellation, spacingPass.
  fold dummyPrev dummyNext.
  destruct (traverse_eq groups cancelBin dummyPrev dummyNext cancelBin_keepsShape
              (leafLike_dummy _ "rightmost" options eq_refl))
    as (prev' & r & outs & last & Hrun & Hr & Hk & Hl & Hlen & ->).
  exists prev', r, outs, last. split; [exact Hrun|].
  set (groups1 := placeFront r (writeBack groups outs)).
  assert (V1 : visited groups1 = map fst outs).
  { unfold groups1. rewrite placeFront_visited by exact Hr.
    apply writeBack_visited; assumption. }
  destruct (traverse_eq groups1 (insertGlue (glueOptionsOf expression options))
              prev' last (insertGlue_keepsShape _) Hl)
    as (prev2 & r2 & outs2 & last2 & Hrun2 & Hr2 & Hk2 & Hl2 & Hlen2 & ->).
  rewrite placeFront_visited by exact Hr2.
  rewrite writeBack_visited by assumption.
  pose proof (runCallback_insertGlue (glueOptionsOf expression options)
                (visited groups1 ++ [last]) prev') as Hi.
  rewrite Hrun2 in Hi. simpl in Hi. injection Hi as _ Hi.
  apply app_inj_tail in Hi. destruct Hi as [Hi _]. rewrite Hi. exact V1.
Qed.

(** C1. After [buildExpression(list, options, true, surrounding)], among
    the nodes that the traversal visits (fragments and anchors descended
    into, [mspace] nodes skipped) no node of first class [mbin] is preceded
    by a left canceller or followed by a right canceller, the two sentinels
    [surrounding[0] || "leftmost"] and [surrounding[1] || "rightmost"]
    included; the visited nodes are those of the built list, unchanged or
    with their first class rewritten from [mbin] to [mord]. *)
Theorem bin_cancellation (expression : list ParseNode) (options : Options)
  (surrounding : option DomType * option DomType)
  (result : list HtmlDomNode) :
  buildExpression expression options true surrounding = inr result ->
  let leftmost := orElse (fst surrounding) "leftmost" in
  let rightmost := orElse (snd surrounding) "rightmost" in
  (forall l1 p n l2, visited result = l1 ++ p :: n :: l2 -> okPair p n) /\
  (forall n rest,
      visited result = n :: rest ->
      ~ (isStr (class0 n) "mbin" = true /\
         contains binLeftCanceller (Some leftmost) = true)) /\
  (forall l n,
      visited result = l ++ [n] ->
      ~ (isStr (class0 n) "mbin" = true /\
         contains binRightCanceller (Some rightmost) = true)) /\
  (exists groups,
      buildExpression expression options false surrounding = inr groups /\
      Forall2 rewritten (visited groups) (visited result)).
Proof.
  rewrite !buildExpression_groups.
  destruct (buildGroups htmlBuilder options expression) as [e|groups];
    [discriminate|].
  simpl. intros H. injection H as <-.
  destruct (realGroup_visited expression options surrounding groups)
    as (prev' & r & outs & last & Hrun & HV).
  rewrite HV.
  pose proof (runCallback_cancelBin
                (visited groups
                 ++ [makeSpan [orElse (snd surrounding) "rightmost"] [] (Some options)])
                (makeSpan [orElse (fst surrounding) "leftmost"] [] (Some options)))
    as Hc.
  rewrite Hrun in Hc. simpl in Hc. destruct Hc as (HF & Hpairs & Hhd & _).
  inversion HF as [|dp f0 ? F Hdp HF' E1 E2]; subst.
  apply Forall2_app_inv_l in HF'.
  destruct HF' as (B & Z & HB & HZ & EF).
  inversion HZ as [|dn z ? ? Hdn HZ' E3 E4]; subst. inversion HZ'; subst.
  apply app_inj_tail in EF. destruct EF as [<- <-].
  destruct (class0_makeSpan (orElse (fst surrounding) "leftmost") [] (Some options))
    as [HcL _].
  destruct (class0_makeSpan (orElse (snd surrounding) "rightmost") [] (Some options))
    as [HcR _].
  split; [|split; [|split]].
  - intros l1 p n l2 E. apply (Hpairs (prev' :: l1) p n (l2 ++ [last])).
    rewrite E. simpl. rewrite <- app_assoc. reflexivity.
  - intros n rest E [Hn HL].
    destruct (Hpairs [] prev' n (rest ++ [last])) as [Hok _].
    { rewrite E. reflexivity. }
    destruct Hhd as [->|(n1 & rest1 & E1 & Hn1)].
    + apply Hok. rewrite HcL. auto.
    + rewrite E in HB. destruct (visited groups) as [|g gs].
      * inversion HB.
      * simpl in E1. injection E1 as <- _.
        inversion HB as [|? ? ? ? Hg _]; subst.
        destruct Hg as [->|[_ ->]].
        -- apply isStr_eq in Hn. rewrite Hn in Hn1. discriminate.
        -- rewrite class0_setClass0 in Hn. discriminate.
  - intros l n E [Hn HR].
    destruct (Hpairs (prev' :: l) n last []) as [_ Hok].
    { rewrite E. simpl. rewrite <- app_assoc. reflexivity. }
    destruct Hdn as [->|[Hb ->]].
    + apply Hok. rewrite HcR. auto.
    + rewrite HcR in Hb. apply isStr_eq in Hb. injection Hb as Hb.
      rewrite Hb in HR. discriminate.
  - exists groups. split; [reflexivity|exact HB].
Qed.


(** ** The spacing pass *)

(** All nodes of a list in document order, partial groups descended into,
    spaces included. *)
Fixpoint walkOf (n : HtmlDomNode) : list HtmlDomNode :=
  match n with
  | Node k d ch => if checkPartialGroup n then flat_map walkOf ch else [n]
  end.

Definition walk (nodes : list HtmlDomNode) : list HtmlDomNode :=
  flat_map walkOf nodes.

(** The spaces a flat list starts with, and what follows them. *)
Fixpoint leadingSpaces (l : list HtmlDomNode) : list HtmlDomNode :=
  match l with
  | x :: rest => if isSpace x then x :: leadingSpaces rest else []
  | [] => []
  end.

Fixpoint afterSpaces (l : list HtmlDomNode) : list HtmlDomNode :=
  match l with
  | x :: rest => if isSpace x then afterSpaces rest else l
  | [] => []
  end.

(** The next non-space node of a flat list, or [next]. *)
Definition nextVisited (l : list HtmlDomNode) (next : HtmlDomNode)
  : HtmlDomNode :=
  hd next (afterSpaces l).

(** The glue that the spacing callback returns for [prev] and [node]. *)
Definition glueResult (glueOptions : Options) (prev node : HtmlDomNode)
  : option HtmlDomNode :=
  option_map (fun space => makeGlue space glueOptions) (spacingFor node prev).

Definition glueBetween (glueOptions : Options) (prev node : HtmlDomNode)
  : list HtmlDomNode :=
  optList (glueResult glueOptions prev node).

(** A flat list with the glue between each non-space node and the next
    non-space node placed right after the former. *)
Fixpoint spaced (glueOptions : Options) (l : list HtmlDomNode)
  (next : HtmlDomNode) : list HtmlDomNode :=
  match l with
  | [] => []
  | x :: rest =>
      if isSpace x then x :: spaced glueOptions rest next
      else x :: glueBetween glueOptions x (nextVisited rest next)
             ++ spaced glueOptions rest next
  end.

(** The outcome of the spacing callback along the visited nodes. *)
Fixpoint glueStream (glueOptions : Options) (atoms : list HtmlDomNode)
  (next : HtmlDomNode) : list (HtmlDomNode * option HtmlDomNode) :=
  match atoms with
  | [] => []
  | a :: rest =>
      (a, glueResult glueOptions a (hd next rest))
        :: glueStream glueOptions rest next
  end.

Lemma insertGlue_eq (glueOptions : Options) (node prev : HtmlDomNode) :
  insertGlue glueOptions node prev
  = (node, prev, glueResult glueOptions prev node).
Proof.
  unfold insertGlue, glueResult. destruct (spacingFor node prev); reflexivity.
Qed.

Lemma runCallback_glueStream (glueOptions : Options) (atoms : list HtmlDomNode)
  (next : HtmlDomNode) :
  forall prev,
    runCallback (insertGlue glueOptions) prev (atoms ++ [next])
    = ((prev, glueResult glueOptions prev (hd next atoms))
         :: glueStream glueOptions atoms next, next).
Proof.
  induction atoms as [|a rest IH]; intros prev; simpl.
  - rewrite insertGlue_eq. reflexivity.
  - rewrite insertGlue_eq, IH. reflexivity.
Qed.

Lemma walkOf_eq (k : Kind) (d : NodeData) (ch : list HtmlDomNode) :
  walkOf (Node k d ch)
  = if checkPartialGroup (Node k d ch) then walk ch else [Node k d ch].
Proof. reflexivity. Qed.

Lemma walk_cons (n : HtmlDomNode) (l : list HtmlDomNode) :
  walk (n :: l) = walkOf n ++ walk l.
Proof. reflexivity. Qed.

Lemma walk_app (l1 l2 : list HtmlDomNode) :
  walk (l1 ++ l2) = walk l1 ++ walk l2.
Proof. apply flat_map_app. Qed.

Lemma walkOf_plain (n : HtmlDomNode) :
  checkPartialGroup n = false -> walkOf n = [n].
Proof. destruct n as [k d ch]. intros H. rewrite walkOf_eq, H. reflexivity. Qed.

Lemma leading_after (l : list HtmlDomNode) :
  l = leadingSpaces l ++ afterSpaces l.
Proof.
  induction l as [|x rest IH]; simpl; [reflexivity|].
  destruct (isSpace x); simpl; [f_equal; exact IH|reflexivity].
Qed.

Lemma afterSpaces_app (l1 l2 : list HtmlDomNode) :
  afterSpaces (l1 ++ l2)
  = match afterSpaces l1 with
    | [] => afterSpaces l2
    | r => r ++ l2
    end.
Proof.
  induction l1 as [|x rest IH]; simpl; [destruct (afterSpaces l2); reflexivity|].
  destruct (isSpace x); [exact IH|reflexivity].
Qed.

Lemma leadingSpaces_app (l1 l2 : list HtmlDomNode) :
  leadingSpaces (l1 ++ l2)
  = match afterSpaces l1 with
    | [] => l1 ++ leadingSpaces l2
    | _ => leadingSpaces l1
    end.
Proof.
  induction l1 as [|x rest IH]; simpl; [reflexivity|].
  destruct (isSpace x); [|reflexivity].
  rewrite IH. destruct (afterSpaces rest); reflexivity.
Qed.

(** The visited nodes are the non-space nodes of the walk. *)
Lemma afterSpaces_walk (nodes : list HtmlDomNode) (next : HtmlDomNode) :
  hd next (afterSpaces (walk nodes)) = hd next (visited nodes).
Proof.
  assert (G : forall n nx, hd nx (afterSpaces (walkOf n)) = hd nx (visitedOf n)).
  { induction n as [k d ch IH] using HtmlDomNode_nested_ind. intros nx.
    rewrite walkOf_eq, visitedOf_eq.
    destruct (checkPartialGroup (Node k d ch)) eqn:Hp.
    - clear Hp. revert nx.
      induction IH as [|c rest Hc _ IHrest]; intros nx; [reflexivity|].
      rewrite walk_cons, visited_cons, afterSpaces_app.
      specialize (Hc (hd nx (visited rest))).
      destruct (afterSpaces (walkOf c)) as [|a r];
        destruct (visitedOf c) as [|v vs]; simpl in *.
      + apply IHrest.
      + rewrite IHrest. exact Hc.
      + exact Hc.
      + exact Hc.
    - simpl. destruct (isSpace (Node k d ch)); reflexivity. }
  revert next. induction nodes as [|n rest IH]; intros next; [reflexivity|].
  rewrite walk_cons, visited_cons, afterSpaces_app.
  specialize (G n (hd next (visited rest))).
  destruct (afterSpaces (walkOf n)) as [|a r];
    destruct (visitedOf n) as [|v vs]; simpl in *.
  - apply IH.
  - rewrite IH. exact G.
  - exact G.
  - exact G.
Qed.

Lemma spaced_app (glueOptions : Options) (l1 l2 : list HtmlDomNode)
  (next : HtmlDomNode) :
  spaced glueOptions (l1 ++ l2) next
  = spaced glueOptions l1 (nextVisited l2 next) ++ spaced glueOptions l2 next.
Proof.
  induction l1 as [|x rest IH]; simpl; [reflexivity|].
  assert (N : nextVisited (rest ++ l2) next
              = nextVisited rest (nextVisited l2 next)).
  { unfold nextVisited. rewrite afterSpaces_app.
    destruct (afterSpaces rest); reflexivity. }
  destruct (isSpace x); rewrite IH; [reflexivity|].
  rewrite N. simpl. rewrite app_assoc. reflexivity.
Qed.


Lemma hd_app {A} (d : A) (l1 l2 : list A) :
  hd d (l1 ++ l2) = hd (hd d l2) l1.
Proof. destruct l1; reflexivity. Qed.

Lemma walk_glue (glueOptions : Options) (prev node : HtmlDomNode) :
  walk (optList (glueResult glueOptions prev node))
  = glueBetween glueOptions prev node.
Proof.
  unfold glueBetween, glueResult.
  destruct (spacingFor node prev) as [space|]; [|reflexivity].
  simpl. rewrite app_nil_r. apply walkOf_plain. apply glue_is_space.
Qed.

(** Writing the outcome of the spacing callback back into a node. *)
Definition spacedOK (glueOptions : Options) (n : HtmlDomNode) : Prop :=
  forall V next,
  exists out,
    writeBackNode n (glueStream glueOptions (visitedOf n ++ V) next)
    = (out, glueStream glueOptions V next) /\
    walk out = spaced glueOptions (walkOf n) (hd next V).

Lemma threadMap_spaced (glueOptions : Options) (ch : list HtmlDomNode) :
  Forall (spacedOK glueOptions) ch ->
  forall V next,
  exists out,
    threadMap writeBackNode ch (glueStream glueOptions (visited ch ++ V) next)
    = (out, glueStream glueOptions V next) /\
    walk out = spaced glueOptions (walk ch) (hd next V).
Proof.
  induction 1 as [|c rest Hc _ IH]; intros V next.
  - exists []. split; reflexivity.
  - rewrite visited_cons, <- app_assoc, threadMap_cons.
    destruct (Hc (visited rest ++ V) next) as (o1 & E1 & W1). rewrite E1.
    destruct (IH V next) as (o2 & E2 & W2). rewrite E2.
    exists (o1 ++ o2). split; [reflexivity|].
    rewrite walk_app, walk_cons, spaced_app, W1, W2.
    unfold nextVisited. rewrite afterSpaces_walk, hd_app. reflexivity.
Qed.

Lemma writeBackNode_spaced (glueOptions : Options) (n : HtmlDomNode) :
  spacedOK glueOptions n.
Proof.
  induction n as [k d ch IH] using HtmlDomNode_nested_ind.
  intros V next. rewrite writeBackNode_eq, visitedOf_eq, walkOf_eq.
  destruct (checkPartialGroup (Node k d ch)) eqn:Hp.
  - destruct (threadMap_spaced glueOptions ch IH V next) as (o & E & W).
    rewrite E. eexists. split; [reflexivity|].
    rewrite walk_cons, walkOf_eq.
    change (checkPartialGroup (Node k d o)) with (checkPartialGroup (Node k d ch)).
    rewrite Hp, app_nil_r. exact W.
  - destruct (isSpace (Node k d ch)) eqn:Hs.
    + eexists. split; [reflexivity|].
      rewrite walk_cons, walkOf_eq, Hp. simpl. rewrite Hs. reflexivity.
    + eexists. split; [reflexivity|].
      rewrite walk_cons, walkOf_eq, Hp, walk_glue. simpl. rewrite Hs.
      rewrite app_nil_r. reflexivity.
Qed.

Lemma writeBack_spaced (glueOptions : Options) (nodes : list HtmlDomNode)
  (next : HtmlDomNode) :
  walk (writeBack nodes (glueStream glueOptions (visited nodes) next))
  = spaced glueOptions (walk nodes) next.
Proof.
  destruct (threadMap_spaced glueOptions nodes
              (proj2 (Forall_forall _ _)
                 (fun n _ => writeBackNode_spaced glueOptions n)) [] next)
    as (o & E & W).
  rewrite app_nil_r in E. unfold writeBack. rewrite E. exact W.
Qed.

Lemma spaced_leading (glueOptions : Options) (l : list HtmlDomNode)
  (next : HtmlDomNode) :
  leadingSpaces (spaced glueOptions l next) = leadingSpaces l /\
  afterSpaces (spaced glueOptions l next)
  = spaced glueOptions (afterSpaces l) next.
Proof.
  induction l as [|x rest [IH1 IH2]]; simpl; [split; reflexivity|].
  destruct (isSpace x) eqn:Hs; simpl; rewrite Hs.
  - rewrite IH1, IH2. split; reflexivity.
  - split; reflexivity.
Qed.


(** Where [nodes.unshift(result)] puts the result of the first call: among
    the spaces that precede the first visited node. *)
Definition frontOK (g n : HtmlDomNode) : Prop :=
  match frontOf g n with
  | NoVisit => afterSpaces (walkOf n) = []
  | Here => walkOf n = [n] /\ isSpace n = false
  | Inside n' =>
      afterSpaces (walkOf n) <> [] /\
      exists f1 f2,
        f1 ++ f2 = leadingSpaces (walkOf n) /\
        walkOf n' = f1 ++ g :: f2 ++ afterSpaces (walkOf n)
  end.

Lemma unshiftScan_cons (f : HtmlDomNode -> Front) (e : HtmlDomNode)
  (rest : list HtmlDomNode) :
  unshiftScan f (e :: rest)
  = match f e with
    | NoVisit =>
        match unshiftScan f rest with
        | Some (b, rest') => Some (b, e :: rest')
        | None => None
        end
    | Here => Some (true, e :: rest)
    | Inside e' => Some (false, e' :: rest)
    end.
Proof. reflexivity. Qed.

Lemma unshiftScan_walk (g : HtmlDomNode) (x : list HtmlDomNode) :
  Forall (frontOK g) x ->
  match unshiftScan (frontOf g) x with
  | Some (true, z) => z = x /\ afterSpaces (walk x) <> []
  | Some (false, z) =>
      afterSpaces (walk x) <> [] /\
      exists f1 f2,
        f1 ++ f2 = leadingSpaces (walk x) /\
        walk z = f1 ++ g :: f2 ++ afterSpaces (walk x)
  | None => afterSpaces (walk x) = []
  end.
Proof.
  induction 1 as [|e rest He _ IH]; [reflexivity|].
  rewrite unshiftScan_cons.
  unfold frontOK in He. rewrite !walk_cons, afterSpaces_app, leadingSpaces_app.
  destruct (frontOf g e) as [| |e'].
  - rewrite He.
    destruct (unshiftScan (frontOf g) rest) as [[[|] z]|].
    + destruct IH as [-> IH]. split; [reflexivity|exact IH].
    + destruct IH as (IH & f1 & f2 & E & W). split; [exact IH|].
      exists (walkOf e ++ f1), f2. split.
      * rewrite <- app_assoc, E. reflexivity.
      * rewrite walk_cons, W, <- app_assoc. reflexivity.
    + exact IH.
  - destruct He as [-> Hs]. simpl. rewrite Hs. split; [reflexivity|discriminate].
  - destruct He as (Hne & f1 & f2 & E & W).
    destruct (afterSpaces (walkOf e)) as [|a r] eqn:Ha; [contradiction|].
    split; [discriminate|]. exists f1, f2. split; [exact E|].
    rewrite walk_cons, W, <- !app_assoc. simpl. rewrite <- app_assoc.
    reflexivity.
Qed.

Lemma frontOf_walk (g : HtmlDomNode) :
  walkOf g = [g] -> forall n, frontOK g n.
Proof.
  intros Hg. induction n as [k d ch IH] using HtmlDomNode_nested_ind.
  unfold frontOK. rewrite frontOf_eq, walkOf_eq.
  destruct (checkPartialGroup (Node k d ch)) eqn:Hp.
  - pose proof (unshiftScan_walk g ch IH) as Hs. unfold unshiftWith.
    destruct (unshiftScan (frontOf g) ch) as [[[|] z]|].
    + destruct Hs as [-> Hs]. split; [exact Hs|].
      exists [], (leadingSpaces (walk ch)). split; [reflexivity|].
      rewrite walkOf_eq.
      change (checkPartialGroup (Node k d (g :: ch)))
        with (checkPartialGroup (Node k d ch)).
      rewrite Hp, walk_cons, Hg. simpl. rewrite <- leading_after. reflexivity.
    + destruct Hs as (Hs & f1 & f2 & E & W). split; [exact Hs|].
      exists f1, f2. split; [exact E|]. rewrite walkOf_eq.
      change (checkPartialGroup (Node k d z))
        with (checkPartialGroup (Node k d ch)).
      rewrite Hp. exact W.
    + exact Hs.
  - destruct (isSpace (Node k d ch)) eqn:Hs.
    + simpl. rewrite Hs. reflexivity.
    + auto.
Qed.

Lemma placeFront_walk (g : HtmlDomNode) (x : list HtmlDomNode) :
  walkOf g = [g] ->
  exists f1 f2,
    f1 ++ f2 = leadingSpaces (walk x) /\
    walk (placeFront (Some g) x) = f1 ++ g :: f2 ++ afterSpaces (walk x).
Proof.
  intros Hg. unfold placeFront, unshiftWith.
  pose proof (unshiftScan_walk g x
                (proj2 (Forall_forall _ _) (fun n _ => frontOf_walk g Hg n)))
    as Hs.
  assert (Front : walk (g :: x)
                  = [] ++ g :: leadingSpaces (walk x) ++ afterSpaces (walk x)).
  { rewrite walk_cons, Hg, <- leading_after. reflexivity. }
  destruct (unshiftScan (frontOf g) x) as [[[|] z]|].
  - destruct Hs as [-> _]. exists [], (leadingSpaces (walk x)). auto.
  - destruct Hs as (_ & f1 & f2 & E & W). exists f1, f2. auto.
  - exists [], (leadingSpaces (walk x)). auto.
Qed.


Lemma glueBetween_table (glueOptions : Options) (prev node : HtmlDomNode) :
  glueBetween glueOptions prev node
  = match getTypeOfDomTree (Some prev), getTypeOfDomTree (Some node) with
    | Some a, Some b =>
        match (if hasClass node "mtight" then tightSpacings a b
               else spacings a b) with
        | Some space => [makeGlue space glueOptions]
        | None => []
        end
    | _, _ => []
    end.
Proof.
  unfold glueBetween, glueResult, spacingFor.
  destruct (getTypeOfDomTree (Some prev)) as [a|]; [|reflexivity].
  destruct (getTypeOfDomTree (Some node)) as [b|]; [|reflexivity].
  destruct (hasClass node "mtight");
    [destruct (tightSpacings a b)|destruct (spacings a b)]; reflexivity.
Qed.

Lemma glueOptionsOf_cases (expression : list ParseNode) (options : Options) :
  (forall m sz body,
      expression = [PSizing m sz body] ->
      glueOptionsOf expression options = havingSize sz options) /\
  (forall m st body,
      expression = [PStyling m st body] ->
      glueOptionsOf expression options = havingStyle (styleMap st) options) /\
  ((forall m sz body, expression <> [PSizing m sz body]) ->
   (forall m st body, expression <> [PStyling m st body]) ->
   glueOptionsOf expression options = options).
Proof.
  split; [|split].
  - intros m sz body ->. reflexivity.
  - intros m st body ->. reflexivity.
  - intros H1 H2. destruct expression as [|e [|e' rest]]; try reflexivity.
    destruct e; try reflexivity.
    + exfalso. eapply H1. reflexivity.
    + exfalso. eapply H2. reflexivity.
    + unfold glueOptionsOf, checkNodeType. simpl.
      destruct (String.eqb type "sizing"); [reflexivity|].
      destruct (String.eqb type "styling"); reflexivity.
Qed.

(** C2. In a real group, let [cancelled] be the built list after the
    cancellation pass, with the dummy spans as that pass leaves them. Between
    every two neighbouring non-space nodes [prev] and [node] of it (partial
    groups descended into, the dummies at both ends), [buildExpression]
    inserts, right after [prev], the glue [makeGlue(space, glueOptions)]
    where [space] is [tightSpacings[a][b]] if [node] has class [mtight] and
    [spacings[a][b]] otherwise, for the atom classes [a] of [prev] and [b] of
    [node], when both are non-null and the entry is defined; it inserts
    nothing otherwise. The glue after the left dummy goes among the spaces
    that precede the first non-space node. [glueOptions] is derived from the
    size or style of an expression that is a single sizing or styling node,
    and is the incoming options otherwise. *)
Theorem spacing_pass (expression : list ParseNode) (options : Options)
  (surrounding : option DomType * option DomType)
  (result : list HtmlDomNode) :
  buildExpression expression options true surrounding = inr result ->
  let glueOptions := glueOptionsOf expression options in
  (exists groups cancelled dummyPrev dummyNext front1 front2,
      buildExpression expression options false surrounding = inr groups /\
      binCancellation groups
        (makeSpan [orElse (fst surrounding) "leftmost"] [] (Some options))
        (makeSpan [orElse (snd surrounding) "rightmost"] [] (Some options))
      = (cancelled, dummyPrev, dummyNext) /\
      front1 ++ front2 = leadingSpaces (walk cancelled) /\
      walk result
      = front1
          ++ glueBetween glueOptions dummyPrev
               (nextVisited (walk cancelled) dummyNext)
          ++ front2
          ++ spaced glueOptions (afterSpaces (walk cancelled)) dummyNext) /\
  (forall prev node,
      glueBetween glueOptions prev node
      = match getTypeOfDomTree (Some prev), getTypeOfDomTree (Some node) with
        | Some a, Some b =>
            match (if hasClass node "mtight" then tightSpacings a b
                   else spacings a b) with
            | Some space => [makeGlue space glueOptions]
            | None => []
            end
        | _, _ => []
        end) /\
  (forall m sz body,
      expression = [PSizing m sz body] ->
      glueOptions = havingSize sz options) /\
  (forall m st body,
      expression = [PStyling m st body] ->
      glueOptions = havingStyle (styleMap st) options) /\
  ((forall m sz body, expression <> [PSizing m sz body]) ->
   (forall m st body, expression <> [PStyling m st body]) ->
   glueOptions = options).
Proof.
  intros Hbuild glueOptions.
  split; [|split; [apply glueBetween_table|apply glueOptionsOf_cases]].
  revert Hbuild. rewrite !buildExpression_groups.
  destruct (buildGroups htmlBuilder options expression) as [e|groups];
    [discriminate|].
  simpl. intros H. injection H as <-.
  unfold realGroup. fold glueOptions.
  set (dp := makeSpan [orElse (fst surrounding) "leftmost"] [] (Some options)).
  set (dn := makeSpan [orElse (snd surrounding) "rightmost"] [] (Some options)).
  destruct (traverse_eq groups cancelBin dp dn cancelBin_keepsShape
              (leafLike_dummy _ "rightmost" options eq_refl))
    as (prev' & r & outs & last & Hrun & Hr & Hk & Hl & Hlen & Htr).
  unfold binCancellation, spacingPass. rewrite Htr.
  set (cancelled := placeFront r (writeBack groups outs)).
  destruct (traverse_eq cancelled (insertGlue glueOptions) prev' last
              (insertGlue_keepsShape _) Hl)
    as (prev2 & r2 & outs2 & last2 & Hrun2 & Hr2 & Hk2 & Hl2 & Hlen2 & Htr2).
  rewrite Htr2. rewrite runCallback_glueStream in Hrun2.
  injection Hrun2 as <- <- <- <-.
  pose proof (writeBack_spaced glueOptions cancelled last) as HW.
  destruct (spaced_leading glueOptions (walk cancelled) last) as [HL HA].
  assert (HG : glueBetween glueOptions prev' (nextVisited (walk cancelled) last)
               = optList (glueResult glueOptions prev'
                            (hd last (visited cancelled)))).
  { unfold glueBetween, nextVisited. rewrite afterSpaces_walk. reflexivity. }
  destruct (glueResult glueOptions prev' (hd last (visited cancelled)))
    as [g|] eqn:Hg.
  - assert (Hgw : walkOf g = [g]).
    { unfold glueResult in Hg.
      destruct (spacingFor (hd last (visited cancelled)) prev') as [sp|];
        [|discriminate].
      injection Hg as <-. apply walkOf_plain. apply glue_is_space. }
    destruct (placeFront_walk g
                (writeBack cancelled (glueStream glueOptions (visited cancelled) last))
                Hgw) as (f1 & f2 & E & W).
    rewrite HW, HL in E. rewrite HW, HA in W.
    exists groups, cancelled, prev', last, f1, f2.
    split; [reflexivity|]. split; [exact Htr|]. split; [exact E|].
    rewrite HG, W. reflexivity.
  - exists groups, cancelled, prev', last, (leadingSpaces (walk cancelled)), [].
    split; [reflexivity|]. split; [exact Htr|].
    split; [apply app_nil_r|].
    rewrite HG. simpl. rewrite HW, <- HL, <- HA. apply leading_after.
Qed.


(** ** The passes on the nodes of a [\color] *)

(** What the two passes of a real group make of a built list. *)
Lemma realGroup_passes (expression : list ParseNode) (options : Options)
  (surrounding : option DomType * option DomType)
  (groups : list HtmlDomNode) :
  let glueOptions := glueOptionsOf expression options in
  exists cancelled dummyPrev dummyNext front1 front2,
    binCancellation groups
      (makeSpan [orElse (fst surrounding) "leftmost"] [] (Some options))
      (makeSpan [orElse (snd surrounding) "rightmost"] [] (Some options))
    = (cancelled, dummyPrev, dummyNext) /\
    Forall2 rewritten (visited groups) (visited cancelled) /\
    (forall l1 p n l2, visited cancelled = l1 ++ p :: n :: l2 -> okPair p n) /\
    front1 ++ front2 = leadingSpaces (walk cancelled) /\
    walk (realGroup expression options surrounding groups)
    = front1
        ++ glueBetween glueOptions dummyPrev
             (nextVisited (walk cancelled) dummyNext)
        ++ front2
        ++ spaced glueOptions (afterSpaces (walk cancelled)) dummyNext.
Proof.
  intros glueOptions. unfold realGroup. fold glueOptions.
  set (sp := makeSpan [orElse (fst surrounding) "leftmost"] [] (Some options)).
  set (sn := makeSpan [orElse (snd surrounding) "rightmost"] [] (Some options)).
  destruct (traverse_eq groups cancelBin sp sn cancelBin_keepsShape
              (leafLike_dummy _ "rightmost" options eq_refl))
    as (prev' & r & outs & last & Hrun & Hr & Hk & Hl & Hlen & Htr).
  unfold binCancellation, spacingPass. rewrite Htr.
  set (cancelled := placeFront r (writeBack groups outs)).
  assert (V : visited cancelled = map fst outs).
  { unfold cancelled. rewrite placeFront_visited by exact Hr.
    apply writeBack_visited; assumption. }
  pose proof (runCallback_cancelBin (visited groups ++ [sn]) sp) as Hc.
  rewrite Hrun in Hc. simpl in Hc. destruct Hc as (HF & Hpairs & _ & _).
  inversion HF as [|? ? ? ? _ HF' E1 E2]; subst.
  apply Forall2_app_inv_l in HF'.
  destruct HF' as (B & Z & HB & HZ & EF).
  inversion HZ as [|? ? ? ? _ HZ' E3 E4]; subst. inversion HZ'; subst.
  apply app_inj_tail in EF. destruct EF as [<- <-].
  assert (P : forall l1 p n l2,
             visited cancelled = l1 ++ p :: n :: l2 -> okPair p n).
  { intros l1 p n l2 E. apply (Hpairs (prev' :: l1) p n (l2 ++ [last])).
    rewrite <- V, E. simpl. rewrite <- app_assoc. reflexivity. }
  destruct (traverse_eq cancelled (insertGlue glueOptions) prev' last
              (insertGlue_keepsShape _) Hl)
    as (prev2 & r2 & outs2 & last2 & Hrun2 & Hr2 & Hk2 & Hl2 & Hlen2 & Htr2).
  rewrite Htr2. rewrite runCallback_glueStream in Hrun2.
  injection Hrun2 as <- <- <- <-.
  pose proof (writeBack_spaced glueOptions cancelled last) as HW.
  destruct (spaced_leading glueOptions (walk cancelled) last) as [HL HA].
  assert (HG : glueBetween glueOptions prev' (nextVisited (walk cancelled) last)
               = optList (glueResult glueOptions prev'
                            (hd last (visited cancelled)))).
  { unfold glueBetween, nextVisited. rewrite afterSpaces_walk. reflexivity. }
  destruct (glueResult glueOptions prev' (hd last (visited cancelled)))
    as [g|] eqn:Hg.
  - assert (Hgw : walkOf g = [g]).
    { unfold glueResult in Hg.
      destruct (spacingFor (hd last (visited cancelled)) prev') as [space|];
        [|discriminate].
      injection Hg as <-. apply walkOf_plain. apply glue_is_space. }
    destruct (placeFront_walk g
                (writeBack cancelled (glueStream glueOptions (visited cancelled) last))
                Hgw) as (f1 & f2 & E & W).
    rewrite HW, HL in E. rewrite HW, HA in W.
    exists cancelled, prev', last, f1, f2.
    split; [reflexivity|]. split; [rewrite V; exact HB|].
    split; [exact P|]. split; [exact E|].
    rewrite HG. exact W.
  - exists cancelled, prev', last, (leadingSpaces (walk cancelled)), [].
    split; [reflexivity|]. split; [rewrite V; exact HB|].
    split; [exact P|]. split; [apply app_nil_r|].
    rewrite HG. simpl. rewrite HW, <- HL, <- HA. apply leading_after.
Qed.

Lemma glueOptionsOf_color (pre rest : list ParseNode) (mode : Mode)
  (color : string) (body : list ParseNode) (options : Options) :
  glueOptionsOf (pre ++ PColor mode color body :: rest) options = options.
Proof.
  destruct pre as [|x [|y pre']].
  - destruct rest; reflexivity.
  - reflexivity.
  - reflexivity.
Qed.

(** C7. The builder of [\color] builds its body with [isRealGroup = false]
    and returns a fragment of the result; [buildExpression] with
    [isRealGroup = false] returns the flat list of built groups, with no
    pass run over it; and in an enclosing real group the nodes of the
    fragment stand in the list over which the two passes run, with the
    [glueOptions] of the enclosing group; a fragment that is met by a pass
    is descended into. So, wherever the [\color] stands in a real group, the
    passes run over the nodes before it, the nodes of its body and the nodes
    after it as one list: after the cancellation no [mbin] is left to be
    cancelled in any pair of neighbours, also across the borders of the
    colour, and right after each non-space node stands the glue of the
    tables for it and its next non-space neighbour, whichever side of a
    border they are on, made with the options of the enclosing group. *)
Theorem color_is_transparent (mode : Mode) (color : string)
  (body rest : list ParseNode) (options : Options)
  (surrounding : option DomType * option DomType) :
  htmlBuilder (PColor mode color body) options
  = (elements <- buildExpression body (withColor color options) false (None, None) ;;
     ok (makeFragment elements)) /\
  (forall elements,
      kindOf (makeFragment elements) = KFragment /\
      childrenOf (makeFragment elements) = elements) /\
  (forall expression o s,
      buildExpression expression o false s
      = buildGroups (fun g o => buildGroup (Some g) o None) o expression) /\
  buildExpression (PColor mode color body :: rest) options true surrounding
  = (inside <- buildExpression body (withColor color options) false (None, None) ;;
     after <- buildExpression rest options false (None, None) ;;
     ok (realGroup (PColor mode color body :: rest) options surrounding
           (inside ++ after))) /\
  glueOptionsOf (PColor mode color body :: rest) options = options /\
  (forall elements nodes,
      visited (makeFragment elements :: nodes) = visited (elements ++ nodes)) /\
  (forall pre result,
      buildExpression (pre ++ PColor mode color body :: rest) options true
        surrounding = inr result ->
      exists before inside after cancelled dummyPrev dummyNext front1 front2,
        buildExpression pre options false (None, None) = inr before /\
        buildExpression body (withColor color options) false (None, None)
        = inr inside /\
        buildExpression rest options false (None, None) = inr after /\
        binCancellation (before ++ inside ++ after)
          (makeSpan [orElse (fst surrounding) "leftmost"] [] (Some options))
          (makeSpan [orElse (snd surrounding) "rightmost"] [] (Some options))
        = (cancelled, dummyPrev, dummyNext) /\
        Forall2 rewritten (visited (before ++ inside ++ after))
          (visited cancelled) /\
        (forall l1 p n l2,
            visited cancelled = l1 ++ p :: n :: l2 -> okPair p n) /\
        front1 ++ front2 = leadingSpaces (walk cancelled) /\
        walk result
        = front1
            ++ glueBetween options dummyPrev
                 (nextVisited (walk cancelled) dummyNext)
            ++ front2
            ++ spaced options (afterSpaces (walk cancelled)) dummyNext /\
        (forall prev node,
            glueBetween options prev node
            = match getTypeOfDomTree (Some prev),
                    getTypeOfDomTree (Some node) with
              | Some a, Some b =>
                  match (if hasClass node "mtight" then tightSpacings a b
                         else spacings a b) with
                  | Some space => [makeGlue space options]
                  | None => []
                  end
              | _, _ => []
              end)).
Proof.
  split; [|split; [|split; [|split; [|split; [|split]]]]].
  - rewrite buildExpression_groups. simpl. unfold bind.
    destruct (buildGroups htmlBuilder (withColor color options) body); reflexivity.
  - intros elements. unfold makeFragment.
    destruct (sized_fields (newDocumentFragment elements)) as (Hk & Hc & _).
    split; assumption.
  - intros expression o s. unfold buildExpression, bind.
    destruct (buildGroups _ o expression); reflexivity.
  - rewrite !buildExpression_groups.
    change (buildGroups htmlBuilder options (PColor mode color body :: rest))
      with (output <- (elements <- buildGroups htmlBuilder
                                     (withColor color options) body ;;
                       ok (makeFragment elements)) ;;
            groups <- buildGroups htmlBuilder options rest ;;
            ok (pushOutput output ++ groups)).
    unfold bind.
    destruct (buildGroups htmlBuilder (withColor color options) body) as [e|inside];
      [reflexivity|].
    destruct (buildGroups htmlBuilder options rest) as [e|after]; [reflexivity|].
    unfold ok. rewrite pushOutput_makeFragment. reflexivity.
  - destruct rest; reflexivity.
  - intros elements nodes. unfold makeFragment.
    destruct (sized_fields (newDocumentFragment elements)) as (Hk & Hc & _).
    destruct (sized (newDocumentFragment elements)) as [k d ch].
    simpl in Hk, Hc. subst k ch. unfold visited. rewrite flat_map_app.
    reflexivity.
  - intros pre result. rewrite !buildExpression_groups.
    rewrite buildGroups_app, buildGroups_cons.
    change (htmlBuilder (PColor mode color body) options)
      with (elements <- buildGroups htmlBuilder (withColor color options) body ;;
            ok (makeFragment elements)).
    unfold bind, ok.
    destruct (buildGroups htmlBuilder options pre) as [e|before];
      [discriminate|].
    destruct (buildGroups htmlBuilder (withColor color options) body)
      as [e|inside]; [discriminate|].
    destruct (buildGroups htmlBuilder options rest) as [e|after];
      [discriminate|].
    rewrite pushOutput_makeFragment. intros H. injection H as <-.
    destruct (realGroup_passes (pre ++ PColor mode color body :: rest) options
                surrounding (before ++ inside ++ after))
      as (cancelled & dp & dn & f1 & f2 & H1 & H2 & H3 & H4 & H5).
    rewrite glueOptionsOf_color in H5.
    exists before, inside, after, cancelled, dp, dn, f1, f2.
    split; [reflexivity|]. split; [reflexivity|]. split; [reflexivity|].
    split; [exact H1|]. split; [exact H2|]. split; [exact H3|].
    split; [exact H4|]. split; [exact H5|].
    intros prev node. apply glueBetween_table.
Qed.


(** ** No fragment is left in a built list *)

Definition notFragment (n : HtmlDomNode) : Prop := kindOf n <> KFragment.

Lemma leafLike_notFragment (n : HtmlDomNode) : leafLike n -> notFragment n.
Proof.
  destruct n as [k d ch]. intros [Hp _] Hk. simpl in Hk. subst k. discriminate.
Qed.

Lemma visitedOf_self (n : HtmlDomNode) : visitedOf n = [n] -> leafLike n.
Proof.
  intros H. pose proof (visited_leafLike [n]) as V.
  rewrite visited_one, H in V. inversion V; assumption.
Qed.

Lemma writeBack_top (P : HtmlDomNode -> Prop) (nodes : list HtmlDomNode) :
  (forall k d ch ch', P (Node k d ch) -> P (Node k d ch')) ->
  forall s,
    length s = length (visited nodes) -> Forall keepsVisits s ->
    Forall P nodes ->
    Forall (fun e => P (fst e) /\ Forall P (optList (snd e))) s ->
    Forall P (writeBack nodes s).
Proof.
  intros Hkind. unfold writeBack.
  induction nodes as [|c rest IH]; intros s Hlen Hk Hn Hs; [constructor|].
  rewrite visited_cons, length_app in Hlen.
  rewrite <- (firstn_skipn (length (visitedOf c)) s) in Hk, Hs |- *.
  apply Forall_app in Hk. destruct Hk as [Hk1 Hk2].
  apply Forall_app in Hs. destruct Hs as [Hs1 Hs2].
  set (s1 := firstn (length (visitedOf c)) s) in *.
  set (s2 := skipn (length (visitedOf c)) s) in *.
  assert (L1 : length s1 = length (visitedOf c)).
  { unfold s1. rewrite length_firstn. lia. }
  assert (L2 : length s2 = length (visited rest)).
  { unfold s2. rewrite length_skipn. lia. }
  inversion Hn as [|? ? Hc Hrest]; subst.
  rewrite threadMap_cons.
  destruct (writeBackNode_visited c s1 s2 L1 Hk1) as [E _]. rewrite E.
  specialize (IH s2 L2 Hk2 Hrest Hs2).
  destruct (threadMap writeBackNode rest s2) as [rest' s3]. simpl in *.
  apply Forall_app. split; [|exact IH].
  destruct c as [k d ch]. rewrite writeBackNode_eq.
  rewrite visitedOf_eq in L1.
  destruct (checkPartialGroup (Node k d ch)).
  - destruct (threadMap writeBackNode ch s1). simpl.
    constructor; [eapply Hkind; exact Hc|constructor].
  - destruct (isSpace (Node k d ch)).
    + simpl. constructor; [exact Hc|constructor].
    + destruct s1 as [|[x g] s1']; [discriminate|].
      inversion Hs1 as [|? ? [Hx Hg] _]; subst. simpl.
      constructor; assumption.
Qed.

Lemma placeFront_top (P : HtmlDomNode -> Prop) (result : option HtmlDomNode)
  (x : list HtmlDomNode) :
  (forall k d ch ch', P (Node k d ch) -> P (Node k d ch')) ->
  Forall P (optList result) -> Forall P x -> Forall P (placeFront result x).
Proof.
  intros Hkind Hr Hx. destruct result as [g|]; [|exact Hx].
  inversion Hr as [|? ? Hg _]; subst. unfold placeFront, unshiftWith.
  assert (S : forall b z, unshiftScan (frontOf g) x = Some (b, z) -> Forall P z).
  { induction Hx as [|e rest He Hrest IH]; intros b z; [discriminate|].
    rewrite unshiftScan_cons.
    destruct (frontOf g e) as [| |e'] eqn:Hf.
    - destruct (unshiftScan (frontOf g) rest) as [[b' z']|]; [|discriminate].
      intros H. injection H as <- <-. constructor; [exact He|].
      eapply IH. reflexivity.
    - intros H. injection H as <- <-. constructor; assumption.
    - intros H. injection H as <- <-. constructor; [|assumption].
      destruct e as [k d ch]. rewrite frontOf_eq in Hf.
      destruct (checkPartialGroup (Node k d ch)).
      + destruct (unshiftWith (frontOf g) g ch); [|discriminate].
        injection Hf as <-. eapply Hkind. exact He.
      + destruct (isSpace (Node k d ch)); discriminate. }
  destruct (unshiftScan (frontOf g) x) as [[[|] z]|] eqn:E.
  - constructor; [exact Hg|]. eapply S. reflexivity.
  - eapply S. reflexivity.
  - constructor; assumption.
Qed.

Lemma traverse_top (P : HtmlDomNode -> Prop) (nodes : list HtmlDomNode)
  (callback : Callback) (prev next : HtmlDomNode) :
  (forall k d ch ch', P (Node k d ch) -> P (Node k d ch')) ->
  (forall n, leafLike n -> P n) ->
  (forall node p, Forall P (optList (snd (callback node p)))) ->
  keepsShape callback -> leafLike next ->
  Forall P nodes ->
  Forall P (fst (fst (traverseNonSpaceNodes nodes callback prev next))).
Proof.
  intros Hkind Hleaf Hres Hcb Hnext Hn.
  destruct (traverse_eq nodes callback prev next Hcb Hnext)
    as (prev' & r & outs & lst & Hrun & Hr & Hk & Hl & Hlen & ->).
  simpl.
  assert (R : forall l p o z,
             runCallback callback p l = (o, z) ->
             Forall (fun e => Forall P (optList (snd e))) o).
  { induction l as [|n rest IH]; intros p o z; simpl.
    - intros H. injection H as <- <-. constructor.
    - pose proof (Hres n p) as Hnp.
      destruct (callback n p) as [[n' p'] res].
      destruct (runCallback callback n' rest) as [o' z'] eqn:E.
      intros H. injection H as <- <-. constructor; [exact Hnp|].
      eapply IH. exact E. }
  pose proof (R _ _ _ _ Hrun) as Hall.
  inversion Hall as [|? ? Hr0 Hrest]; subst.
  apply placeFront_top; [exact Hkind|exact Hr0|].
  apply writeBack_top; try assumption.
  rewrite Forall_forall in *. intros e He. split; [|apply Hrest; exact He].
  apply Hleaf, visitedOf_self. apply (proj1 (Hk e He)).
Qed.

Lemma pushOutput_sized_notFragment (n : HtmlDomNode) :
  notFragment n -> Forall notFragment (pushOutput (sized n)).
Proof.
  intros Hn. destruct (sized_fields n) as (Hk & _).
  unfold pushOutput. unfold notFragment in *.
  destruct (kindOf (sized n)) eqn:E; try (constructor; [congruence|constructor]).
  congruence.
Qed.

Section FlatRegistry.

(** The registered builders and [sizedDelim] return no fragment inside a
    fragment. *)
Hypothesis registry_flat :
  forall t builder g o n,
    groupBuilders t = Some builder -> builder g o = inr n ->
    Forall notFragment (pushOutput n).
Hypothesis sizedDelim_flat :
  forall d n o m cls, Forall notFragment (pushOutput (sizedDelim d n o m cls)).

Lemma buildGroups_flat (body : list ParseNode) :
  Forall (fun g => forall o n, htmlBuilder g o = inr n ->
                               Forall notFragment (pushOutput n)) body ->
  forall o groups,
    buildGroups htmlBuilder o body = inr groups -> Forall notFragment groups.
Proof.
  induction 1 as [|g rest Hg _ IH]; intros o groups.
  - intros H. injection H as <-. constructor.
  - rewrite buildGroups_cons. unfold bind.
    destruct (htmlBuilder g o) as [|out] eqn:E1; [discriminate|].
    destruct (buildGroups htmlBuilder o rest) as [|gs] eqn:E2; [discriminate|].
    intros H. injection H as <-. apply Forall_app. split; eauto.
Qed.

Lemma htmlBuilder_flat (group : ParseNode) :
  forall options n,
    htmlBuilder group options = inr n -> Forall notFragment (pushOutput n).
Proof.
  induction group using ParseNode_nested_ind; intros options n.
  - change (htmlBuilder (PColor m c body) options)
      with (elements <- buildGroups htmlBuilder (withColor c options) body ;;
            ok (makeFragment elements)).
    unfold bind.
    destruct (buildGroups htmlBuilder (withColor c options) body) eqn:E;
      [discriminate|].
    intros Hq. injection Hq as <-. rewrite pushOutput_makeFragment.
    eapply buildGroups_flat; eauto.
  - change (htmlBuilder (PHref m h body) options)
      with (elements <- buildGroups htmlBuilder options body ;;
            ok (makeAnchor h [] elements options)).
    unfold bind.
    destruct (buildGroups htmlBuilder options body); [discriminate|].
    intros Hq. injection Hq as <-. apply pushOutput_sized_notFragment.
    discriminate.
  - destruct body as [b|]; [|discriminate].
    change (htmlBuilder (PLeftright m (Some b) l r) options)
      with (groups <- buildGroups htmlBuilder options b ;;
            ok (leftrightAssemble m l r options
                  (realGroup b options (Some mopen, Some mclose) groups))).
    unfold bind.
    destruct (buildGroups htmlBuilder options b); [discriminate|].
    intros Hq. injection Hq as <-. apply pushOutput_sized_notFragment.
    discriminate.
  - intros Hq. injection Hq as <-. unfold middleBuilder.
    destruct (String.eqb d ".").
    + apply pushOutput_sized_notFragment. discriminate.
    + pose proof (sizedDelim_flat d 1 options m []) as Hd.
      destruct (sizedDelim d 1 options m []) as [k dt ch].
      unfold pushOutput in *. simpl in *.
      destruct k; try exact Hd; (constructor; [discriminate|constructor]).
  - simpl. destruct (groupBuilders "sizing") eqn:E; [eauto|discriminate].
  - simpl. destruct (groupBuilders "styling") eqn:E; [eauto|discriminate].
  - simpl. destruct (groupBuilders "tag") eqn:E; [eauto|discriminate].
  - simpl. destruct (groupBuilders t) eqn:E; [eauto|discriminate].
Qed.

(** X7. "The returned list contains no fragments": when no registered
    builder (nor [sizedDelim]) returns a fragment inside a fragment, no node
    of the list that [buildExpression] returns is a [DocumentFragment],
    for a partial and for a real group. *)
Theorem buildExpression_no_fragment (expression : list ParseNode)
  (options : Options) (isRealGroup : bool)
  (surrounding : option DomType * option DomType)
  (result : list HtmlDomNode) :
  buildExpression expression options isRealGroup surrounding = inr result ->
  Forall (fun n => kindOf n <> KFragment) result.
Proof.
  rewrite buildExpression_groups. unfold bind.
  destruct (buildGroups htmlBuilder options expression) as [|groups] eqn:E;
    [discriminate|].
  simpl. intros H. injection H as <-.
  assert (G : Forall notFragment groups).
  { eapply buildGroups_flat; [|exact E].
    apply Forall_forall. intros g _. apply htmlBuilder_flat. }
  destruct isRealGroup; [|exact G].
  assert (Hkind : forall k d ch ch',
             notFragment (Node k d ch) -> notFragment (Node k d ch')).
  { intros k d ch ch' H. exact H. }
  unfold realGroup, binCancellation, spacingPass.
  set (dp := makeSpan [orElse (fst surrounding) "leftmost"] [] (Some options)).
  set (dn := makeSpan [orElse (snd surrounding) "rightmost"] [] (Some options)).
  pose proof (traverse_top notFragment groups cancelBin dp dn Hkind
                leafLike_notFragment) as T1.
  destruct (traverse_eq groups cancelBin dp dn cancelBin_keepsShape
              (leafLike_dummy _ "rightmost" options eq_refl))
    as (prev' & r & outs & lst & _ & _ & _ & Hl & _ & Htr).
  rewrite Htr in T1 |- *. simpl in T1.
  assert (G1 : Forall notFragment (placeFront r (writeBack groups outs))).
  { apply T1; try assumption.
    - intros node p. pose proof (cancelBin_step node p) as Hs.
      destruct (cancelBin node p) as [[n' p'] res].
      destruct Hs as (-> & _). constructor.
    - apply cancelBin_keepsShape.
    - apply (leafLike_dummy _ "rightmost" options eq_refl). }
  pose proof (traverse_top notFragment (placeFront r (writeBack groups outs))
                (insertGlue (glueOptionsOf expression options)) prev' lst
                Hkind leafLike_notFragment) as T2.
  destruct (traverseNonSpaceNodes (placeFront r (writeBack groups outs))
              (insertGlue (glueOptionsOf expression options)) prev' lst)
    as [[groups2 p2] n2].
  apply T2; try assumption.
  - intros node p. rewrite insertGlue_eq. simpl. unfold glueResult.
    destruct (spacingFor node p) as [sp|]; simpl; [|constructor].
    constructor; [|constructor].
    pose proof (proj2 (glue_is_space sp (glueOptionsOf expression options)))
      as Hg.
    destruct (makeGlue sp (glueOptionsOf expression options)) as [k dd ch].
    intros Hk. simpl in Hk. subst k. discriminate.
  - apply insertGlue_keepsShape.
Qed.

End FlatRegistry.


(** ** The marks of [\middle] through the passes *)
















End GlueIsSpace.

(** ** The boxes of [\middle] in a [\left..\right] group *)









(** ** Line breaking *)

(** A child of the root: a run of nodes wrapped in a base span, or a node
    put at the top level as it is. *)
Definition renderChunk (options : Options)
  (c : list HtmlDomNode + HtmlDomNode) : HtmlDomNode :=
  match c with
  | inl parts => buildHTMLUnbreakable parts options
  | inr e => e
  end.

Definition chunkNodes (c : list HtmlDomNode + HtmlDomNode)
  : list HtmlDomNode :=
  match c with
  | inl parts => parts
  | inr e => [e]
  end.

Definition wellFormedChunk (c : list HtmlDomNode + HtmlDomNode) : Prop :=
  match c with
  | inl parts => parts <> []
  | inr e => hasClass e "newline" = true
  end.

Lemma chunks_partition (options : Options) (expression : list HtmlDomNode) :
  forall glue parts segs0,
    (glue = None \/ parts <> []) ->
    exists segs,
      chunks options expression glue parts (map (renderChunk options) segs0)
      = map (renderChunk options) (segs0 ++ segs) /\
      flat_map chunkNodes segs = parts ++ expression /\
      Forall wellFormedChunk segs.
Proof.
  induction expression as [|e rest IH]; intros glue parts segs0 Hinv.
  - assert (Close : exists segs,
               (match parts with
                | [] => map (renderChunk options) segs0
                | _ => map (renderChunk options) segs0
                         ++ [buildHTMLUnbreakable parts options]
                end) = map (renderChunk options) (segs0 ++ segs) /\
               flat_map chunkNodes segs = parts ++ [] /\
               Forall wellFormedChunk segs).
    { destruct parts as [|p ps].
      - exists []. rewrite app_nil_r. repeat split. constructor.
      - exists [inl (p :: ps)]. rewrite map_app. simpl. rewrite !app_nil_r.
        repeat split. constructor; [discriminate|constructor]. }
    simpl. destruct glue as [[|]|]; simpl; try exact Close.
    destruct Hinv as [Hn|Hp]; [discriminate|].
    exists [inl parts]. rewrite map_app. simpl. rewrite !app_nil_r.
    repeat split. constructor; [exact Hp|constructor].
  - simpl.
    destruct (match glue with
              | Some _ => hasClass e "mspace" && negb (hasClass e "newline")
              | None => false end) eqn:Hw.
    + destruct (IH (Some (match glue with Some b => b | None => false end
                          || hasClass e "nobreak")) (parts ++ [e]) segs0)
        as (segs & E & F & W).
      { right. destruct parts; discriminate. }
      exists segs. rewrite <- app_assoc in F. auto.
    + (* the chunk that the end of the glue closes, if any *)
      assert (End : exists pre parts',
                 endGlue options glue parts (map (renderChunk options) segs0)
                 = (parts', map (renderChunk options) (segs0 ++ pre)) /\
                 flat_map chunkNodes pre ++ parts' = parts /\
                 Forall wellFormedChunk pre).
      { destruct glue as [[|]|]; simpl.
        - exists [], parts. rewrite app_nil_r. repeat split. constructor.
        - destruct Hinv as [Hn|Hp]; [discriminate|].
          exists [inl parts], []. rewrite map_app. simpl. rewrite !app_nil_r.
          repeat split. constructor; [exact Hp|constructor].
        - exists [], parts. rewrite app_nil_r. repeat split. constructor. }
      destruct End as (pre & parts' & -> & Hpre & Wpre).
      assert (Step : forall glue' parts2 mid,
                 (glue' = None \/ parts2 <> []) ->
                 flat_map chunkNodes mid ++ parts2 = parts' ++ [e] ->
                 Forall wellFormedChunk mid ->
                 exists segs,
                   chunks options rest glue' parts2
                     (map (renderChunk options) (segs0 ++ pre ++ mid))
                   = map (renderChunk options) (segs0 ++ segs) /\
                   flat_map chunkNodes segs = parts ++ e :: rest /\
                   Forall wellFormedChunk segs).
      { intros glue' parts2 mid Hi Hm Wm.
        destruct (IH glue' parts2 (segs0 ++ pre ++ mid) Hi) as (segs & E & F & W).
        exists (pre ++ mid ++ segs). rewrite E, <- !app_assoc.
        split; [reflexivity|]. split.
        - rewrite !flat_map_app, F, <- Hpre, app_assoc, app_assoc.
          rewrite <- (app_assoc (flat_map chunkNodes pre)), Hm.
          rewrite <- !app_assoc. reflexivity.
        - apply Forall_app. split; [exact Wpre|].
          apply Forall_app. split; assumption. }
      destruct (breaksAfter e).
      * destruct (Step (Some false) (parts' ++ [e]) []) as (segs & E & F & W);
          [right; destruct parts'; discriminate|reflexivity|constructor|].
        rewrite !app_nil_r in E. exists segs. auto.
      * destruct (hasClass e "newline") eqn:Hn.
        -- rewrite removelast_last.
           destruct parts' as [|p ps].
           ++ destruct (Step None [] [inr e]) as (segs & E & F & W);
                [left; reflexivity|reflexivity|
                 constructor; [exact Hn|constructor]|].
              rewrite !map_app in E. simpl in E.
              exists segs. rewrite !map_app, <- ?app_assoc. simpl.
              split; [exact E|auto].
           ++ destruct (Step None [] [inl (p :: ps); inr e]) as (segs & E & F & W);
                [left; reflexivity|simpl; rewrite app_nil_r; reflexivity|
                 constructor; [discriminate|constructor; [exact Hn|constructor]]|].
              rewrite !map_app in E. simpl in E.
              exists segs. rewrite !map_app, <- ?app_assoc. simpl.
              split; [exact E|auto].
        -- destruct (Step None (parts' ++ [e]) []) as (segs & E & F & W);
             [left; reflexivity|reflexivity|constructor|].
           rewrite !app_nil_r in E. exists segs. auto.
Qed.

(** X3. Line breaking loses nothing: the children of the root are base
    spans around non-empty runs of the expression and nodes of class
    [newline] put at the top level, and the runs and those nodes, in order,
    are the expression. *)
Theorem chunks_cover (options : Options) (expression : list HtmlDomNode) :
  exists segs,
    chunks options expression None [] [] = map (renderChunk options) segs /\
    flat_map chunkNodes segs = expression /\
    Forall wellFormedChunk segs.
Proof.
  destruct (chunks_partition options expression None [] [] (or_introl eq_refl))
    as (segs & E & F & W).
  exists segs. auto.
Qed.

(** X4. An expression without a node of class [mbin], [mrel],
    [allowbreak] or [newline] is never broken: it gives one base span, and
    the empty expression gives no child at all. *)
Theorem chunks_unbroken (options : Options) (expression : list HtmlDomNode) :
  Forall (fun e => breaksAfter e = false /\ hasClass e "newline" = false)
    expression ->
  chunks options expression None [] []
  = match expression with
    | [] => []
    | _ => [buildHTMLUnbreakable expression options]
    end.
Proof.
  assert (G : forall l parts children,
             Forall (fun e => breaksAfter e = false /\
                              hasClass e "newline" = false) l ->
             chunks options l None parts children
             = match parts ++ l with
               | [] => children
               | _ => children ++ [buildHTMLUnbreakable (parts ++ l) options]
               end).
  { induction l as [|e rest IH]; intros parts children Hl.
    - simpl. rewrite app_nil_r. reflexivity.
    - inversion Hl as [|? ? [Hb Hn] Hrest]; subst. simpl.
      rewrite Hb, Hn, IH by exact Hrest. rewrite <- app_assoc. reflexivity. }
  intros H. rewrite G by exact H. simpl. destruct expression; reflexivity.
Qed.


(** ** The outermost node of a tree *)

Inductive Side := leftSide | rightSide.

(** [getOutermostNode(node, side)]. *)
Fixpoint getOutermostNode (node : HtmlDomNode) (side : Side) : HtmlDomNode :=
  match node with
  | Node k d ch =>
      if checkPartialGroup node then
        match side with
        | rightSide =>
            (fix lastOf (l : list HtmlDomNode) : HtmlDomNode :=
               match l with
               | [] => node
               | [c] => getOutermostNode c rightSide
               | _ :: rest => lastOf rest
               end) ch
        | leftSide =>
            match ch with
            | c :: _ => getOutermostNode c leftSide
            | [] => node
            end
        end
      else node
  end.

(** [getTypeOfDomTree(node, side)], with the optional [side]. *)
Definition getTypeOfDomTreeAt (node : option HtmlDomNode) (side : option Side)
  : option string :=
  match node with
  | None => None
  | Some n =>
      getTypeOfDomTree
        (Some (match side with
               | Some s => getOutermostNode n s
               | None => n
               end))
  end.

Lemma lastOf_snoc (dflt : HtmlDomNode) (l : list HtmlDomNode)
  (c : HtmlDomNode) :
  (fix lastOf (l : list HtmlDomNode) : HtmlDomNode :=
     match l with
     | [] => dflt
     | [c] => getOutermostNode c rightSide
     | _ :: rest => lastOf rest
     end) (l ++ [c])
  = getOutermostNode c rightSide.
Proof.
  induction l as [|x rest IH]; [reflexivity|].
  simpl. destruct (rest ++ [c]) eqn:E; [destruct rest; discriminate|].
  exact IH.
Qed.

Lemma getOutermostNode_right (k : Kind) (d : NodeData)
  (ch : list HtmlDomNode) (c : HtmlDomNode) :
  checkPartialGroup (Node k d ch) = true ->
  getOutermostNode (Node k d (ch ++ [c])) rightSide
  = getOutermostNode c rightSide.
Proof.
  intros Hp. simpl.
  change (checkPartialGroup (Node k d (ch ++ [c])))
    with (checkPartialGroup (Node k d ch)).
  rewrite Hp. apply lastOf_snoc.
Qed.

Lemma getOutermostNode_left (k : Kind) (d : NodeData)
  (ch : list HtmlDomNode) (c : HtmlDomNode) :
  checkPartialGroup (Node k d ch) = true ->
  getOutermostNode (Node k d (c :: ch)) leftSide
  = getOutermostNode c leftSide.
Proof.
  intros Hp. simpl.
  change (checkPartialGroup (Node k d (c :: ch)))
    with (checkPartialGroup (Node k d ch)).
  rewrite Hp. reflexivity.
Qed.

Lemma getOutermostNode_base (n : HtmlDomNode) (side : Side) :
  checkPartialGroup n = false \/ childrenOf n = [] ->
  getOutermostNode n side = n.
Proof.
  destruct n as [k d ch]. intros [Hp|Hc]; simpl in *.
  - rewrite Hp. reflexivity.
  - subst ch. destruct (checkPartialGroup (Node k d [])), side; reflexivity.
Qed.

(** X5. [getOutermostNode] ends on a node that is not a partial group or
    on a partial group without children, so asking again changes nothing;
    and through a non-empty fragment or anchor it is the outermost node of
    the first (left) or last (right) child, which makes
    [getTypeOfDomTree(node, side)] of the group the type of that child. *)
Theorem getOutermostNode_spec :
  (forall n side,
      let r := getOutermostNode n side in
      (checkPartialGroup r = false \/ childrenOf r = []) /\
      getOutermostNode r side = r) /\
  (forall k d ch c,
      checkPartialGroup (Node k d ch) = true ->
      getTypeOfDomTreeAt (Some (Node k d (c :: ch))) (Some leftSide)
      = getTypeOfDomTreeAt (Some c) (Some leftSide) /\
      getTypeOfDomTreeAt (Some (Node k d (ch ++ [c]))) (Some rightSide)
      = getTypeOfDomTreeAt (Some c) (Some rightSide)).
Proof.
  split.
  - assert (G : forall n side,
               checkPartialGroup (getOutermostNode n side) = false \/
               childrenOf (getOutermostNode n side) = []).
    { induction n as [k d ch IH] using HtmlDomNode_nested_ind. intros side.
      destruct (checkPartialGroup (Node k d ch)) eqn:Hp.
      - destruct side.
        + destruct ch as [|c rest].
          * rewrite getOutermostNode_base by (right; reflexivity).
            right. reflexivity.
          * rewrite getOutermostNode_left by exact Hp.
            inversion IH; subst. auto.
        + revert IH Hp. induction ch as [|c rest _] using rev_ind; intros IH Hp.
          * rewrite getOutermostNode_base by (right; reflexivity).
            right. reflexivity.
          * rewrite getOutermostNode_right by exact Hp.
            apply Forall_app in IH. destruct IH as [_ IH].
            inversion IH; subst. auto.
      - rewrite getOutermostNode_base by (left; exact Hp). left. exact Hp. }
    intros n side r. split; [apply G|].
    apply getOutermostNode_base. apply G.
  - intros k d ch c Hp. unfold getTypeOfDomTreeAt.
    rewrite getOutermostNode_left, getOutermostNode_right by exact Hp.
    split; reflexivity.
Qed.


(** ** The cancellation pass run again *)

Definition unchanged (n : HtmlDomNode) : HtmlDomNode * option HtmlDomNode :=
  (n, None).

Lemma writeBack_unchanged (nodes : list HtmlDomNode) :
  writeBack nodes (map unchanged (visited nodes)) = nodes.
Proof.
  assert (N : forall n t,
             writeBackNode n (map unchanged (visitedOf n) ++ t) = ([n], t)).
  { induction n as [k d ch IH] using HtmlDomNode_nested_ind. intros t.
    rewrite writeBackNode_eq, visitedOf_eq.
    destruct (checkPartialGroup (Node k d ch)) eqn:Hp.
    - assert (L : forall t', threadMap writeBackNode ch
                               (map unchanged (visited ch) ++ t') = (ch, t')).
      { clear Hp. induction IH as [|c rest Hc _ IHrest]; intros t';
          [reflexivity|].
        rewrite visited_cons, map_app, <- app_assoc, threadMap_cons, Hc, IHrest.
        reflexivity. }
      rewrite L. reflexivity.
    - destruct (isSpace (Node k d ch)); reflexivity. }
  assert (L : forall l t, threadMap writeBackNode l
                            (map unchanged (visited l) ++ t) = (l, t)).
  { induction l as [|c rest IH]; intros t; [reflexivity|].
    rewrite visited_cons, map_app, <- app_assoc, threadMap_cons, N, IH.
    reflexivity. }
  unfold writeBack. rewrite <- (app_nil_r (map unchanged (visited nodes))), L.
  reflexivity.
Qed.

Lemma cancelBin_okPair (node prev : HtmlDomNode) :
  okPair prev node -> cancelBin node prev = (node, prev, None).
Proof.
  intros [H1 H2]. unfold cancelBin.
  destruct (isStr (class0 prev) "mbin") eqn:Ea;
    destruct (contains binRightCanceller (class0 node)) eqn:Eb; simpl;
    try (exfalso; apply H2; auto; fail);
    destruct (isStr (class0 node) "mbin") eqn:Ec;
    destruct (contains binLeftCanceller (class0 prev)) eqn:Ed; simpl;
    try reflexivity; exfalso; apply H1; auto.
Qed.

Lemma last_cons {A} (x d : A) (l : list A) : last (x :: l) d = last l x.
Proof.
  revert x d. induction l as [|y rest IH]; intros x d; [reflexivity|].
  change (last (x :: y :: rest) d) with (last (y :: rest) d).
  rewrite !IH. reflexivity.
Qed.

Lemma runCallback_okPairs (nodes : list HtmlDomNode) :
  forall prev,
    (forall l1 p n l2, prev :: nodes = l1 ++ p :: n :: l2 -> okPair p n) ->
    runCallback cancelBin prev nodes
    = (map unchanged (removelast (prev :: nodes)), last nodes prev).
Proof.
  induction nodes as [|n rest IH]; intros prev Hok; [reflexivity|].
  change (runCallback cancelBin prev (n :: rest))
    with (let '(node', prev', result) := cancelBin n prev in
          let '(outs, lst) := runCallback cancelBin node' rest in
          ((prev', result) :: outs, lst)).
  rewrite (cancelBin_okPair n prev (Hok [] prev n rest eq_refl)).
  rewrite IH.
  - rewrite last_cons. reflexivity.
  - intros l1 p x l2 E. apply (Hok (prev :: l1) p x l2). rewrite E. reflexivity.
Qed.

(** X6. The cancellation pass is idempotent: run again on its own result,
    with the dummy spans as it left them, it changes nothing. *)
Theorem binCancellation_idempotent (groups groups1 : list HtmlDomNode)
  (dummyPrev dummyNext dummyPrev1 dummyNext1 : HtmlDomNode) :
  checkPartialGroup dummyNext = false -> isSpace dummyNext = false ->
  binCancellation groups dummyPrev dummyNext
  = (groups1, dummyPrev1, dummyNext1) ->
  binCancellation groups1 dummyPrev1 dummyNext1
  = (groups1, dummyPrev1, dummyNext1).
Proof.
  intros Hp Hs. unfold binCancellation.
  destruct (traverse_eq groups cancelBin dummyPrev dummyNext
              cancelBin_keepsShape (conj Hp Hs))
    as (prev' & r & outs & lst & Hrun & Hr & Hk & Hl & Hlen & ->).
  intros H. injection H as <- <- <-.
  pose proof (runCallback_cancelBin (visited groups ++ [dummyNext]) dummyPrev)
    as Hc.
  rewrite Hrun in Hc. simpl in Hc. destruct Hc as (_ & Hpairs & _ & Hnone).
  inversion Hnone as [|? ? Hr0 _]; subst. simpl in Hr0. subst r.
  simpl placeFront.
  assert (V : visited (writeBack groups outs) = map fst outs).
  { apply writeBack_visited; assumption. }
  destruct (traverse_eq (writeBack groups outs) cancelBin prev' lst
              cancelBin_keepsShape Hl)
    as (p2 & r2 & outs2 & l2 & Hrun2 & _ & _ & _ & _ & ->).
  rewrite runCallback_okPairs in Hrun2.
  - rewrite app_comm_cons, removelast_last, last_last in Hrun2.
    simpl in Hrun2. injection Hrun2 as <- <- <- <-.
    simpl placeFront. rewrite writeBack_unchanged. reflexivity.
  - rewrite V. exact Hpairs.
Qed.

End Build.

(** ** A concrete instance, to run the builder *)

Module Sample.

Record Options := mkOptions {
  tight : bool;
  color : option string;
  level : nat
}.

Definition textOptions : Options := mkOptions false None 6.

Definition sizeOfChildren (children : list (HtmlDomNode Options)) : Q * Q * Q :=
  fold_left (fun '(h, d, m) n =>
               (jsMax (height _ (dataOf _ n)) h,
                jsMax (depth _ (dataOf _ n)) d,
                jsMax (maxFontSize _ (dataOf _ n)) m))
    children (0%Q, 0%Q, 0%Q).

(** Glue widths are named by their macro. *)
Definition spacings (a b : string) : option string :=
  match a, b with
  | "mord", "mbin" | "mbin", "mord" | "mclose", "mbin" | "mbin", "mopen" =>
      Some "mediumspace"
  | "mord", "mrel" | "mrel", "mord" | "mrel", "mopen" | "mclose", "mrel" =>
      Some "thickspace"
  | "mord", "mop" | "mop", "mord" | "mpunct", "mord" => Some "thinspace"
  | _, _ => None
  end.

Definition tightSpacings (a b : string) : option string :=
  match a, b with
  | "mord", "mop" | "mop", "mord" => Some "thinspace"
  | _, _ => None
  end.

Definition symbol (cls : string) (txt : string) (o : Options)
  : HtmlDomNode Options :=
  Node _ (KSymbol txt)
    (mkData _ (if tight o then [cls; "mtight"] else [cls]) []
       (1 # 2) (1 # 5) 1
       (match color o with Some c => [("color", CssText c)] | None => [] end)
       None) [].

Definition makeGlue (space : string) (o : Options) : HtmlDomNode Options :=
  Node _ KSpan
    (mkData _ ["mspace"] [] 0 0 0 [("marginRight", CssText space)] None) [].

Definition delim (d : string) (h dp : Q) (o : Options) (m : Mode)
  (cls : list string) : HtmlDomNode Options :=
  Node _ KSpan (mkData _ (cls ++ ["delimsizing"]) [] h dp 1 [] None)
    [symbol "delim" d o].

Definition sizedDelim (d : string) (n : nat) (o : Options) (m : Mode)
  (cls : list string) : HtmlDomNode Options :=
  delim d (inject_Z (Z.of_nat n)) (1 # 4) o m cls.

(** The registry: letters, and atoms by their family. *)
Definition groupBuilders (type : string)
  : option (ParseNode -> Options -> Result (HtmlDomNode Options)) :=
  match type with
  | "mathord" => Some (fun g o =>
      match g with PLeaf _ _ t => ok (symbol "mord" t o) | _ => throw (Error "mathord") end)
  | "bin" | "rel" | "open" | "close" | "punct" => Some (fun g o =>
      match g with
      | PLeaf fam _ t => ok (symbol ("m" ++ fam) t o)
      | _ => throw (Error "atom")
      end)
  | "spacing" => Some (fun g o => ok (makeGlue "quad" o))
  | _ => None
  end.

Definition withColor (c : string) (o : Options) : Options :=
  mkOptions (tight o) (Some c) (level o).
Definition havingSize (n : nat) (o : Options) : Options :=
  mkOptions (tight o) (color o) n.
Definition havingStyle (s : Style) (o : Options) : Options :=
  mkOptions (match s with SCRIPT | SCRIPTSCRIPT => true | _ => false end)
    (color o) (level o).

(** A definition or theorem of the builder at this instance. *)
Local Notation "'at_sample' f" :=
  (f Options tight color withColor havingSize havingStyle (fun _ => 1%Q) level
     (fun _ _ => ["sizing"]) (fun _ => ["reset-size6"]) sizeOfChildren
     string makeGlue spacings tightSpacings delim sizedDelim groupBuilders)
  (at level 10, f at level 9, only parsing).

Definition buildExpression := at_sample BuildHTML.buildExpression.
Definition htmlBuilder :=
  BuildHTML.htmlBuilder Options tight color withColor havingSize havingStyle
    (fun _ => 1%Q) (fun _ => ["reset-size6"]) sizeOfChildren string makeGlue
    spacings tightSpacings delim sizedDelim groupBuilders.
Definition buildHTML := at_sample BuildHTML.buildHTML.

Definition ord (t : string) : ParseNode := PLeaf "mathord" MathMode t.
Definition bin (t : string) : ParseNode := PLeaf "bin" MathMode t.
Definition rel (t : string) : ParseNode := PLeaf "rel" MathMode t.

(** The atom classes and glue of a built list, for reading results. *)
Definition summary (l : list (HtmlDomNode Options)) : list string :=
  map (fun n =>
         match kindOf _ n, lookup "marginRight" (style _ (dataOf _ n)) with
         | _, Some (CssText s) => s
         | KSymbol t, _ =>
             (t ++ ":" ++ String.concat " " (classes _ (dataOf _ n)))%string
         | KAnchor, _ => "a"
         | _, _ => String.concat " " (classes _ (dataOf _ n))
         end) l.


(** A rendering of a tree that shows its shape, classes and glue. *)
Fixpoint deepSummaryOf (n : HtmlDomNode Options) : string :=
  match n with
  | Node _ k d ch =>
      let inner := String.concat ";" (map deepSummaryOf ch) in
      let cls := String.concat " " (BuildHTML.classes _ d) in
      match k, lookup "marginRight" (style _ d) with
      | _, Some (CssText s) => ("glue:" ++ s)%string
      | KSymbol t, _ => (t ++ ":" ++ cls)%string
      | KAnchor, _ => ("a[" ++ inner ++ "]")%string
      | KFragment, _ => ("f[" ++ inner ++ "]")%string
      | _, _ => ("span:" ++ cls ++ "[" ++ inner ++ "]")%string
      end
  end.

Definition deepSummary (l : list (HtmlDomNode Options)) : list string :=
  map deepSummaryOf l.

Arguments Node {Options}.
Arguments dataOf {Options}.
Arguments kindOf {Options}.
Arguments childrenOf {Options}.
Arguments classes {Options}.
Arguments class0 {Options}.
Arguments isSpace {Options}.
Arguments checkPartialGroup {Options}.
Arguments visited {Options}.
Arguments hasClass {Options}.

Lemma glue_is_space (space : string) (o : Options) :
  isSpace (makeGlue space o) = true /\
  checkPartialGroup (makeGlue space o) = false.
Proof. split; reflexivity. Qed.

(** ["a+b"]: glue on both sides of the binary operator. *)
Example a_plus_b :
  option_map summary
    (match buildExpression [ord "a"; bin "+"; ord "b"] textOptions true
             (None, None) with inr r => Some r | inl _ => None end)
  = Some ["a:mord"; "mediumspace"; "+:mbin"; "mediumspace"; "b:mord"].
Proof. vm_compute. reflexivity. Qed.

(** ["{+b}"]: the operator that starts the group is cancelled. *)
Example plus_b :
  option_map summary
    (match buildExpression [bin "+"; ord "b"] textOptions true
             (None, None) with inr r => Some r | inl _ => None end)
  = Some ["+:mord"; "b:mord"].
Proof. vm_compute. reflexivity. Qed.

(** ["\color{red}{a}+b"]: the same atoms and the same glue as ["a+b"]. *)
Example color_a_plus_b :
  option_map summary
    (match buildExpression [PColor MathMode "red" [ord "a"]; bin "+"; ord "b"]
             textOptions true (None, None) with
     | inr r => Some r | inl _ => None end)
  = Some ["a:mord"; "mediumspace"; "+:mbin"; "mediumspace"; "b:mord"].
Proof. vm_compute. reflexivity. Qed.

Lemma bin_cancellation_witness :
  (forall space o,
      isSpace (makeGlue space o) = true /\
      checkPartialGroup (makeGlue space o) = false) /\
  exists result,
    buildExpression [bin "+"; ord "b"] textOptions true (None, None)
    = inr result /\
    forall n rest,
      visited result = n :: rest ->
      ~ (isStr (class0 n) "mbin" = true /\
         contains binLeftCanceller (Some "leftmost") = true).
Proof.
  split; [exact glue_is_space|].
  eexists. split; [vm_compute; reflexivity|].
  refine (proj1 (proj2 (at_sample bin_cancellation glue_is_space
                          [bin "+"; ord "b"] textOptions (None, None) _ _))).
  vm_compute. reflexivity.
Defined.

Lemma spacing_pass_witness :
  (forall space o,
      isSpace (makeGlue space o) = true /\
      checkPartialGroup (makeGlue space o) = false) /\
  exists result,
    buildExpression [ord "a"; bin "+"; ord "b"] textOptions true (None, None)
    = inr result /\
    glueOptionsOf Options havingSize havingStyle [ord "a"; bin "+"; ord "b"]
      textOptions = textOptions.
Proof.
  split; [exact glue_is_space|].
  eexists. split; [vm_compute; reflexivity|].
  refine (proj2 (proj2 (proj2 (proj2
            (at_sample spacing_pass glue_is_space
               [ord "a"; bin "+"; ord "b"] textOptions (None, None) _ _)))) _ _).
  - vm_compute. reflexivity.
  - intros; discriminate.
  - intros; discriminate.
Defined.

Lemma base_span_strut_witness :
  exists root,
    buildHTML [ord "a"; rel "="; ord "b"] textOptions = inr root /\
    Forall (fun c =>
              isBase Options tight color sizeOfChildren textOptions c \/
              hasClass c "newline" = true \/
              classes (dataOf c) = ["tag"])
      (childrenOf root).
Proof.
  eexists. split; [vm_compute; reflexivity|].
  refine (proj2 (at_sample base_span_strut)
            [ord "a"; rel "="; ord "b"] textOptions _ _).
  vm_compute. reflexivity.
Defined.


Lemma tag_placement_witness :
  exists root,
    buildHTML [PTag TextMode [ord "a"] [ord "1"]] textOptions = inr root /\
    exists children tagChild,
      childrenOf root = children ++ [tagChild] /\
      classes (dataOf tagChild) = ["tag"].
Proof.
  eexists. split; [vm_compute; reflexivity|].
  destruct (at_sample tag_placement TextMode [ord "a"] [ord "1"]
              textOptions _ eq_refl)
    as (children & tagChild & _ & _ & H1 & _ & _ & H4 & _).
  exists children, tagChild. split; [exact H1|exact H4].
Defined.

(** [\color{red}{a}+b]: the passes run over [a], [+], [b] as one list, and
    the glue after [a] is the glue of [mord] and [mbin], as in [a+b]. *)
Lemma color_is_transparent_witness :
  (forall space o,
      isSpace (makeGlue space o) = true /\
      checkPartialGroup (makeGlue space o) = false) /\
  exists result,
    buildExpression [PColor MathMode "red" [ord "a"]; bin "+"; ord "b"]
      textOptions true (None, None)
    = inr result /\
    summary result
    = ["a:mord"; "mediumspace"; "+:mbin"; "mediumspace"; "b:mord"] /\
    exists cancelled dummyPrev dummyNext front1 front2,
      summary cancelled = ["a:mord"; "+:mbin"; "b:mord"] /\
      walk Options result
      = front1
          ++ glueBetween Options string makeGlue spacings tightSpacings
               textOptions dummyPrev
               (nextVisited Options (walk Options cancelled) dummyNext)
          ++ front2
          ++ spaced Options string makeGlue spacings tightSpacings textOptions
               (afterSpaces Options (walk Options cancelled)) dummyNext.
Proof.
  split; [exact glue_is_space|].
  destruct (buildExpression [PColor MathMode "red" [ord "a"]; bin "+"; ord "b"]
              textOptions true (None, None)) as [err|result] eqn:E.
  { vm_compute in E. discriminate. }
  exists result. split; [reflexivity|].
  destruct (proj2 (proj2 (proj2 (proj2 (proj2 (proj2
              (at_sample color_is_transparent glue_is_space MathMode "red"
                 [ord "a"] [bin "+"; ord "b"] textOptions (None, None)))))))
              [] result E)
    as (before & inside & after & cancelled & dp & dn & f1 & f2
        & Hb & Hi & Ha & Hc & _ & _ & _ & Hw & _).
  vm_compute in Hb. injection Hb as <-.
  vm_compute in Hi. injection Hi as <-.
  vm_compute in Ha. injection Ha as <-.
  vm_compute in Hc. injection Hc as <- <- <-.
  vm_compute in E. injection E as <-.
  split; [reflexivity|].
  eexists _, _, _, f1, f2. split; [|exact Hw]. reflexivity.
Defined.

(** ** The traversal and its loop on concrete lists *)

Definition anchor (children : list (HtmlDomNode Options)) : HtmlDomNode Options :=
  Node KAnchor (mkData _ [] [("href", "u")] 0 0 0 [] None) children.

Definition fragment (children : list (HtmlDomNode Options)) : HtmlDomNode Options :=
  Node KFragment (mkData _ [] [] 0 0 0 [] None) children.

Definition sym (cls txt : string) : HtmlDomNode Options := symbol cls txt textOptions.
Definition quad : HtmlDomNode Options := makeGlue "quad" textOptions.

Definition sampleLists : list (list (HtmlDomNode Options)) :=
  [ [sym "mord" "a"; sym "mbin" "+"; sym "mord" "b"];
    [anchor [sym "mord" "a"]; sym "mbin" "+"; sym "mord" "b"];
    [sym "mord" "a"; anchor [sym "mbin" "+"; anchor [sym "mord" "b"]]; quad;
     sym "mrel" "="; sym "mbin" "-"; sym "mord" "c"];
    [quad; anchor [quad; sym "mbin" "+"]; sym "mord" "b"; quad];
    [fragment [quad; fragment [sym "mop" "f"; quad]]; quad;
     anchor [fragment []; sym "mord" "x"]; sym "mpunct" ","];
    [sym "mbin" "+"; sym "mbin" "-"; sym "mrel" "="; sym "mbin" "+"];
    [fragment []; quad];
    [] ].

Definition sampleCallbacks : list (Callback Options) :=
  [ cancelBin Options;
    insertGlue Options string makeGlue spacings tightSpacings textOptions ].

Definition sampleDummies : list (HtmlDomNode Options * HtmlDomNode Options) :=
  [ (sym "leftmost" "", sym "rightmost" "");
    (sym "mord" "", sym "mrel" "");
    (sym "mbin" "", sym "mbin" "") ].

(** On every sample list, with either callback and any of the dummy pairs,
    the traversal and the loop of the source end in the same arrays and the
    same dummies. *)
Example traversal_agrees_with_loop :
  forallb (fun nodes =>
    forallb (fun callback =>
      forallb (fun '(dp, dn) =>
        let '(l1, p1, n1) := traverseNonSpaceNodes Options nodes callback dp dn in
        let '(l2, p2, n2) :=
          traverseNonSpaceNodesLoop Options 200 nodes callback dp dn in
        String.eqb (String.concat ";" (deepSummary (p1 :: l1 ++ [n1])))
                   (String.concat ";" (deepSummary (p2 :: l2 ++ [n2]))))
        sampleDummies) sampleCallbacks) sampleLists
  = true.
Proof. vm_compute. reflexivity. Qed.

(** ** The further properties at the sample *)

Lemma buildHTML_errors_witness :
  buildHTML [PLeaf "nope" MathMode "x"] textOptions
  = inl (unknownType "nope") /\
  builderError Options groupBuilders (unknownType "nope").
Proof.
  split; [vm_compute; reflexivity|].
  refine (at_sample buildHTML_errors [PLeaf "nope" MathMode "x"] textOptions
            _ _).
  vm_compute. reflexivity.
Defined.

Lemma chunks_unbroken_witness :
  Forall (fun e => breaksAfter Options e = false /\
                   hasClass e "newline" = false)
    [sym "mord" "a"; sym "mord" "b"] /\
  chunks Options tight color sizeOfChildren textOptions
    [sym "mord" "a"; sym "mord" "b"] None [] []
  = [buildHTMLUnbreakable Options tight color sizeOfChildren
       [sym "mord" "a"; sym "mord" "b"] textOptions].
Proof.
  assert (H : Forall (fun e => breaksAfter Options e = false /\
                               hasClass e "newline" = false)
                [sym "mord" "a"; sym "mord" "b"]).
  { repeat constructor. }
  split; [exact H|].
  exact (chunks_unbroken Options tight color sizeOfChildren textOptions
           [sym "mord" "a"; sym "mord" "b"] H).
Defined.

Lemma getOutermostNode_spec_witness :
  checkPartialGroup (anchor []) = true /\
  getTypeOfDomTreeAt Options (Some (anchor [sym "mbin" "+"])) (Some leftSide)
  = getTypeOfDomTreeAt Options (Some (sym "mbin" "+")) (Some leftSide).
Proof.
  split; [reflexivity|].
  exact (proj1 (proj2 (getOutermostNode_spec Options) KAnchor
                  (mkData _ [] [("href", "u")] 0 0 0 [] None) []
                  (sym "mbin" "+") eq_refl)).
Defined.

Lemma binCancellation_idempotent_witness :
  checkPartialGroup (sym "rightmost" "") = false /\
  isSpace (sym "rightmost" "") = false /\
  exists groups1 dummyPrev1 dummyNext1,
    binCancellation Options [sym "mbin" "+"; sym "mord" "b"; sym "mbin" "-"]
      (sym "leftmost" "") (sym "rightmost" "")
    = (groups1, dummyPrev1, dummyNext1) /\
    class0 (hd dummyPrev1 groups1) = Some "mord" /\
    binCancellation Options groups1 dummyPrev1 dummyNext1
    = (groups1, dummyPrev1, dummyNext1).
Proof.
  split; [reflexivity|]. split; [reflexivity|].
  eexists _, _, _. split; [vm_compute; reflexivity|].
  split; [reflexivity|].
  refine (binCancellation_idempotent Options
            [sym "mbin" "+"; sym "mord" "b"; sym "mbin" "-"] _
            (sym "leftmost" "") (sym "rightmost" "") _ _
            eq_refl eq_refl _).
  vm_compute. reflexivity.
Defined.

Lemma registry_flat (t : string)
  (builder : ParseNode -> Options -> Result (HtmlDomNode Options))
  (g : ParseNode) (o : Options) (n : HtmlDomNode Options) :
  groupBuilders t = Some builder -> builder g o = inr n ->
  Forall (notFragment Options) (pushOutput Options n).
Proof.
  intros Hb Hn.
  assert (K : kindOf n <> KFragment).
  { unfold groupBuilders in Hb.
    repeat match type of Hb with
           | context [match ?x with _ => _ end] => destruct x
           end;
      try discriminate; injection Hb as <-;
      destruct g; try discriminate; injection Hn as <-; discriminate. }
  destruct n as [k d ch]. unfold pushOutput. simpl in *.
  destruct k; try contradiction; (constructor; [exact K|constructor]).
Qed.


Lemma sizedDelim_flat (d : string) (n : nat) (o : Options) (m : Mode)
  (cls : list string) :
  Forall (notFragment Options) (pushOutput Options (sizedDelim d n o m cls)).
Proof. constructor; [discriminate|constructor]. Qed.

Lemma buildExpression_no_fragment_witness :
  (forall space o,
      isSpace (makeGlue space o) = true /\
      checkPartialGroup (makeGlue space o) = false) /\
  (forall t builder g o n,
      groupBuilders t = Some builder -> builder g o = inr n ->
      Forall (notFragment Options) (pushOutput Options n)) /\
  (forall d n o m cls,
      Forall (notFragment Options)
        (pushOutput Options (sizedDelim d n o m cls))) /\
  exists result,
    buildExpression
      [PColor MathMode "red" [ord "a"; PColor MathMode "blue" [bin "+"]];
       ord "b"] textOptions true (None, None)
    = inr result /\
    Forall (fun n => kindOf n <> KFragment) result.
Proof.
  split; [exact glue_is_space|]. split; [exact registry_flat|].
  split; [exact sizedDelim_flat|].
  eexists. split; [vm_compute; reflexivity|].
  refine (at_sample buildExpression_no_fragment glue_is_space registry_flat
            sizedDelim_flat
            [PColor MathMode "red" [ord "a"; PColor MathMode "blue" [bin "+"]];
             ord "b"] textOptions true (None, None) _ _).
  vm_compute. reflexivity.
Defined.


End Sample.

End BuildHTML.

(* ------------------------------------------------------------------ *)
(** * Markup of the visual tree (domTree.ts, tree.ts) *)

Module DomTreeMarkup.

Local Open Scope string_scope.

Definition quoted (s : string) : string :=
  String DoubleQuote (s ++ String DoubleQuote "").

(** [createClass(classes)]: the non-empty classes joined with spaces. *)
Definition createClass (classes : list string) : string :=
  String.concat " " (filter (fun cls => negb (String.eqb cls "")) classes).

Section ToMarkup.

(** [utils.escape], [utils.hyphenate], the path table of svgGeometry and
    the conversion of a number to a string are not part of the sources at
    hand. *)
Variable escape : string -> string.
Variable hyphenate : string -> string.
Variable path : string -> string.
Variable numberToString : Q -> string.

(** The nodes that have a [toMarkup]; style values are kept as the strings
    that the template literals make of them. *)
Inductive VirtualNode :=
| Span (classes : list string) (style attributes : list (string * string))
       (children : list VirtualNode)
| Anchor (classes : list string) (style attributes : list (string * string))
         (children : list VirtualNode)
| SymbolNode (text : string) (italic : Q) (classes : list string)
             (style : list (string * string))
| SvgNode (attributes : list (string * string)) (children : list VirtualNode)
| PathNode (pathName : string) (alternate : option string)
| LineNode (attributes : list (string * string))
| DocumentFragment (children : list VirtualNode).

(** The loop over the own properties of [style]. *)
Fixpoint styleString (st : list (string * string)) : string :=
  match st with
  | [] => ""
  | (k, v) :: rest => hyphenate k ++ ":" ++ v ++ ";" ++ styleString rest
  end.

(** The loop over [attributes], double-quoted and escaped. *)
Fixpoint attributeString (attrs : list (string * string)) : string :=
  match attrs with
  | [] => ""
  | (k, v) :: rest => " " ++ k ++ "=" ++ quoted (escape v) ++ attributeString rest
  end.

(** The loop over the attributes of an SVG node: single quotes, no escape. *)
Fixpoint svgAttributeString (attrs : list (string * string)) : string :=
  match attrs with
  | [] => ""
  | (k, v) :: rest => " " ++ k ++ "='" ++ v ++ "'" ++ svgAttributeString rest
  end.

(** The shared [toMarkup(tagName)], given the markup of the children. *)
Definition elementMarkup (tagName : string) (classes : list string)
  (style attributes : list (string * string)) (inner : string) : string :=
  let markup := "<" ++ tagName in
  let markup :=
    match classes with
    | [] => markup
    | _ => markup ++ " class=" ++ quoted (escape (createClass classes))
    end in
  let styles := styleString style in
  let markup :=
    if String.eqb styles "" then markup
    else markup ++ " style=" ++ quoted (escape styles) in
  let markup := markup ++ attributeString attributes in
  markup ++ ">" ++ inner ++ "</" ++ tagName ++ ">".

(** [SymbolNode.toMarkup]. *)
Definition symbolMarkup (text : string) (italic : Q) (classes : list string)
  (style : list (string * string)) : string :=
  let markup := "<span" in
  let '(needsSpan, markup) :=
    match classes with
    | [] => (false, markup)
    | _ => (true, markup ++ " class=" ++ quoted (escape (createClass classes)))
    end in
  let styles :=
    if Qle_bool italic 0 then ""
    else "margin-right:" ++ numberToString italic ++ "em;" in
  let styles := styles ++ styleString style in
  let '(needsSpan, markup) :=
    if String.eqb styles "" then (needsSpan, markup)
    else (true, markup ++ " style=" ++ quoted (escape styles)) in
  let escaped := escape text in
  if needsSpan then markup ++ ">" ++ escaped ++ "</span>" else escaped.

(** [toMarkup()] of each class. *)
Fixpoint toMarkup (n : VirtualNode) : string :=
  match n with
  | Span classes style attributes children =>
      elementMarkup "span" classes style attributes
        (String.concat "" (map toMarkup children))
  | Anchor classes style attributes children =>
      elementMarkup "a" classes style attributes
        (String.concat "" (map toMarkup children))
  | SymbolNode txt italic classes style =>
      symbolMarkup txt italic classes style
  | SvgNode attributes children =>
      "<svg" ++ svgAttributeString attributes ++ ">"
        ++ String.concat "" (map toMarkup children) ++ "</svg>"
  | PathNode pathName alternate =>
      match alternate with
      | Some alt =>
          if String.eqb alt "" then "<path d='" ++ path pathName ++ "'/>"
          else "<path d='" ++ alt ++ "'/>"
      | None => "<path d='" ++ path pathName ++ "'/>"
      end
  | LineNode attributes => "<line" ++ svgAttributeString attributes ++ "/>"
  | DocumentFragment children => String.concat "" (map toMarkup children)
  end.

Lemma concat_empty_app (l1 l2 : list string) :
  String.concat "" (l1 ++ l2) = String.concat "" l1 ++ String.concat "" l2.
Proof.
  induction l1 as [|x rest IH]; [reflexivity|].
  destruct rest as [|y rest'].
  - simpl. destruct l2; simpl; [|reflexivity].
    clear. induction x; simpl; congruence.
  - change (String.concat "" ((x :: y :: rest') ++ l2))
      with (x ++ "" ++ String.concat "" ((y :: rest') ++ l2)).
    rewrite IH. simpl.
    clear. revert rest'. induction x as [|c x IHx]; intros rest'; simpl.
    + reflexivity.
    + f_equal. apply IHx.
Qed.

Lemma concat_empty_cons (x : string) (l : list string) :
  String.concat "" (x :: l) = x ++ String.concat "" l.
Proof. apply (concat_empty_app [x] l). Qed.

Lemma append_nil_r (s : string) : s ++ "" = s.
Proof. induction s; simpl; congruence. Qed.

Lemma append_assoc (a b c : string) : (a ++ b) ++ c = a ++ b ++ c.
Proof. induction a; simpl; congruence. Qed.

Lemma append_eq_empty (a b : string) : a ++ b = "" -> a = "" /\ b = "".
Proof. destruct a; simpl; [auto|discriminate]. Qed.

(** X9. A fragment has no markup of its own: its markup is the markup of
    its children one after the other, so the markup of a span, an anchor or
    a fragment does not change when a child fragment is replaced by its
    children. *)
Theorem fragment_markup_transparent (before inside after : list VirtualNode) :
  toMarkup (DocumentFragment (before ++ DocumentFragment inside :: after))
  = toMarkup (DocumentFragment (before ++ inside ++ after)) /\
  (forall classes style attributes,
      toMarkup (Span classes style attributes
                  (before ++ DocumentFragment inside :: after))
      = toMarkup (Span classes style attributes (before ++ inside ++ after)) /\
      toMarkup (Anchor classes style attributes
                  (before ++ DocumentFragment inside :: after))
      = toMarkup (Anchor classes style attributes (before ++ inside ++ after))).
Proof.
  assert (E : String.concat ""
                (map toMarkup (before ++ DocumentFragment inside :: after))
              = String.concat "" (map toMarkup (before ++ inside ++ after))).
  { rewrite !map_app, !concat_empty_app. simpl map.
    rewrite concat_empty_cons. reflexivity. }
  split; [exact E|].
  intros classes style attributes. simpl. rewrite E. split; reflexivity.
Qed.

(** X10. A symbol is wrapped in a span only if it is needed: without
    classes, styles and positive italic correction its markup is the
    escaped text alone; with any of them it is one [span] element around the
    escaped text. *)
Theorem symbol_markup_span (text : string) (italic : Q)
  (classes : list string) (style : list (string * string)) :
  (classes = [] -> (italic <= 0)%Q -> style = [] ->
   toMarkup (SymbolNode text italic classes style) = escape text) /\
  (classes <> [] \/ (0 < italic)%Q \/ style <> [] ->
   exists attrs,
     toMarkup (SymbolNode text italic classes style)
     = "<span" ++ attrs ++ ">" ++ escape text ++ "</span>").
Proof.
  split.
  - intros -> Hi ->. simpl. unfold symbolMarkup.
    rewrite (proj2 (Qle_bool_iff italic 0) Hi). reflexivity.
  - intros H. simpl. unfold symbolMarkup.
    set (styles := (if Qle_bool italic 0 then ""
                    else "margin-right:" ++ numberToString italic ++ "em;")
                   ++ styleString style).
    destruct classes as [|c cs].
    + assert (Hs : String.eqb styles "" = false).
      { apply String.eqb_neq. intros Hs. unfold styles in Hs.
        apply append_eq_empty in Hs. destruct Hs as [H1 H2].
        destruct H as [H|[H|H]]; [congruence| |].
        - destruct (Qle_bool italic 0) eqn:Hle; [|discriminate].
          apply Qle_bool_iff in Hle. apply (Qlt_not_le _ _ H). exact Hle.
        - destruct style as [|[k v] rest]; [congruence|].
          simpl in H2. apply append_eq_empty in H2. destruct H2 as [_ H2].
          discriminate. }
      rewrite Hs. exists (" style=" ++ quoted (escape styles)).
      rewrite append_assoc. reflexivity.
    + destruct (String.eqb styles "").
      * exists (" class=" ++ quoted (escape (createClass (c :: cs)))).
        rewrite append_assoc. reflexivity.
      * exists (" class=" ++ quoted (escape (createClass (c :: cs)))
                ++ " style=" ++ quoted (escape styles)).
        rewrite !append_assoc. reflexivity.
Qed.

(** X18. Empty classes are removed from the class name, wherever they
    stand; but the [class] attribute is written as soon as the list of
    classes is not empty, so an element whose classes are all empty gets
    the attribute with the escaped empty string. *)
Theorem createClass_drops_empty (l1 l2 : list string) (n : nat)
  (tagName inner : string) :
  createClass (l1 ++ "" :: l2) = createClass (l1 ++ l2) /\
  createClass (repeat "" n) = "" /\
  elementMarkup tagName (repeat "" (S n)) [] [] inner
  = "<" ++ tagName ++ " class=" ++ quoted (escape "") ++ ">" ++ inner
    ++ "</" ++ tagName ++ ">".
Proof.
  assert (R : forall k, filter (fun cls => negb (String.eqb cls ""))
                          (repeat "" k) = []).
  { induction k as [|k IH]; [reflexivity|]. simpl. exact IH. }
  split; [|split].
  - unfold createClass. rewrite !filter_app. reflexivity.
  - unfold createClass. rewrite R. reflexivity.
  - unfold elementMarkup.
    change (repeat "" (S n)) with ("" :: repeat "" n) at 1.
    cbv beta iota zeta.
    replace (createClass (repeat "" (S n))) with "".
    + simpl. rewrite ?append_assoc. simpl. rewrite ?append_assoc.
      reflexivity.
    + unfold createClass. rewrite R. reflexivity.
Qed.


End ToMarkup.

Lemma symbol_markup_span_witness :
  @nil string = [] /\ (0 <= 0)%Q /\ @nil (string * string) = [] /\
  toMarkup (fun s => s) (fun s => s) (fun s => s) (fun _ => "1")
    (SymbolNode "x" 0 [] [])
  = "x".
Proof.
  split; [reflexivity|]. split; [apply Qle_refl|]. split; [reflexivity|].
  exact (proj1 (symbol_markup_span (fun s => s) (fun s => s) (fun s => s)
                  (fun _ => "1") "x" 0 [] [])
           eq_refl (Qle_refl 0) eq_refl).
Defined.


End DomTreeMarkup.

(* ------------------------------------------------------------------ *)
(** * The delimiter functions (functions/delimsizing.ts) *)

Module Delimsizing.

Local Open Scope string_scope.

(** The table [delimiterSizes]: the class and the size of each sizing
    command; [None] where the object has no such key. *)
Definition delimiterSizes (funcName : string) : option (string * nat) :=
  match funcName with
  | "\bigl" => Some ("mopen", 1)
  | "\Bigl" => Some ("mopen", 2)
  | "\biggl" => Some ("mopen", 3)
  | "\Biggl" => Some ("mopen", 4)
  | "\bigr" => Some ("mclose", 1)
  | "\Bigr" => Some ("mclose", 2)
  | "\biggr" => Some ("mclose", 3)
  | "\Biggr" => Some ("mclose", 4)
  | "\bigm" => Some ("mrel", 1)
  | "\Bigm" => Some ("mrel", 2)
  | "\biggm" => Some ("mrel", 3)
  | "\Biggm" => Some ("mrel", 4)
  | "\big" => Some ("mord", 1)
  | "\Big" => Some ("mord", 2)
  | "\bigg" => Some ("mord", 3)
  | "\Bigg" => Some ("mord", 4)
  | _ => None
  end.

(** The [names] under which the [delimsizing] function is defined. *)
Definition names : list string :=
  ["\bigl"; "\Bigl"; "\biggl"; "\Biggl";
   "\bigr"; "\Bigr"; "\biggr"; "\Biggr";
   "\bigm"; "\Bigm"; "\biggm"; "\Biggm";
   "\big"; "\Big"; "\bigg"; "\Bigg"].

Definition delimiters : list string :=
  ["("; "\lparen"; ")"; "\rparen";
   "["; "\lbrack"; "]"; "\rbrack";
   "\{"; "\lbrace"; "\}"; "\rbrace";
   "\lfloor"; "\rfloor"; "⌊"; "⌋";
   "\lceil"; "\rceil"; "⌈"; "⌉";
   "<"; ">"; "\langle"; "⟨"; "\rangle"; "⟩"; "\lt"; "\gt";
   "\lvert"; "\rvert"; "\lVert"; "\rVert";
   "\lgroup"; "\rgroup"; "⟮"; "⟯";
   "\lmoustache"; "\rmoustache"; "⎰"; "⎱";
   "/"; "\backslash";
   "|"; "\vert"; "\|"; "\Vert";
   "\uparrow"; "\Uparrow";
   "\downarrow"; "\Downarrow";
   "\updownarrow"; "\Updownarrow";
   "."].

(** [node.text]; [None] is [undefined], on a node without the field. *)
Definition textOf (n : ParseNode) : option string :=
  match n with
  | PLeaf _ _ t => Some t
  | _ => None
  end.

(** The [delimsizing] parse node. *)
Record delimsizing := mkDelimsizing {
  groupMode : Mode;
  size : nat;
  mclass : string;
  delim : option string
}.

(** A [MathNode] of mathMLTree with its text children. *)
Record MathNode (TextNode : Type) := mkMathNode {
  type : string;
  children : list TextNode;
  attributes : list (string * string)
}.
Arguments mkMathNode {TextNode}.
Arguments type {TextNode}.
Arguments children {TextNode}.
Arguments attributes {TextNode}.

Section Handlers.

(** [NON_ATOMS] of symbols.ts, [JSON.stringify] and [mml.makeText] are not
    part of the sources at hand. *)
Variable NON_ATOMS : string -> bool.
Variable stringify : ParseNode -> string.
Variable TextNode : Type.
Variable makeText : option string -> Mode -> TextNode.

(** [checkSymbolNodeType(node)] of parseNode.ts. *)
Definition checkSymbolNodeType (node : option ParseNode) : option ParseNode :=
  match node with
  | Some n =>
      if String.eqb (nodeType n) "atom" || NON_ATOMS (nodeType n)
      then Some n else None
  | None => None
  end.

Definition invalidDelimiter (arg : ParseNode) (symDelim : option ParseNode)
  (funcName : string) : string :=
  "Invalid delimiter: '" ++
  match symDelim with
  | Some s => match textOf s with Some t => t | None => "undefined" end
  | None => stringify arg
  end ++ "' after '" ++ funcName ++ "'".

(** [checkDelimiter(delim, context)]. *)
Definition checkDelimiter (arg : ParseNode) (funcName : string)
  : Result ParseNode :=
  let symDelim := checkSymbolNodeType (Some arg) in
  match symDelim with
  | Some s =>
      if BuildHTML.contains delimiters (textOf s) then ok s
      else throw (ParseError (invalidDelimiter arg symDelim funcName))
  | None => throw (ParseError (invalidDelimiter arg symDelim funcName))
  end.

Definition undefinedProperty : string :=
  "Cannot read properties of undefined".

(** The handler of the sizing commands; reading [.size] of a missing table
    entry is a [TypeError]. *)
Definition handler (funcName : string) (parserMode : Mode) (arg : ParseNode)
  : Result delimsizing :=
  d <- checkDelimiter arg funcName ;;
  match delimiterSizes funcName with
  | Some (cls, n) => ok (mkDelimsizing parserMode n cls (textOf d))
  | None => throw (TypeError undefinedProperty)
  end.

(** [node.setAttribute(name, value)]. *)
Definition setAttribute (name value : string) (node : MathNode TextNode)
  : MathNode TextNode :=
  mkMathNode (type node) (children node)
    (HrefMathML.assign name value (attributes node)).

(** The MathML builder of the sizing commands. *)
Definition mathmlBuilder (group : delimsizing) : MathNode TextNode :=
  let children :=
    if negb (BuildHTML.isStr (delim group) ".")
    then [makeText (delim group) (groupMode group)] else [] in
  let node := mkMathNode "mo" children [] in
  if String.eqb (mclass group) "mopen" || String.eqb (mclass group) "mclose"
  then setAttribute "fence" "true" node
  else setAttribute "fence" "false" node.

(** ** The parser as the handlers of [\left] and [\middle] use it *)

(** The fields [mode] and [leftrightDepth] of the parser, and the rest of
    its state. *)
Variable ParserRest : Type.

Record Parser := mkParser {
  mode : Mode;
  leftrightDepth : Z;
  rest : ParserRest
}.

(** A method of the parser: it may throw, and it leaves the parser in some
    state either way. *)
Definition M (A : Type) : Type := Parser -> Result A * Parser.

Definition ret {A} (a : A) : M A := fun p => (inr a, p).
Definition raise {A} (e : JsError) : M A := fun p => (inl e, p).
Definition seq {A B} (c : M A) (k : A -> M B) : M B :=
  fun p =>
    match c p with
    | (inl e, p') => (inl e, p')
    | (inr a, p') => k a p'
    end.
Definition lift {A} (r : Result A) : M A := fun p => (r, p).
Definition modify (f : Parser -> Parser) : M unit := fun p => (inr tt, f p).
Definition get : M Parser := fun p => (inr p, p).

(** What [parseFunction] returns: the node of [\right], or a node of
    another type. *)
Inductive AnyParseNode :=
| LeftrightRight (m : Mode) (d : option string)
| Other (n : ParseNode).

Definition typeOf (n : AnyParseNode) : string :=
  match n with
  | LeftrightRight _ _ => "leftright-right"
  | Other n => nodeType n
  end.

(** [node.delim]. *)
Definition delimOf (n : AnyParseNode) : option string :=
  match n with
  | LeftrightRight _ d => d
  | Other (PMiddle _ d) => Some d
  | Other _ => None
  end.

Variable parseExpression : bool -> M (list ParseNode).
Variable expect : string -> bool -> M unit.
Variable parseFunction : M (option AnyParseNode).

(** [assertNodeType(node, type)] of parseNode.ts. *)
Definition assertNodeType (node : option AnyParseNode) (t : string)
  : Result AnyParseNode :=
  match node with
  | Some n =>
      if String.eqb (typeOf n) t then ok n
      else throw (Error ("Expected node of type " ++ t
                         ++ ", but got node of type " ++ typeOf n))
  | None =>
      throw (Error ("Expected node of type " ++ t ++ ", but got undefined"))
  end.

(** The [leftright] parse node as the handler makes it. *)
Record leftright := mkLeftright {
  lrMode : Mode;
  body : list ParseNode;
  left : option string;
  right : option string
}.

Definition setDepth (d : Z) (p : Parser) : Parser :=
  mkParser (mode p) d (rest p).

(** The handler of [\right]. *)
Definition rightHandler (funcName : string) (arg : ParseNode)
  : M AnyParseNode :=
  seq get (fun p =>
  seq (lift (checkDelimiter arg funcName)) (fun d =>
  ret (LeftrightRight (mode p) (textOf d)))).

(** The handler of [\left]. *)
Definition leftHandler (funcName : string) (arg : ParseNode) : M leftright :=
  seq (lift (checkDelimiter arg funcName)) (fun d =>
  seq (modify (fun p => setDepth (leftrightDepth p + 1) p)) (fun _ =>
  seq (parseExpression false) (fun body =>
  seq (modify (fun p => setDepth (leftrightDepth p - 1) p)) (fun _ =>
  seq (expect "\right" false) (fun _ =>
  seq parseFunction (fun f =>
  seq (lift (assertNodeType f "leftright-right")) (fun r =>
  seq get (fun p =>
  ret (mkLeftright (mode p) body (textOf d) (delimOf r)))))))))).

Definition middleWithoutLeft : string := "\middle without preceding \left".

(** The [middle] parse node as the handler makes it. *)
Record middle := mkMiddle {
  middleMode : Mode;
  middleDelim : option string
}.

(** The handler of [\middle]. *)
Definition middleHandler (funcName : string) (arg : ParseNode) : M middle :=
  seq (lift (checkDelimiter arg funcName)) (fun d =>
  seq get (fun p =>
  if Z.eqb (leftrightDepth p) 0 then raise (ParseError middleWithoutLeft)
  else ret (mkMiddle (mode p) (textOf d)))).

Lemma contains_In (l : list string) (t : option string) :
  BuildHTML.contains l t = true -> exists s, t = Some s /\ In s l.
Proof.
  destruct t as [s|]; simpl; [|discriminate].
  intros H. apply existsb_exists in H. destruct H as (x & Hx & E).
  apply String.eqb_eq in E. subst x. eauto.
Qed.

Lemma checkDelimiter_ok (arg d : ParseNode) (funcName : string) :
  checkDelimiter arg funcName = inr d ->
  d = arg /\ exists t, textOf arg = Some t /\ In t delimiters.
Proof.
  unfold checkDelimiter, checkSymbolNodeType.
  destruct (String.eqb (nodeType arg) "atom" || NON_ATOMS (nodeType arg));
    [|discriminate].
  destruct (BuildHTML.contains delimiters (textOf arg)) eqn:E; [|discriminate].
  intros H. injection H as <-. split; [reflexivity|].
  apply contains_In. exact E.
Qed.

Lemma checkDelimiter_error (arg : ParseNode) (funcName : string) (e : JsError) :
  checkDelimiter arg funcName = inl e -> isParseError e = true.
Proof.
  unfold checkDelimiter, checkSymbolNodeType.
  destruct (String.eqb (nodeType arg) "atom" || NON_ATOMS (nodeType arg)).
  - destruct (BuildHTML.contains delimiters (textOf arg)); [discriminate|].
    intros H. injection H as <-. reflexivity.
  - intros H. injection H as <-. reflexivity.
Qed.

(** The last character of a command name. *)
Fixpoint lastLetter (s : string) : option ascii :=
  match s with
  | EmptyString => None
  | String c EmptyString => Some c
  | String _ r => lastLetter r
  end.

Definition isFence (funcName : string) : bool :=
  match lastLetter funcName with
  | Some c => Ascii.eqb c "l" || Ascii.eqb c "r"
  | None => false
  end.

(** X12. Under each of its sixteen names the sizing handler fails only
    with the [ParseError] of [checkDelimiter], never on the table lookup;
    its node has the text of the argument as delimiter, a delimiter of the
    list, a size from 1 to 4 and one of the four classes, and its MathML
    node has the single attribute [fence], ["true"] exactly for the names
    in [l] and [r], and no child exactly for the delimiter ["."]. *)
Theorem delimsizing_handler_spec (funcName : string) (parserMode : Mode)
  (arg : ParseNode) :
  In funcName names ->
  match handler funcName parserMode arg with
  | inl e => checkDelimiter arg funcName = inl e /\ isParseError e = true
  | inr g =>
      checkDelimiter arg funcName = inr arg /\
      groupMode g = parserMode /\
      delim g = textOf arg /\
      (exists t, delim g = Some t /\ In t delimiters) /\
      1 <= size g <= 4 /\
      In (mclass g) ["mopen"; "mclose"; "mrel"; "mord"] /\
      attributes (mathmlBuilder g)
      = [("fence", if isFence funcName then "true" else "false")] /\
      (children (mathmlBuilder g) = [] <-> delim g = Some ".")
  end.
Proof.
  intros Hn. unfold handler, bind.
  destruct (checkDelimiter arg funcName) as [e|d] eqn:E.
  - split; [reflexivity|]. eapply checkDelimiter_error. exact E.
  - destruct (checkDelimiter_ok _ _ _ E) as (-> & t & Ht & Hin).
    assert (K : forall cls n,
               In cls ["mopen"; "mclose"; "mrel"; "mord"] ->
               1 <= n <= 4 ->
               (String.eqb cls "mopen" || String.eqb cls "mclose")
               = isFence funcName ->
               let g := mkDelimsizing parserMode n cls (textOf arg) in
               inr arg = inr (B := ParseNode) (A := JsError) arg /\
               groupMode g = parserMode /\
               delim g = textOf arg /\
               (exists t, delim g = Some t /\ In t delimiters) /\
               1 <= size g <= 4 /\
               In (mclass g) ["mopen"; "mclose"; "mrel"; "mord"] /\
               attributes (mathmlBuilder g)
               = [("fence", if isFence funcName then "true" else "false")] /\
               (children (mathmlBuilder g) = [] <-> delim g = Some ".")).
    { intros cls n Hc Hs Hf g. subst g. simpl.
      split; [reflexivity|]. split; [reflexivity|]. split; [reflexivity|].
      split; [eauto|]. split; [exact Hs|]. split; [exact Hc|].
      unfold mathmlBuilder. simpl. rewrite Hf, Ht. simpl. split.
      - destruct (isFence funcName); reflexivity.
      - destruct (String.eqb t ".") eqn:Et.
        + apply String.eqb_eq in Et. subst t.
          destruct (isFence funcName); simpl; split; reflexivity.
        + apply String.eqb_neq in Et.
          destruct (isFence funcName); simpl; split; intros H;
            try discriminate; injection H as ->; contradiction. }
    simpl in Hn.
    repeat (destruct Hn as [<-|Hn];
            [apply K; simpl; auto 6; try lia; reflexivity|]).
    contradiction.
Qed.

Lemma leftHandler_eq (funcName : string) (arg : ParseNode) (p : Parser) :
  leftHandler funcName arg p
  = match checkDelimiter arg funcName with
    | inl e => (inl e, p)
    | inr d =>
        match parseExpression false (setDepth (leftrightDepth p + 1) p) with
        | (inl e, p1) => (inl e, p1)
        | (inr b, p1) =>
            match expect "\right" false
                    (setDepth (leftrightDepth p1 - 1) p1) with
            | (inl e, p3) => (inl e, p3)
            | (inr _, p3) =>
                match parseFunction p3 with
                | (inl e, p4) => (inl e, p4)
                | (inr f, p4) =>
                    match assertNodeType f "leftright-right" with
                    | inl e => (inl e, p4)
                    | inr r =>
                        (inr (mkLeftright (mode p4) b (textOf d) (delimOf r)),
                         p4)
                    end
                end
            end
        end
    end.
Proof.
  unfold leftHandler, seq, lift, modify, get, ret.
  destruct (checkDelimiter arg funcName); [reflexivity|].
  destruct (parseExpression false _) as [[e|b] p1]; [reflexivity|].
  destruct (expect "\right" false _) as [[e|u] p3]; [reflexivity|].
  destruct (parseFunction p3) as [[e|f] p4]; [reflexivity|].
  destruct (assertNodeType f "leftright-right"); reflexivity.
Qed.

(** X13. The [\left] handler keeps the invariant of [leftrightDepth] that
    it needs of the methods of the parser, so the invariant holds of nested
    groups: when they leave the counter as it was where they succeed and
    never lower it where they fail ([expect] never touches it), so does the
    handler. The body is parsed one level deeper, where a [\middle] with a
    delimiter of the list is accepted. The counter is lowered again only
    after the body has been parsed: an error of the body is passed on with
    the parser as the body left it, at least one level above the start. An
    invalid delimiter fails before the parser is touched. *)
Theorem leftHandler_depth (funcName : string) (arg : ParseNode) (p : Parser) :
  (forall b q l q',
      parseExpression b q = (inr l, q') ->
      leftrightDepth q' = leftrightDepth q) ->
  (forall b q e q',
      parseExpression b q = (inl e, q') ->
      (leftrightDepth q <= leftrightDepth q')%Z) ->
  (forall s b q, leftrightDepth (snd (expect s b q)) = leftrightDepth q) ->
  (forall q f q',
      parseFunction q = (inr f, q') -> leftrightDepth q' = leftrightDepth q) ->
  (forall q e q',
      parseFunction q = (inl e, q') ->
      (leftrightDepth q <= leftrightDepth q')%Z) ->
  let inner := setDepth (leftrightDepth p + 1) p in
  let r := leftHandler funcName arg p in
  (forall node, fst r = inr node -> leftrightDepth (snd r) = leftrightDepth p) /\
  (forall e, fst r = inl e -> (leftrightDepth p <= leftrightDepth (snd r))%Z) /\
  match checkDelimiter arg funcName with
  | inl e => r = (inl e, p)
  | inr _ =>
      ((0 <= leftrightDepth p)%Z ->
       forall name arg' d,
         checkDelimiter arg' name = inr d ->
         middleHandler name arg' inner
         = (inr (mkMiddle (mode p) (textOf arg')), inner)) /\
      match parseExpression false inner with
      | (inl e, p1) =>
          r = (inl e, p1) /\ (leftrightDepth p + 1 <= leftrightDepth p1)%Z
      | (inr b, p1) =>
          leftrightDepth p1 = (leftrightDepth p + 1)%Z /\
          forall node,
            fst r = inr node ->
            body node = b /\ left node = textOf arg /\
            exists f, fst (parseFunction
                             (snd (expect "\right" false
                                     (setDepth (leftrightDepth p1 - 1) p1))))
                      = inr (Some f) /\
                      typeOf f = "leftright-right" /\ right node = delimOf f
      end
  end.
Proof.
  intros Hpe Hpe' Hex Hpf Hpf' inner r. unfold r. rewrite !leftHandler_eq.
  destruct (checkDelimiter arg funcName) as [e|d] eqn:E.
  { cbn [fst snd]. split; [intros node H; discriminate|].
    split; [intros e' _; lia|reflexivity]. }
  destruct (checkDelimiter_ok _ _ _ E) as (-> & t & Ht & Hin).
  fold inner.
  assert (Hin1 : leftrightDepth inner = (leftrightDepth p + 1)%Z) by reflexivity.
  assert (M : (0 <= leftrightDepth p)%Z ->
              forall name arg' d,
                checkDelimiter arg' name = inr d ->
                middleHandler name arg' inner
                = (inr (mkMiddle (mode p) (textOf arg')), inner)).
  { intros Hd name arg' d' E'.
    destruct (checkDelimiter_ok _ _ _ E') as (-> & _).
    unfold middleHandler, seq, lift, get. rewrite E'.
    destruct (Z.eqb_spec (leftrightDepth inner) 0) as [Hz|_]; [|reflexivity].
    rewrite Hin1 in Hz. lia. }
  destruct (parseExpression false inner) as [[e|b] p1] eqn:E1.
  { pose proof (Hpe' _ _ _ _ E1) as H1. rewrite Hin1 in H1. cbn [fst snd].
    split; [intros node H; discriminate|]. split; [intros e' _; lia|].
    split; [exact M|]. split; [reflexivity|exact H1]. }
  pose proof (Hpe _ _ _ _ E1) as H1. rewrite Hin1 in H1.
  set (p2 := setDepth (leftrightDepth p1 - 1) p1).
  assert (H2 : leftrightDepth p2 = leftrightDepth p).
  { unfold p2. cbn [setDepth leftrightDepth]. lia. }
  pose proof (Hex "\right" false p2) as H3.
  destruct (expect "\right" false p2) as [[e|u] p3] eqn:E3; cbn [snd] in H3.
  { cbn [fst snd]. split; [intros node H; discriminate|].
    split; [intros e' _; lia|]. split; [exact M|]. split; [exact H1|].
    intros node H; discriminate. }
  destruct (parseFunction p3) as [[e|f] p4] eqn:E4.
  { pose proof (Hpf' _ _ _ E4) as H4. cbn [fst snd].
    split; [intros node H; discriminate|].
    split; [intros e' _; lia|]. split; [exact M|]. split; [exact H1|].
    intros node H; discriminate. }
  pose proof (Hpf _ _ _ E4) as H4.
  destruct (assertNodeType f "leftright-right") as [e|rn] eqn:E5.
  { cbn [fst snd]. split; [intros node H; discriminate|].
    split; [intros e' _; lia|]. split; [exact M|]. split; [exact H1|].
    intros node H; discriminate. }
  cbn [fst snd]. split; [intros node _; lia|].
  split; [intros e' H; discriminate|]. split; [exact M|]. split; [exact H1|].
  intros node Hq. injection Hq as <-. cbn [body left right].
  split; [reflexivity|]. split; [reflexivity|].
  unfold assertNodeType in E5.
  destruct f as [f|]; [|discriminate].
  destruct (String.eqb_spec (typeOf f) "leftright-right") as [Hty|];
    [|discriminate].
  injection E5 as <-. exists f.
  split; [|split; [exact Hty|reflexivity]].
  cbn [snd]. rewrite E4. reflexivity.
Qed.

(** X14. [\middle] checks the delimiter before the depth: its errors are
    the [ParseError] of [checkDelimiter] or, for a delimiter of the list at
    depth 0, the [ParseError] of a missing [\left]; otherwise it returns a
    node in the mode of the parser whose delimiter is the text of the
    argument, a delimiter of the list; the parser is left untouched in each
    case. *)
Theorem middleHandler_spec (funcName : string) (arg : ParseNode) (p : Parser) :
  match middleHandler funcName arg p with
  | (inl e, p') =>
      p' = p /\ isParseError e = true /\
      (checkDelimiter arg funcName = inl e \/
       (checkDelimiter arg funcName = inr arg /\ leftrightDepth p = 0%Z /\
        e = ParseError middleWithoutLeft))
  | (inr m, p') =>
      p' = p /\ checkDelimiter arg funcName = inr arg /\
      leftrightDepth p <> 0%Z /\ middleMode m = mode p /\
      middleDelim m = textOf arg /\
      exists t, textOf arg = Some t /\ In t delimiters
  end.
Proof.
  unfold middleHandler, seq, lift, get.
  destruct (checkDelimiter arg funcName) as [e|d] eqn:E.
  - split; [reflexivity|]. split; [|left; reflexivity].
    eapply checkDelimiter_error. exact E.
  - destruct (checkDelimiter_ok _ _ _ E) as (-> & t & Ht & Hin).
    destruct (Z.eqb_spec (leftrightDepth p) 0) as [Hz|Hz]; simpl.
    + split; [reflexivity|]. split; [reflexivity|]. right. auto.
    + split; [reflexivity|]. split; [reflexivity|]. split; [exact Hz|].
      split; [reflexivity|]. split; [reflexivity|]. eauto.
Qed.


End Handlers.

(** ** The handlers on a parser whose body fails inside a nested group

    The rest of this parser says whether its body meets an error; the
    error is met one level deeper, inside a nested [\left], which leaves
    the counter raised. *)

Definition sampleExpression : bool -> M bool (list ParseNode) :=
  fun _ p =>
    if rest bool p
    then (inl (ParseError "Expected '\right', got 'EOF'"),
          setDepth bool (leftrightDepth bool p + 1) p)
    else (inr [], p).
Definition sampleExpect : string -> bool -> M bool unit :=
  fun _ _ p => (inr tt, p).
Definition sampleFunction : M bool (option AnyParseNode) :=
  fun p => (inr (Some (LeftrightRight MathMode (Some ")"))), p).

Lemma delimsizing_handler_spec_witness :
  In "\bigl" names /\
  handler (fun _ => false) (fun _ => "") "\bigl" MathMode
    (PLeaf "atom" MathMode "(")
  = inr (mkDelimsizing MathMode 1 "mopen" (Some "(")) /\
  attributes (mathmlBuilder unit (fun _ _ => tt)
                (mkDelimsizing MathMode 1 "mopen" (Some "(")))
  = [("fence", "true")].
Proof.
  split; [simpl; auto|]. split; [reflexivity|].
  exact (proj1 (proj2 (proj2 (proj2 (proj2 (proj2 (proj2
           (delimsizing_handler_spec (fun _ => false) (fun _ => "") unit
              (fun _ _ => tt) "\bigl" MathMode (PLeaf "atom" MathMode "(")
              (or_introl eq_refl))))))))).
Defined.

Lemma leftHandler_depth_witness :
  (forall b q l q',
      sampleExpression b q = (inr l, q') ->
      leftrightDepth bool q' = leftrightDepth bool q) /\
  (forall b q e q',
      sampleExpression b q = (inl e, q') ->
      (leftrightDepth bool q <= leftrightDepth bool q')%Z) /\
  (forall s b q, leftrightDepth bool (snd (sampleExpect s b q))
                 = leftrightDepth bool q) /\
  (forall q f q',
      sampleFunction q = (inr f, q') ->
      leftrightDepth bool q' = leftrightDepth bool q) /\
  (forall q e q',
      sampleFunction q = (inl e, q') ->
      (leftrightDepth bool q <= leftrightDepth bool q')%Z) /\
  leftHandler (fun _ => false) (fun _ => "") bool sampleExpression
    sampleExpect sampleFunction "\left" (PLeaf "atom" MathMode "(")
    (mkParser bool MathMode 0 true)
  = (inl (ParseError "Expected '\right', got 'EOF'"),
     mkParser bool MathMode 2 true) /\
  (0 + 1 <= 2)%Z.
Proof.
  assert (H1 : forall b q l q',
             sampleExpression b q = (inr l, q') ->
             leftrightDepth bool q' = leftrightDepth bool q).
  { intros b q l q'. unfold sampleExpression.
    destruct (rest bool q); [discriminate|].
    intros H. injection H as _ <-. reflexivity. }
  assert (H2 : forall b q e q',
             sampleExpression b q = (inl e, q') ->
             (leftrightDepth bool q <= leftrightDepth bool q')%Z).
  { intros b q e q'. unfold sampleExpression.
    destruct (rest bool q); [|discriminate].
    intros H. injection H as _ <-. simpl. lia. }
  assert (H3 : forall s b q, leftrightDepth bool (snd (sampleExpect s b q))
                             = leftrightDepth bool q) by reflexivity.
  assert (H4 : forall q f q',
             sampleFunction q = (inr f, q') ->
             leftrightDepth bool q' = leftrightDepth bool q).
  { intros q f q' H. injection H as _ <-. reflexivity. }
  assert (H5 : forall q e q',
             sampleFunction q = (inl e, q') ->
             (leftrightDepth bool q <= leftrightDepth bool q')%Z).
  { intros q e q' H. discriminate. }
  split; [exact H1|]. split; [exact H2|]. split; [exact H3|].
  split; [exact H4|]. split; [exact H5|].
  exact (proj2 (proj2 (proj2
           (leftHandler_depth (fun _ => false) (fun _ => "") bool
              sampleExpression sampleExpect sampleFunction "\left"
              (PLeaf "atom" MathMode "(") (mkParser bool MathMode 0 true)
              H1 H2 H3 H4 H5)))).
Defined.


End Delimsizing.

(* ------------------------------------------------------------------ *)
(** * The handlers of [\href] and [\url] (functions/href.ts) *)

Module Href.

Local Open Scope string_scope.

(** An argument as the parser hands it to a handler: the node of a [url]
    argument, or a node of another type. *)
Inductive Arg :=
| UrlArg (mode : Mode) (url : string)
| OtherArg (n : ParseNode).

Definition argType (a : Arg) : string :=
  match a with
  | UrlArg _ _ => "url"
  | OtherArg n => nodeType n
  end.

(** [node.url]; [None] is [undefined]. *)
Definition urlOf (a : Arg) : option string :=
  match a with
  | UrlArg _ u => Some u
  | OtherArg _ => None
  end.

(** [assertNodeType(node, type)] of parseNode.ts. *)
Definition assertNodeType (node : Arg) (t : string) : Result Arg :=
  if String.eqb (argType node) t then ok node
  else throw (Error ("Expected node of type " ++ t
                     ++ ", but got node of type " ++ argType node)).

(** The nodes that the handlers make. *)
Inductive Node :=
| Textord (mode : Mode) (text : string)
| Text (mode : Mode) (font : string) (body : list Node)
| Href (mode : Mode) (href : option string) (body : list Node)
| Arg_ (a : Arg).

(** The loop of the [\url] handler over the code units of [href]; a
    string is the list of its code units. *)
Fixpoint urlChars (href : string) : list Node :=
  match href with
  | EmptyString => []
  | String c rest =>
      Textord TextMode
        (if Ascii.eqb c "~" then "\textasciitilde" else String c EmptyString)
      :: urlChars rest
  end.

Definition undefinedLength : string :=
  "Cannot read properties of undefined (reading 'length')".

Section Handlers.

(** [ordargument] of defineFunction.ts is not part of the sources at hand. *)
Variable ordargument : Node -> list Node.

(** The handler of [\href]; [args] are its two arguments. *)
Definition hrefHandler (parserMode : Mode) (arg0 arg1 : Arg) : Result Node :=
  let body := arg1 in
  u <- assertNodeType arg0 "url" ;;
  ok (Href parserMode (urlOf u) (ordargument (Arg_ body))).

(** The handler of [\url]. *)
Definition urlHandler (parserMode : Mode) (arg0 : Arg) : Result Node :=
  u <- assertNodeType arg0 "url" ;;
  match urlOf u with
  | None => throw (TypeError undefinedLength)
  | Some href =>
      let chars := urlChars href in
      let body := Text parserMode "\texttt" chars in
      ok (Href parserMode (Some href) (ordargument body))
  end.

Lemma urlChars_inj (a b : string) : urlChars a = urlChars b -> a = b.
Proof.
  revert b. induction a as [|c r IH]; intros [|c' r']; simpl;
    try discriminate; [reflexivity|].
  intros H. injection H as Hc Hr. f_equal; [|apply IH; exact Hr].
  destruct (Ascii.eqb_spec c "~"), (Ascii.eqb_spec c' "~");
    try congruence; try discriminate.
Qed.

(** X16. [\url] shows its address character by character: on success the
    link target is the address unchanged, and the body is one [\texttt]
    text of as many [textord] nodes as the address has code units, each in
    text mode whatever the mode of the parser, none with the text [~]
    (it becomes [\textasciitilde]); different addresses give different
    bodies. *)
Theorem urlHandler_chars (parserMode : Mode) (arg0 : Arg) (node : Node) :
  urlHandler parserMode arg0 = inr node ->
  exists href,
    urlOf arg0 = Some href /\
    node = Href parserMode (Some href)
             (ordargument (Text parserMode "\texttt" (urlChars href))) /\
    length (urlChars href) = String.length href /\
    Forall (fun c => exists t, c = Textord TextMode t /\ t <> "~")
      (urlChars href) /\
    forall other, urlChars other = urlChars href -> other = href.
Proof.
  unfold urlHandler, assertNodeType, bind.
  destruct (String.eqb (argType arg0) "url"); simpl; [|discriminate].
  destruct (urlOf arg0) as [href|]; [|discriminate].
  intros H. injection H as <-. exists href.
  split; [reflexivity|]. split; [reflexivity|]. split; [|split].
  - induction href as [|c r IH]; simpl; congruence.
  - induction href as [|c r IH]; simpl; constructor; [|exact IH].
    eexists. split; [reflexivity|].
    destruct (Ascii.eqb_spec c "~") as [->|Hc]; [discriminate|].
    intros H. injection H as H. contradiction.
  - intros other. apply urlChars_inj.
Qed.

End Handlers.

Lemma urlHandler_chars_witness :
  urlHandler (fun n => [n]) MathMode (UrlArg TextMode "a~b")
  = inr (Href MathMode (Some "a~b")
           [Text MathMode "\texttt"
              [Textord TextMode "a"; Textord TextMode "\textasciitilde";
               Textord TextMode "b"]]) /\
  exists href,
    urlOf (UrlArg TextMode "a~b") = Some href /\
    Href MathMode (Some "a~b")
      [Text MathMode "\texttt"
         [Textord TextMode "a"; Textord TextMode "\textasciitilde";
          Textord TextMode "b"]]
    = Href MathMode (Some href)
        [Text MathMode "\texttt" (urlChars href)] /\
    length (urlChars href) = String.length href /\
    Forall (fun c => exists t, c = Textord TextMode t /\ t <> "~")
      (urlChars href) /\
    forall other, urlChars other = urlChars href -> other = href.
Proof.
  split; [reflexivity|].
  exact (urlHandler_chars (fun n => [n]) MathMode (UrlArg TextMode "a~b")
           _ eq_refl).
Defined.

End Href.

(* ------------------------------------------------------------------ *)
(** * The MathML of symbols (functions/symbolsOrd.ts) *)

Module SymbolsOrd.

Local Open Scope string_scope.

(** A [mathord] or [textord] parse node. *)
Record ord := mkOrd {
  mode : Mode;
  text : string
}.

Definition defaultVariant (type : string) : option string :=
  match type with
  | "mi" => Some "italic"
  | "mn" => Some "normal"
  | "mtext" => Some "normal"
  | _ => None
  end.

(** [x || d] on a string that may be null. *)
Definition orDefault (x : option string) (d : string) : string :=
  match x with
  | None => d
  | Some s => if String.eqb s "" then d else s
  end.

(** [/[0-9]/.test(text)]. *)
Fixpoint hasDigit (s : string) : bool :=
  match s with
  | EmptyString => false
  | String c rest =>
      (Nat.leb 48 (nat_of_ascii c) && Nat.leb (nat_of_ascii c) 57)
      || hasDigit rest
  end.

(** [variant !== defaultVariant[type]]. *)
Definition differs (variant : string) (dflt : option string) : bool :=
  match dflt with
  | Some d => negb (String.eqb variant d)
  | None => true
  end.

Section Builders.

(** [Options], [mml.makeText] and [mml.getVariant] are not part of the
    sources at hand. *)
Variable Options : Type.
Variable TextNode : Type.
Variable makeText : string -> Mode -> Options -> TextNode.
Variable getVariant : ord -> Options -> option string.

Definition MathNode := Delimsizing.MathNode TextNode.

Definition withVariant (variant : string) (node : MathNode) : MathNode :=
  if differs variant (defaultVariant (Delimsizing.type node))
  then Delimsizing.setAttribute TextNode "mathvariant" variant node
  else node.

(** The MathML builder of [mathord]. *)
Definition mathordMathml (group : ord) (options : Options) : MathNode :=
  let node :=
    Delimsizing.mkMathNode "mi" [makeText (text group) (mode group) options] []
  in
  let variant := orDefault (getVariant group options) "italic" in
  withVariant variant node.

(** The MathML builder of [textord]. *)
Definition textordMathml (group : ord) (options : Options) : MathNode :=
  let txt := makeText (text group) (mode group) options in
  let variant := orDefault (getVariant group options) "normal" in
  let node :=
    match mode group with
    | TextMode => Delimsizing.mkMathNode "mtext" [txt] []
    | MathMode =>
        if hasDigit (text group) then Delimsizing.mkMathNode "mn" [txt] []
        else if String.eqb (text group) "\prime"
             then Delimsizing.mkMathNode "mo" [txt] []
             else Delimsizing.mkMathNode "mi" [txt] []
    end in
  withVariant variant node.

(** X17. The [mathvariant] of a symbol is written only where it is not
    the default of the element: a [mathord] is an [mi] and has it unless
    its variant is italic; a [textord] is an [mtext] in text mode and has it
    unless its variant is normal, and the same holds for a number; the
    [mo] of [\prime] always has it, and a math-mode letter is an [mi] that
    has it unless its variant is italic, so without a font it is marked
    ["normal"]. Nothing else is ever set. *)
Theorem ord_mathvariant (group : ord) (options : Options) :
  let m := mathordMathml group options in
  let t := textordMathml group options in
  let vm := orDefault (getVariant group options) "italic" in
  let vt := orDefault (getVariant group options) "normal" in
  (Delimsizing.type m = "mi" /\
   Delimsizing.attributes m
   = if String.eqb vm "italic" then [] else [("mathvariant", vm)]) /\
  (Delimsizing.type t
   = match mode group with
     | TextMode => "mtext"
     | MathMode => if hasDigit (text group) then "mn"
                   else if String.eqb (text group) "\prime" then "mo" else "mi"
     end) /\
  (Delimsizing.attributes t
   = if String.eqb (Delimsizing.type t) "mo" then [("mathvariant", vt)]
     else if String.eqb (Delimsizing.type t) "mi"
          then if String.eqb vt "italic" then [] else [("mathvariant", vt)]
          else if String.eqb vt "normal" then [] else [("mathvariant", vt)]) /\
  Delimsizing.children m = [makeText (text group) (mode group) options] /\
  Delimsizing.children t = [makeText (text group) (mode group) options].
Proof.
  cbv zeta. unfold mathordMathml, textordMathml, withVariant.
  split; [|split; [|split; [|split]]].
  - simpl. destruct (String.eqb _ "italic"); simpl; auto.
  - destruct (mode group); [|simpl; destruct (negb _); reflexivity].
    destruct (hasDigit (text group));
      [simpl; destruct (negb _); reflexivity|].
    destruct (String.eqb (text group) "\prime"); simpl;
      [|destruct (negb _)]; reflexivity.
  - destruct (mode group).
    + destruct (hasDigit (text group)).
      * simpl. destruct (String.eqb _ "normal"); reflexivity.
      * destruct (String.eqb (text group) "\prime"); simpl; [reflexivity|].
        destruct (String.eqb _ "italic"); reflexivity.
    + simpl. destruct (String.eqb _ "normal"); reflexivity.
  - simpl. destruct (negb _); reflexivity.
  - destruct (mode group); [|simpl; destruct (negb _); reflexivity].
    destruct (hasDigit (text group));
      [simpl; destruct (negb _); reflexivity|].
    destruct (String.eqb (text group) "\prime"); simpl;
      [|destruct (negb _)]; reflexivity.
Qed.

End Builders.

End SymbolsOrd.
